(** * responsive-image-sizes.js: a shallow embedding

    The script reads a CSV of visitor contexts (viewport width, screen
    density, page views), measures the width of one image at every viewport
    width of a range in a headless browser, turns both into a table of
    "perfect widths" weighted by the share of page views, sorts that table
    and writes the recommended [srcset] widths to a file.

    JavaScript numbers are modelled by [number]: the rationals, NaN and
    the two infinities.  The arithmetic of the script is that of IEEE 754
    doubles: every sum, product and quotient is the exact result rounded
    to the nearest double, ties to even, with overflow to an infinity and
    underflow through the subnormal numbers ([round_double]).  The one
    thing left out is the sign of zero.  It changes nothing in what the
    script computes: the script never divides by a zero that could be
    negative ([totalViews] starts at [+0], and a sum is [-0] only when all
    its terms are), comparisons and [Math.max] do not tell the two zeros
    apart, and both give the array index 0.  It would only show in the
    way [console.dir] prints a zero.

    The libraries the script calls are collaborators: csv-parse is a
    function from a text to its records, puppeteer's browser and page and
    the terminal are the class [Host], and the file system is a map.  Texts
    are strings of bytes, the UTF-8 encoding of the JavaScript strings.
    The text of a written file and of a printed line is kept as the data
    it is printed from. *)

From Stdlib Require Import Ascii String QArith Qcanon Qround Qabs Qpower Lqa.
From stdpp Require Import base numbers countable gmap list sorting strings.

Local Open Scope Z_scope.

#[global] Arguments Qpower : simpl never.

(** ** JavaScript numbers *)

Inductive number : Type :=
  | Fin (q : Qc)
  | NaN
  | PInf
  | NInf.

#[global] Instance number_eq_dec : EqDecision number.
Proof. solve_decision. Defined.

#[global] Instance number_countable : Countable number.
Proof.
  refine (inj_countable'
    (λ x, match x with
          | Fin q => inl q
          | NaN => inr 0%nat
          | PInf => inr 1%nat
          | NInf => inr 2%nat
          end)
    (λ s, match s with
          | inl q => Fin q
          | inr 0%nat => NaN
          | inr 1%nat => PInf
          | inr _ => NInf
          end) _).
  by intros [].
Defined.

(** Closed equations between numbers are settled by the decision
    procedure: two rationals are compared by value, whatever the proofs of
    canonicity they carry. *)
Ltac by_decide :=
  match goal with
  | |- ?P => apply (bool_decide_eq_true_1 P); vm_compute; reflexivity
  end.

(** An integer literal (of at most 53 binary digits, so that it is a
    double). *)
Definition num (z : Z) : number := Fin (Qc_of_Z z).

Definition is_finite (x : number) : bool :=
  match x with Fin _ => true | _ => false end.

(** *** Rounding to a double *)

(** The floor of the binary logarithm of a positive rational. *)
Definition Qlog2 (q : Q) : Z :=
  let l := Z.log2 (Qnum q) - Z.log2 (Zpos (Qden q)) in
  if Qle_bool (2 ^ l) q then l else l - 1.

(** The nearest integer, the even one of the two when they are as near. *)
Definition round_half_even (q : Q) : Z :=
  let f := Qfloor q in
  match (q - inject_Z f ?= 1 # 2)%Q with
  | Lt => f
  | Gt => f + 1
  | Eq => if Z.even f then f else f + 1
  end.

(** The exponent of the last binary digit kept for [q]: 53 digits are
    kept, and none below 2^-1074. *)
Definition ulp_exp (q : Q) : Z := Z.max (-1074) (Qlog2 (Qabs q) - 52).

(** The double nearest to a rational, ties to even; an infinity when that
    is 2^1024 or more in magnitude. *)
Definition round_double (q : Q) : number :=
  if Qeq_bool q 0 then Fin 0
  else
    let e := ulp_exp q in
    let r := (inject_Z (round_half_even (q / 2 ^ e)) * 2 ^ e)%Q in
    if Qle_bool (2 ^ 1024) (Qabs r) then (if Qle_bool 0 q then PInf else NInf)
    else Fin (Q2Qc r).

(** The double that a decimal literal [n/d] denotes. *)
Definition dec (n : Z) (d : positive) : number := round_double (n # d).

(** *** Arithmetic and comparisons *)

Definition num_neg (x : number) : number :=
  match x with
  | Fin q => Fin (- q)%Qc
  | NaN => NaN
  | PInf => NInf
  | NInf => PInf
  end.

(** [x + y] *)
Definition num_add (x y : number) : number :=
  match x, y with
  | NaN, _ | _, NaN => NaN
  | Fin a, Fin b => round_double (a + b)
  | PInf, NInf | NInf, PInf => NaN
  | PInf, _ | _, PInf => PInf
  | NInf, _ | _, NInf => NInf
  end.

(** [x - y] *)
Definition num_sub (x y : number) : number := num_add x (num_neg y).

(** The sign of a number that is not NaN: [Lt] below zero, [Eq] at zero. *)
Definition num_sign (x : number) : comparison :=
  match x with
  | Fin q => (q ?= 0)%Qc
  | PInf => Gt
  | NInf => Lt
  | NaN => Eq
  end.

Definition signed_inf (s : comparison) : number :=
  match s with Gt => PInf | Lt => NInf | Eq => NaN end.

Definition sign_mul (s t : comparison) : comparison :=
  match s, t with
  | Eq, _ | _, Eq => Eq
  | Gt, Gt | Lt, Lt => Gt
  | _, _ => Lt
  end.

(** [x * y]: an infinity times zero is NaN. *)
Definition num_mul (x y : number) : number :=
  match x, y with
  | NaN, _ | _, NaN => NaN
  | Fin a, Fin b => round_double (a * b)
  | _, _ => signed_inf (sign_mul (num_sign x) (num_sign y))
  end.

(** [x / y]: a number over zero is an infinity of its sign (the zero being
    [+0]), and zero over zero is NaN. *)
Definition num_div (x y : number) : number :=
  match x, y with
  | NaN, _ | _, NaN => NaN
  | Fin a, Fin b =>
      if decide (b = 0%Qc) then signed_inf (a ?= 0)%Qc
      else round_double (a / b)
  | Fin _, _ => Fin 0%Qc
  | _, Fin b =>
      signed_inf
        (sign_mul (num_sign x) (if decide (b = 0%Qc) then Gt else (b ?= 0)%Qc))
  | _, _ => NaN
  end.

#[global] Arguments round_double : simpl never.
#[global] Arguments num_add : simpl never.
#[global] Arguments num_mul : simpl never.
#[global] Arguments num_div : simpl never.

(** [x < y]: false as soon as one side is NaN. *)
Definition num_ltb (x y : number) : bool :=
  match x, y with
  | NaN, _ | _, NaN => false
  | Fin a, Fin b => bool_decide (a < b)%Qc
  | _, NInf | PInf, _ => false
  | _, _ => true
  end.

(** [x <= y] *)
Definition num_leb (x y : number) : bool :=
  match x, y with
  | NaN, _ | _, NaN => false
  | Fin a, Fin b => bool_decide (a ≤ b)%Qc
  | NInf, _ | _, PInf => true
  | _, _ => false
  end.

(** [x > y] and [x >= y] *)
Definition num_gtb (x y : number) : bool := num_ltb y x.
Definition num_geb (x y : number) : bool := num_leb y x.

(** [Math.ceil(x)]: exact, the ceiling of a double being a double. *)
Definition Math_ceil (x : number) : number :=
  match x with
  | Fin q => num (Qceiling q)
  | _ => x
  end.

(** [Math.max(x, y)] and [Math.min(x, y)]: NaN when an argument is NaN. *)
Definition Math_max (x y : number) : number :=
  match x, y with
  | NaN, _ | _, NaN => NaN
  | _, _ => if num_ltb x y then y else x
  end.

Definition Math_min (x y : number) : number :=
  match x, y with
  | NaN, _ | _, NaN => NaN
  | _, _ => if num_ltb y x then y else x
  end.

(** Reading a property that may be absent and using it as a number:
    [undefined] converts to NaN. *)
Definition to_number (v : option number) : number := default NaN v.

(** A property key that is an array index: an integer from 0 to 2^32 - 2.
    Other keys of an array are plain properties, which [Array.prototype.map]
    does not visit. *)
Definition is_array_index (k : number) : bool :=
  match k with
  | Fin q =>
      bool_decide (Qc_of_Z (Qfloor q) = q)
      && bool_decide (0 ≤ q)%Qc
      && bool_decide (q < Qc_of_Z 4294967295)%Qc
  | _ => false
  end.

(** ** Strings: [parseInt], [parseFloat] and the header test

    A text is the string of the bytes of its UTF-8 encoding.  A byte below
    128 is the ASCII character of that code, and no byte of another
    character is below 128. *)

Definition char_code (c : ascii) : Z := Z.of_N (N_of_ascii c).

Definition is_digit (c : ascii) : bool :=
  (48 <=? char_code c) && (char_code c <=? 57).

(** The character class [[a-zA-Z]]. *)
Definition is_ascii_letter (c : ascii) : bool :=
  ((65 <=? char_code c) && (char_code c <=? 90))
  || ((97 <=? char_code c) && (char_code c <=? 122)).

(** The white space and line terminators of one byte: tab, line feed,
    vertical tab, form feed, carriage return, space. *)
Definition is_white_space (c : ascii) : bool :=
  ((9 <=? char_code c) && (char_code c <=? 13)) || (char_code c =? 32).

(** The one of two bytes: U+00A0, the no-break space. *)
Definition is_white_space_2 (c1 c2 : ascii) : bool :=
  (char_code c1 =? 194) && (char_code c2 =? 160).

(** Those of three bytes: U+1680, U+2000 to U+200A, the line and paragraph
    separators U+2028 and U+2029, U+202F, U+205F, U+3000, and the byte
    order mark U+FEFF. *)
Definition is_white_space_3 (c1 c2 c3 : ascii) : bool :=
  ((char_code c1 =? 225) && (char_code c2 =? 154) && (char_code c3 =? 128))
  || ((char_code c1 =? 226) && (char_code c2 =? 128)
      && (((128 <=? char_code c3) && (char_code c3 <=? 138))
          || (char_code c3 =? 168) || (char_code c3 =? 169)
          || (char_code c3 =? 175)))
  || ((char_code c1 =? 226) && (char_code c2 =? 129) && (char_code c3 =? 159))
  || ((char_code c1 =? 227) && (char_code c2 =? 128) && (char_code c3 =? 128))
  || ((char_code c1 =? 239) && (char_code c2 =? 187) && (char_code c3 =? 191)).

(** What is left once the white space and the line terminators at the
    head of a text are skipped, as [parseInt] and [parseFloat] do. *)
Fixpoint trim_start (s : string) : string :=
  match s with
  | String c1 r1 =>
      if is_white_space c1 then trim_start r1
      else
        match r1 with
        | String c2 r2 =>
            if is_white_space_2 c1 c2 then trim_start r2
            else
              match r2 with
              | String c3 r3 =>
                  if is_white_space_3 c1 c2 c3 then trim_start r3 else s
              | EmptyString => s
              end
        | EmptyString => s
        end
  | EmptyString => s
  end.

(** An optional sign: whether it is a minus, and what follows it. *)
Definition strip_sign (s : string) : bool * string :=
  match s with
  | String "-" r => (true, r)
  | String "+" r => (false, r)
  | _ => (false, s)
  end.

(** The longest prefix of decimal digits, as digit values, and the rest. *)
Fixpoint take_digits (s : string) : list Z * string :=
  match s with
  | String c r =>
      if is_digit c
      then let '(ds, rest) := take_digits r in (char_code c - 48 :: ds, rest)
      else ([], s)
  | EmptyString => ([], s)
  end.

Definition digits_value (ds : list Z) : Z :=
  fold_left (λ acc d, 10 * acc + d) ds 0.

(** [parseInt(s, 10)]: the integer that the digits write, rounded to a
    double. *)
Definition parseInt (s : string) : number :=
  let '(neg, body) := strip_sign (trim_start s) in
  match take_digits body with
  | ([], _) => NaN
  | (ds, _) =>
      round_double
        (inject_Z (if neg : bool then - digits_value ds else digits_value ds))
  end.

Definition pow10 (e : Z) : Q :=
  if 0 <=? e then inject_Z (10 ^ e) else (/ inject_Z (10 ^ (- e)))%Q.

(** The exponent part [e±ddd] at the head of a string, 0 when there is
    none (an [e] that no digit follows is not part of the number). *)
Definition exponent_part (s : string) : Z :=
  match s with
  | String c r =>
      if (char_code c =? 101) || (char_code c =? 69) then
        let '(neg, body) := strip_sign r in
        match take_digits body with
        | ([], _) => 0
        | (ds, _) => if neg : bool then - digits_value ds else digits_value ds
        end
      else 0
  | EmptyString => 0
  end.

(** [parseFloat(s)]: the longest prefix that is a decimal literal, rounded
    to a double. *)
Definition parseFloat (s : string) : number :=
  let '(neg, body) := strip_sign (trim_start s) in
  if String.prefix "Infinity" body then (if neg : bool then NInf else PInf)
  else
    let '(ip, r1) := take_digits body in
    let '(fp, r2) :=
      match r1 with
      | String "." r => take_digits r
      | _ => ([], r1)
      end in
    match ip ++ fp with
    | [] => NaN
    | ds =>
        let m := inject_Z (digits_value ds) in
        let v := (m * pow10 (exponent_part r2 - Z.of_nat (length fp)))%Q in
        round_double (if neg : bool then - v else v)%Q
    end.

(** [s.match(/[a-zA-Z]/)]: the position of the first ASCII letter, [None]
    (JavaScript's [null]) when there is none. *)
Fixpoint String_match_letter (s : string) : option nat :=
  match s with
  | String c r =>
      if is_ascii_letter c then Some 0%nat else S <$> String_match_letter r
  | EmptyString => None
  end.

(** Truthiness of a match result. *)
Definition truthy {A} (m : option A) : bool := bool_decide (is_Some m).

(** ** Arrays

    A JavaScript array is an object: a finite map from property keys to
    values.  A key is the string of a number, and two numbers of the model
    have the same string exactly when they are equal, so the keys are the
    numbers themselves.  Iteration ([map]) visits the array indices in
    ascending order and skips every hole and every other property. *)

(** The integer of a key that is an array index. *)
Definition index_of (k : number) : Z :=
  match k with Fin q => Qfloor q | _ => 0 end.

Definition index_le (a b : number * number) : Prop :=
  index_of a.1 ≤ index_of b.1.

#[global] Instance index_le_dec : RelDecision index_le.
Proof. intros a b. unfold index_le. apply _. Defined.

(** The array elements, in the order [map] hands them to its callback. *)
Definition Array_entries (arr : gmap number number) : list (number * number) :=
  merge_sort index_le (filter (λ kv, is_array_index kv.1) (map_to_list arr)).

(** Insertion of [x] in front of a sorted array: it moves right past every
    element the comparison function puts before it. *)
Fixpoint sort_insert {A} (comparefn : A → A → number) (x : A) (l : list A)
  : list A :=
  match l with
  | [] => [x]
  | y :: l' =>
      if num_gtb (comparefn x y) (num 0)
      then y :: sort_insert comparefn x l'
      else x :: l
  end.

(** [arr.sort(comparefn)], as a stable sort: [a] goes after [b] when
    [comparefn(a, b) > 0], a NaN result counts as 0, and elements that
    compare equal keep their order. *)
Definition Array_sort {A} (comparefn : A → A → number) (l : list A)
  : list A :=
  foldr (sort_insert comparefn) [] l.

(** ** Data of the script *)

(** A row of the contexts file once cast. *)
Record context : Type := Ctx {
  viewport : number;
  density : number;
  views : number
}.

(** An element of [perfectWidths]. *)
Record bucket : Type := Bucket {
  width : number;
  percentage : number
}.

#[global] Instance context_eq_dec : EqDecision context.
Proof. solve_decision. Defined.

#[global] Instance bucket_eq_dec : EqDecision bucket.
Proof. solve_decision. Defined.

(** The command-line options, as yargs hands them over.  [verbose] is
    used for its truthiness only. *)
Record Argv : Type := {
  contextsfile : string;
  minviewport : option number;
  maxviewport : option number;
  url : string;
  selector : string;
  delay : number;
  variationsfile : option string;
  widthsnumber : number;
  destfile : option string;
  verbose : bool
}.

(** The object handed to [page.setViewport]. *)
Record Viewport : Type := {
  vp_width : number;
  vp_height : number;
  deviceScaleFactor : number
}.

Inductive error : Type :=
  | TypeError (msg : string)
  | LibraryError (msg : string).

#[global] Instance error_eq_dec : EqDecision error.
Proof. solve_decision. Defined.

(** What the script writes to a file: the variations table, one row
    [viewport;image width] per array element, or the final record with the
    page, the selector and the widths joined by commas. *)
Inductive file_data : Type :=
  | VariationsCsv (rows : list (number * number))
  | SrcsetTxt (page sel : string) (widths : list number).

#[global] Instance file_data_eq_dec : EqDecision file_data.
Proof. solve_decision. Defined.

#[global] Instance Viewport_eq_dec : EqDecision Viewport.
Proof. solve_decision. Defined.

(** What the script prints, with [console.log], [console.dir] and
    [process.stdout]: the progress lines of [--verbose], the perfect
    widths and the three error messages.  [Clear_line] and [Cursor_to_0]
    are the two calls that move the cursor of a terminal. *)
Inductive console_line : Type :=
  | Step_banner (n : nat)
  | Imported_lines (n : nat)
  | Viewports_in_context (lo hi : number)
  | Viewports_considered (lo hi : number)
  | Launch_headless_Chrome
  | Go_to (u : string)
  | Checking_widths (sel : string)
  | Current_viewport (v : number)
  | Clear_line
  | Cursor_to_0
  | Variations_saved (f : string)
  | Widths_table (rows : list (number * number))
  | Compute_all_perfect_widths
  | Perfect_widths_computed (n : nat)
  | Sort_by_percentage
  | Find_best_widths (n : number)
  | Dir_srcset (l : list number)
  | Data_saved (f : string)
  | Dir_perfectWidths (l : list bucket)
  | Couldnt_load_page (u : string) (e : error)
  | Couldnt_save_variations (f : string) (e : error)
  | Couldnt_save_data (f : string) (e : error).

#[global] Instance console_line_eq_dec : EqDecision console_line.
Proof. solve_decision. Defined.

(** The three messages that report an error. *)
Definition is_error_line (l : console_line) : bool :=
  match l with
  | Couldnt_load_page _ _ | Couldnt_save_variations _ _
  | Couldnt_save_data _ _ => true
  | _ => false
  end.

(** The errors reported on a console. *)
Definition errors (c : list console_line) : list console_line :=
  filter (λ l, is_error_line l) c.

(** A truthy option value: present and not the empty string. *)
Definition given (o : option string) : option string :=
  match o with
  | Some EmptyString => None
  | _ => o
  end.

(** A reader of comma-separated text for files without quoted fields: one
    record per line, the last line may lack its line feed. *)
Fixpoint split_at (sep : ascii) (s : string) : list string :=
  match s with
  | EmptyString => [EmptyString]
  | String c r =>
      if Ascii.eqb c sep then EmptyString :: split_at sep r
      else match split_at sep r with
           | f :: fs => String c f :: fs
           | [] => [String c EmptyString]
           end
  end.

Definition text_lines (s : string) : list string :=
  match reverse (split_at "010" s) with
  | EmptyString :: l => reverse l
  | _ => split_at "010" s
  end.

Definition three_fields (line : string) : option (string * string * string) :=
  match split_at "," line with
  | [a; b; c] => Some (a, b, c)
  | _ => None
  end.

Definition plain_csv_records (s : string)
  : option (list (string * string * string)) :=
  mapM three_fields (text_lines s).

(** ** Effects

    The body of the script is one asynchronous function.  It is modelled
    in a state monad with exceptions: a computation ends with a value,
    with a thrown error (a rejected promise), or never ends. *)

Inductive result (St A : Type) : Type :=
  | Ok (a : A) (s : St)
  | Thrown (e : error) (s : St)
  | Hung.

Arguments Ok {St A} a s.
Arguments Thrown {St A} e s.
Arguments Hung {St A}.

#[global] Instance result_eq_dec {St A : Type}
  `{EqDecision St, EqDecision A} : EqDecision (result St A).
Proof. solve_decision. Defined.

Definition M (St A : Type) : Type := St → result St A.

#[global] Instance M_ret {St} : MRet (M St) := λ A a s, Ok a s.

#[global] Instance M_bind {St} : MBind (M St) := λ A B f m s,
  match m s with
  | Ok a s' => f a s'
  | Thrown e s' => Thrown e s'
  | Hung => Hung
  end.

Definition throw {St A} (e : error) : M St A := λ s, Thrown e s.

(** [promise.catch(handler)] *)
Definition catch {St A} (m : M St A) (handler : error → M St A) : M St A :=
  λ s,
  match m s with
  | Thrown e s' => handler e s'
  | r => r
  end.

Definition gets {St A} (f : St → A) : M St A := λ s, Ok (f s) s.
Definition modify {St} (f : St → St) : M St unit := λ s, Ok tt (f s).

(** ** The state of a run *)

Section World.

Context {Page : Type}.

(** The state: the files that can be read, the paths where writing fails,
    the files written, the console, the browser session, and the two
    objects of the script that are mutated in place. *)
Record world : Type := World {
  disk : gmap string string;
  read_only : gset string;
  written : gmap string file_data;
  console : list console_line;
  browser_open : bool;
  page : Page;
  VIEWPORT : Viewport;
  imageWidths : gmap number number
}.

Definition set_written (f : gmap string file_data → gmap string file_data)
  (w : world) : world :=
  World (disk w) (read_only w) (f (written w)) (console w) (browser_open w)
    (page w) (VIEWPORT w) (imageWidths w).
Definition set_console (f : list console_line → list console_line)
  (w : world) : world :=
  World (disk w) (read_only w) (written w) (f (console w)) (browser_open w)
    (page w) (VIEWPORT w) (imageWidths w).
Definition set_browser_open (b : bool) (w : world) : world :=
  World (disk w) (read_only w) (written w) (console w) b
    (page w) (VIEWPORT w) (imageWidths w).
Definition set_page (p : Page) (w : world) : world :=
  World (disk w) (read_only w) (written w) (console w) (browser_open w)
    p (VIEWPORT w) (imageWidths w).
Definition set_VIEWPORT (v : Viewport) (w : world) : world :=
  World (disk w) (read_only w) (written w) (console w) (browser_open w)
    (page w) v (imageWidths w).
Definition set_imageWidths (f : gmap number number → gmap number number)
  (w : world) : world :=
  World (disk w) (read_only w) (written w) (console w) (browser_open w)
    (page w) (VIEWPORT w) (f (imageWidths w)).

End World.

Arguments world : clear implicits.

#[global] Instance world_eq_dec `{EqDecision Page} : EqDecision (world Page).
Proof. solve_decision. Defined.

(** ** The host of the script

    What the script calls outside itself once the options are read:
    puppeteer's browser and page, and the terminal.  Each call that
    returns a promise may reject: [puppeteer_launch] and [browser_close]
    give the error if there is one, the others an error or their result.
    [page_sleep] is what the page becomes while the script waits.
    [stdout_isTTY] tells whether [process.stdout] is a terminal, the only
    case in which it has the methods [clearLine] and [cursorTo]. *)

Class Host (Page : Type) : Type := {
  puppeteer_launch : option error;
  browser_newPage : error + Page;
  page_goto : Page → string → error + Page;
  page_setViewport : Page → Viewport → error + Page;
  page_sleep : Page → number → Page;
  page_evaluate_width : Page → string → error + number;
  browser_close : option error;
  stdout_isTTY : bool
}.

(** ** Hosts and data for the examples

    A page whose state is the width of its viewport.  It loads from one
    address only and holds one image, [img], as wide as the viewport up to
    600 pixels. *)

Definition the_url : string := "https://example.com/".

Definition fluid_goto (p : number) (u : string) : error + number :=
  if String.eqb u the_url then inr p
  else inl (LibraryError "net::ERR_NAME_NOT_RESOLVED").

Definition fluid_setViewport (p : number) (v : Viewport) : error + number :=
  inr (vp_width v).

Definition fluid_sleep (p : number) (ms : number) : number := p.

Definition fluid_evaluate_width (p : number) (sel : string) : error + number :=
  if String.eqb sel "img" then inr (if num_leb p (num 600) then p else num 600)
  else inl (TypeError "Cannot read property 'width' of null").

(** The same page with a script that removes the image once the viewport
    is 325 pixels wide or more. *)
Definition vanishing_evaluate_width (p : number) (sel : string)
  : error + number :=
  if num_ltb p (num 325) then fluid_evaluate_width p sel
  else inl (TypeError "Cannot read property 'width' of null").

(** The page in a browser that starts and closes, with a terminal. *)
Definition fluid : Host number :=
  {| puppeteer_launch := None; browser_newPage := inr (num 800);
     page_goto := fluid_goto; page_setViewport := fluid_setViewport;
     page_sleep := fluid_sleep; page_evaluate_width := fluid_evaluate_width;
     browser_close := None; stdout_isTTY := true |}.

Definition vanishing : Host number :=
  {| puppeteer_launch := None; browser_newPage := inr (num 800);
     page_goto := fluid_goto; page_setViewport := fluid_setViewport;
     page_sleep := fluid_sleep;
     page_evaluate_width := vanishing_evaluate_width;
     browser_close := None; stdout_isTTY := true |}.

(** The same page when the output of the script goes to a file or a
    pipe. *)
Definition piped : Host number :=
  {| puppeteer_launch := None; browser_newPage := inr (num 800);
     page_goto := fluid_goto; page_setViewport := fluid_setViewport;
     page_sleep := fluid_sleep; page_evaluate_width := fluid_evaluate_width;
     browser_close := None; stdout_isTTY := false |}.

(** A machine on which Chrome does not start. *)
Definition no_browser : Host number :=
  {| puppeteer_launch := Some (LibraryError "Failed to launch chrome!");
     browser_newPage := inr (num 800);
     page_goto := fluid_goto; page_setViewport := fluid_setViewport;
     page_sleep := fluid_sleep; page_evaluate_width := fluid_evaluate_width;
     browser_close := None; stdout_isTTY := true |}.

Definition nl : string := String "010" EmptyString.

(** Three rows without a header. *)
Definition contexts_csv : string :=
  "320,1,10" +:+ nl +:+ "324,2,30" +:+ nl +:+ "330,1.5,60" +:+ nl.

(** A first row without views. *)
Definition idle_csv : string :=
  "320,1,0" +:+ nl +:+ "324,2,30" +:+ nl.

(** A second row of negative numbers. *)
Definition negative_csv : string :=
  "320,1,10" +:+ nl +:+ "-5,0,-3" +:+ nl.

(** Two rows, the second with an exponent in its density. *)
Definition exponent_csv : string :=
  "320,1,10" +:+ nl +:+ "324,2e0,30" +:+ nl.

Definition a_disk : gmap string string :=
  {[ "contexts.csv" := contexts_csv; "idle.csv" := idle_csv;
     "negative.csv" := negative_csv; "exponent.csv" := exponent_csv;
     "empty.csv" := EmptyString ]}.

Definition a_world : world number :=
  {| disk := a_disk; read_only := ∅; written := ∅; console := [];
     browser_open := false; page := num 800;
     VIEWPORT := {| vp_width := num 0; vp_height := num 0;
                    deviceScaleFactor := num 0 |};
     imageWidths := ∅ |}.

Definition an_argv : Argv :=
  {| contextsfile := "contexts.csv"; minviewport := None; maxviewport := None;
     url := the_url; selector := "img"; delay := num 0;
     variationsfile := None; widthsnumber := num 2;
     destfile := Some "srcset-widths.txt"; verbose := false |}.

(** The same run on a page that does not load. *)
Definition unreachable_argv : Argv :=
  {| contextsfile := "contexts.csv"; minviewport := None; maxviewport := None;
     url := "https://example.invalid/"; selector := "img"; delay := num 0;
     variationsfile := None; widthsnumber := num 2;
     destfile := Some "srcset-widths.txt"; verbose := false |}.

(** The same run with a selector that matches nothing. *)
Definition no_match_argv : Argv :=
  {| contextsfile := "contexts.csv"; minviewport := None; maxviewport := None;
     url := the_url; selector := "picture"; delay := num 0;
     variationsfile := None; widthsnumber := num 2;
     destfile := Some "srcset-widths.txt"; verbose := false |}.

(** The run limited to viewports up to 325 pixels. *)
Definition limited_argv : Argv :=
  {| contextsfile := "contexts.csv"; minviewport := None;
     maxviewport := Some (num 325);
     url := the_url; selector := "img"; delay := num 0;
     variationsfile := None; widthsnumber := num 2;
     destfile := Some "srcset-widths.txt"; verbose := false |}.

(** The run on the file whose first row has no views, limited to the
    viewport of that row. *)
Definition idle_argv : Argv :=
  {| contextsfile := "idle.csv"; minviewport := None;
     maxviewport := Some (num 320);
     url := the_url; selector := "img"; delay := num 0;
     variationsfile := None; widthsnumber := num 2;
     destfile := Some "srcset-widths.txt"; verbose := false |}.

(** The run on the file with a row of negative numbers. *)
Definition negative_argv : Argv :=
  {| contextsfile := "negative.csv"; minviewport := None; maxviewport := None;
     url := the_url; selector := "img"; delay := num 0;
     variationsfile := None; widthsnumber := num 2;
     destfile := Some "srcset-widths.txt"; verbose := false |}.

(** The run on the file without a row. *)
Definition empty_argv : Argv :=
  {| contextsfile := "empty.csv"; minviewport := None; maxviewport := None;
     url := the_url; selector := "img"; delay := num 0;
     variationsfile := None; widthsnumber := num 2;
     destfile := Some "srcset-widths.txt"; verbose := false |}.

(** The run that saves the variations of the width as well. *)
Definition variations_argv : Argv :=
  {| contextsfile := "contexts.csv"; minviewport := None; maxviewport := None;
     url := the_url; selector := "img"; delay := num 0;
     variationsfile := Some "variations.csv"; widthsnumber := num 2;
     destfile := Some "srcset-widths.txt"; verbose := false |}.

(** The run from 320.5 pixels on. *)
Definition fractional_argv : Argv :=
  {| contextsfile := "contexts.csv";
     minviewport := Some (Fin (Q2Qc (641 # 2))); maxviewport := None;
     url := the_url; selector := "img"; delay := num 0;
     variationsfile := None; widthsnumber := num 2;
     destfile := Some "srcset-widths.txt"; verbose := false |}.

(** The run from 400 pixels on, above the viewports of the file. *)
Definition beyond_argv : Argv :=
  {| contextsfile := "contexts.csv";
     minviewport := Some (num 400); maxviewport := None;
     url := the_url; selector := "img"; delay := num 0;
     variationsfile := None; widthsnumber := num 2;
     destfile := Some "srcset-widths.txt"; verbose := false |}.

(** The run that tells what it does. *)
Definition verbose_argv : Argv :=
  {| contextsfile := "contexts.csv"; minviewport := None; maxviewport := None;
     url := the_url; selector := "img"; delay := num 0;
     variationsfile := None; widthsnumber := num 2;
     destfile := Some "srcset-widths.txt"; verbose := true |}.

(** The widths of the image from the viewport [a + 1/2] on, over [n]
    widths. *)
Definition measured_halves (a : Z) (n : nat) : gmap number number :=
  list_to_map
    ((λ z, (Fin (Q2Qc (2 * z + 1 # 2)), Fin (Q2Qc (2 * z + 1 # 2))))
       <$> seqZ a (Z.of_nat n)).

(** The rows of [contexts_csv] and of [idle_csv] once cast. *)
Definition three_contexts : list context :=
  [ Ctx (num 320) (num 1) (num 10);
    Ctx (num 324) (num 2) (num 30);
    Ctx (num 330) (Fin (Q2Qc (3 # 2))) (num 60) ].

Definition idle_contexts : list context :=
  [ Ctx (num 320) (num 1) (num 0);
    Ctx (num 324) (num 2) (num 30) ].

(** Two contexts at one viewport with 10^308 views each, as read from a
    field of 309 digits. *)
Definition huge_views : number :=
  parseInt ("1" +:+ string_of_list_ascii (replicate 308 "0"%char)).

Definition huge_contexts : list context :=
  [ Ctx (num 320) (num 1) huge_views; Ctx (num 320) (num 1) huge_views ].

(** One context on a screen of a hundred million dots per pixel. *)
Definition dense_contexts : list context :=
  [ Ctx (num 320) (num 100000000) (num 10) ].

(** The widths of the image from the viewport [a] on, over [n] widths. *)
Definition measured (a : Z) (n : nat) : gmap number number :=
  list_to_map ((λ z, (num z, num z)) <$> seqZ a (Z.of_nat n)).

(** The states in which the example runs end. *)
Definition unreachable_end : world number :=
  {| disk := a_disk; read_only := ∅;
     written :=
       {[ "srcset-widths.txt"
            := SrcsetTxt "https://example.invalid/" "img" [] ]};
     console :=
       [ Couldnt_load_page "https://example.invalid/"
           (LibraryError "net::ERR_NAME_NOT_RESOLVED");
         Dir_perfectWidths [] ];
     browser_open := false; page := num 800;
     VIEWPORT := {| vp_width := num 320; vp_height := num 2000;
                    deviceScaleFactor := num 1 |};
     imageWidths := ∅ |}.

Definition no_match_end : world number :=
  {| disk := a_disk; read_only := ∅;
     written := {[ "srcset-widths.txt" := SrcsetTxt the_url "picture" [] ]};
     console :=
       [ Couldnt_load_page the_url
           (TypeError "Cannot read property 'width' of null");
         Dir_perfectWidths [] ];
     browser_open := false; page := num 320;
     VIEWPORT := {| vp_width := num 320; vp_height := num 2000;
                    deviceScaleFactor := num 1 |};
     imageWidths := ∅ |}.

Definition vanishing_end : world number :=
  {| disk := a_disk; read_only := ∅;
     written := {[ "srcset-widths.txt" := SrcsetTxt the_url "img" [] ]};
     console :=
       [ Couldnt_load_page the_url
           (TypeError "Cannot read property 'width' of null");
         Dir_perfectWidths
           [ {| width := num 648; percentage := dec 3 10 |};
             {| width := num 320; percentage := dec 1 10 |} ] ];
     browser_open := false; page := num 325;
     VIEWPORT := {| vp_width := num 325; vp_height := num 2000;
                    deviceScaleFactor := num 1 |};
     imageWidths := measured 320 5 |}.

Definition limited_end : world number :=
  {| disk := a_disk; read_only := ∅;
     written := {[ "srcset-widths.txt" := SrcsetTxt the_url "img" [] ]};
     console :=
       [ Dir_perfectWidths
           [ {| width := num 648; percentage := dec 3 4 |};
             {| width := num 320; percentage := dec 1 4 |} ] ];
     browser_open := false; page := num 325;
     VIEWPORT := {| vp_width := num 326; vp_height := num 2000;
                    deviceScaleFactor := num 1 |};
     imageWidths := measured 320 6 |}.

Definition idle_end : world number :=
  {| disk := a_disk; read_only := ∅;
     written := {[ "srcset-widths.txt" := SrcsetTxt the_url "img" [] ]};
     console :=
       [ Dir_perfectWidths [ {| width := num 320; percentage := NaN |} ] ];
     browser_open := false; page := num 320;
     VIEWPORT := {| vp_width := num 321; vp_height := num 2000;
                    deviceScaleFactor := num 1 |};
     imageWidths := measured 320 1 |}.

(** Step 2 of the run that saves the variations. *)
Definition variations_end : world number :=
  {| disk := a_disk; read_only := ∅;
     written :=
       {[ "variations.csv"
            := VariationsCsv ((λ z, (num z, num z)) <$> seqZ 320 11) ]};
     console := [];
     browser_open := false; page := num 330;
     VIEWPORT := {| vp_width := num 331; vp_height := num 2000;
                    deviceScaleFactor := num 1 |};
     imageWidths := measured 320 11 |}.

(** Step 2 on the page whose image is gone from 325 pixels on. *)
Definition gone_end : world number :=
  {| disk := a_disk; read_only := ∅; written := ∅;
     console :=
       [ Couldnt_load_page the_url
           (TypeError "Cannot read property 'width' of null") ];
     browser_open := false; page := num 325;
     VIEWPORT := {| vp_width := num 325; vp_height := num 2000;
                    deviceScaleFactor := num 1 |};
     imageWidths := measured 320 5 |}.

(** Step 2 of the run from 320.5 pixels on. *)
Definition fractional_end : world number :=
  {| disk := a_disk; read_only := ∅; written := ∅; console := [];
     browser_open := false; page := Fin (Q2Qc (659 # 2));
     VIEWPORT := {| vp_width := Fin (Q2Qc (661 # 2)); vp_height := num 2000;
                    deviceScaleFactor := num 1 |};
     imageWidths := measured_halves 320 10 |}.

(** Step 2 of the run that tells what it does, to a file or a pipe. *)
Definition piped_end : world number :=
  {| disk := a_disk; read_only := ∅; written := ∅;
     console :=
       [ Step_banner 2; Launch_headless_Chrome; Go_to the_url;
         Checking_widths "img"; Current_viewport (num 320);
         Couldnt_load_page the_url
           (TypeError "process.stdout.clearLine is not a function") ];
     browser_open := false; page := num 320;
     VIEWPORT := {| vp_width := num 321; vp_height := num 2000;
                    deviceScaleFactor := num 1 |};
     imageWidths := measured 320 1 |}.

(** The perfect widths of the selection scenario: 100, 200 and 400 pixels
    with half, three tenths and a fifth of the views. *)
Definition scenario_buckets : list bucket :=
  [ {| width := num 100; percentage := dec 1 2 |};
    {| width := num 200; percentage := dec 3 10 |};
    {| width := num 400; percentage := dec 1 5 |} ].

(** ** The script *)

Section Script.

(** [csv_records] is csv-parse reading a text into its records of the
    three columns, [None] when it throws. *)
Context (csv_records : string → option (list (string * string * string))).
Context {Page : Type} {host : Host Page}.

Local Abbreviation IO := (M (world Page)).

(** [console.log], [console.dir] and [process.stdout.write] *)
Definition console_log (l : console_line) : IO unit :=
  modify (set_console (λ c, c ++ [l])).

(** [if (argv.verbose) { console.log(...) }] *)
Definition verbose_log (argv : Argv) (l : console_line) : IO unit :=
  if verbose argv then console_log l else mret tt.

(** [process.stdout.clearLine()] and [process.stdout.cursorTo(0)]: a
    stream that is not a terminal has no such method, and the call is a
    TypeError. *)
Definition clearLine : IO unit := λ w,
  if stdout_isTTY then console_log Clear_line w
  else Thrown (TypeError "process.stdout.clearLine is not a function") w.

Definition cursorTo_0 : IO unit := λ w,
  if stdout_isTTY then console_log Cursor_to_0 w
  else Thrown (TypeError "process.stdout.cursorTo is not a function") w.

(** [fs.readFileSync(path, 'utf8')] *)
Definition readFileSync (path : string) : IO string := λ w,
  match disk w !! path with
  | Some text => Ok text w
  | None => Thrown (LibraryError "ENOENT") w
  end.

(** [writeFile(path, data)] *)
Definition writeFile (path : string) (data : file_data) : IO unit := λ w,
  if decide (path ∈ read_only w) then Thrown (LibraryError "EACCES") w
  else Ok tt (set_written <[path := data]> w).

(** *** Step 1: the contexts of the visitors *)

(** The [cast] option: one field of the column named [column]. *)
Definition cast (value : string) (column : string) : number :=
  if String.eqb column "density" then parseFloat value
  else parseInt value.

Definition cast_record (r : string * string * string) : context :=
  let '(a, b, c) := r in
  Ctx (cast a "viewport") (cast b "density") (cast c "views").

(** [csvparse(text, {columns, from, cast})]: the records from number
    [from] on, counted from 1. *)
Definition csvparse (text : string) (from : nat) : IO (list context) :=
  match csv_records text with
  | Some records => mret (cast_record <$> drop (from - 1) records)
  | None => throw (LibraryError "csv-parse")
  end.

Definition csvHasHeader (contextsCsv : string) : option nat :=
  String_match_letter contextsCsv.

Definition contexts_of (contextsCsv : string) : IO (list context) :=
  csvparse contextsCsv (if truthy (csvHasHeader contextsCsv) then 2 else 1).

(** [contexts[0].viewport] *)
Definition first_viewport (contexts : list context) : IO number :=
  match contexts with
  | c :: _ => mret (viewport c)
  | [] => throw (TypeError "Cannot read property 'viewport' of undefined")
  end.

Definition contextMinViewport (contexts : list context) (init : number)
  : number :=
  fold_left (λ min p, if num_ltb (viewport p) min then viewport p else min)
    contexts init.

Definition contextMaxViewport (contexts : list context) (init : number)
  : number :=
  fold_left (λ max p, if num_gtb (viewport p) max then viewport p else max)
    contexts init.

Definition minViewport (argv : Argv) (contextMin : number) : number :=
  match minviewport argv with
  | Some lo => Math_max contextMin lo
  | None => contextMin
  end.

Definition maxViewport (argv : Argv) (contextMax : number) : number :=
  match maxviewport argv with
  | Some hi => Math_min contextMax hi
  | None => contextMax
  end.

(** Step 1 as a whole: the contexts and the range of viewports that will
    be considered. *)
Definition step1 (argv : Argv) : IO (list context * number * number) :=
  verbose_log argv (Step_banner 1);;
  contextsCsv ← readFileSync (contextsfile argv);
  contexts ← contexts_of contextsCsv;
  verbose_log argv (Imported_lines (length contexts));;
  first ← first_viewport contexts;
  let contextMin := contextMinViewport contexts first in
  let contextMax := contextMaxViewport contexts first in
  verbose_log argv (Viewports_in_context contextMin contextMax);;
  let minV := minViewport argv contextMin in
  let maxV := maxViewport argv contextMax in
  verbose_log argv (Viewports_considered minV maxV);;
  mret (contexts, minV, maxV).

(** *** Step 2: the variations of the image width *)

(** [puppeteer.launch()] *)
Definition launch : IO unit := λ w,
  match puppeteer_launch with
  | None => Ok tt (set_browser_open true w)
  | Some e => Thrown e w
  end.

(** [browser.newPage()] *)
Definition newPage : IO unit := λ w,
  match browser_newPage with
  | inr p => Ok tt (set_page p w)
  | inl e => Thrown e w
  end.

(** [page.goto(url, ...)] *)
Definition goto (u : string) : IO unit := λ w,
  match page_goto (page w) u with
  | inr p => Ok tt (set_page p w)
  | inl e => Thrown e w
  end.

(** [page.setViewport(VIEWPORT)] *)
Definition setViewport : IO unit := λ w,
  match page_setViewport (page w) (VIEWPORT w) with
  | inr p => Ok tt (set_page p w)
  | inl e => Thrown e w
  end.

(** [sleep(ms)] *)
Definition sleep (ms : number) : IO unit :=
  modify (λ w, set_page (page_sleep (page w) ms) w).

(** [page.evaluate(sel => document.querySelector(sel).width, sel)] *)
Definition evaluate_width (sel : string) : IO number := λ w,
  match page_evaluate_width (page w) sel with
  | inr x => Ok x w
  | inl e => Thrown e w
  end.

(** [page.browser().close()] *)
Definition close : IO unit := λ w,
  match browser_close with
  | None => Ok tt (set_browser_open false w)
  | Some e => Thrown e w
  end.

(** One turn of the loop: resize, wait, measure, record, increment, and
    under [--verbose] rewrite the line that shows the width. *)
Definition measure (argv : Argv) (maxV : number) : IO unit :=
  setViewport;;
  sleep (delay argv);;
  imageWidth ← evaluate_width (selector argv);
  modify (λ w, set_imageWidths <[vp_width (VIEWPORT w) := imageWidth]> w);;
  modify (λ w,
    set_VIEWPORT
      {| vp_width := num_add (vp_width (VIEWPORT w)) (num 1);
         vp_height := vp_height (VIEWPORT w);
         deviceScaleFactor := deviceScaleFactor (VIEWPORT w) |} w);;
  if verbose argv then
    clearLine;;
    cursorTo_0;;
    width ← gets (λ w, vp_width (VIEWPORT w));
    if num_leb width maxV then console_log (Current_viewport width)
    else mret tt
  else mret tt.

(** [while (VIEWPORT.width <= maxViewport) { ... }] *)
Fixpoint measure_loop (fuel : nat) (argv : Argv) (maxV : number)
  : IO unit :=
  match fuel with
  | O => λ _, Hung
  | S fuel' => λ w,
      if num_leb (vp_width (VIEWPORT w)) maxV
      then (measure argv maxV;; measure_loop fuel' argv maxV) w
      else Ok tt w
  end.

(** The turns given to the loop between two finite bounds: one per unit
    of the range, one for the test that ends the loop, and two to spare.
    [Hung] stands for a loop that has not ended by then.  Between integer
    bounds from -2^53 to 2^53 - 1 the loop ends within these turns; from
    the width 2^53 on, adding 1 leaves a width as it is, and no number of
    turns ends the loop.  With a bound that is not a finite number the
    loop stops at its first test, or never does. *)
Definition loop_fuel (minV maxV : number) : nat :=
  match minV, maxV with
  | Fin a, Fin b => S (Z.to_nat (Qfloor (b - a)%Qc + 3))
  | _, _ => 1
  end.

(** The two lines of [--verbose] before the loop. *)
Definition announce (argv : Argv) : IO unit :=
  if verbose argv then
    console_log (Checking_widths (selector argv));;
    width ← gets (λ w, vp_width (VIEWPORT w));
    console_log (Current_viewport width)
  else mret tt.

(** [// Save data into the CSV file]: the rows are those of
    [imageWidths.map], and a failure to write is caught and printed. *)
Definition save_variations (argv : Argv) : IO unit :=
  match given (variationsfile argv) with
  | Some f =>
      rows ← gets (λ w, Array_entries (imageWidths w));
      catch (writeFile f (VariationsCsv rows);;
             verbose_log argv (Variations_saved f))
            (λ e, console_log (Couldnt_save_variations f e))
  | None => mret tt
  end.

(** [// Output clean table to the console] *)
Definition output_table (argv : Argv) : IO unit :=
  if verbose argv then
    rows ← gets (λ w, Array_entries (imageWidths w));
    console_log (Widths_table rows)
  else mret tt.

(** The callback of [page.goto(...).then]: the loop, then the optional
    variations file, then under [--verbose] the table of the widths. *)
Definition measure_all (argv : Argv) (minV maxV : number) : IO unit :=
  announce argv;;
  measure_loop (loop_fuel minV maxV) argv maxV;;
  save_variations argv;;
  output_table argv.

(** The promise that [.catch] is attached to: the page load, then its
    callback. *)
Definition profiling (argv : Argv) (minV maxV : number) : IO unit :=
  goto (url argv);; measure_all argv minV maxV.

(** [VIEWPORT], [imageWidths], the browser and its page, before the page
    load: nothing catches what [launch] and [newPage] reject with. *)
Definition prepare (argv : Argv) (minV : number) : IO unit :=
  verbose_log argv (Step_banner 2);;
  modify (set_VIEWPORT
    {| vp_width := minV; vp_height := num 2000; deviceScaleFactor := num 1 |});;
  modify (set_imageWidths (λ _, ∅));;
  verbose_log argv Launch_headless_Chrome;;
  launch;;
  newPage;;
  verbose_log argv (Go_to (url argv)).

Definition step2 (argv : Argv) (minV maxV : number) : IO unit :=
  prepare argv minV;;
  catch (profiling argv minV maxV)
        (λ e, console_log (Couldnt_load_page (url argv) e));;
  close.

(** *** Step 3: the perfect widths *)

(** The test on a context in the loop over [contexts]. *)
Definition considered (minV maxV : number) (value : context) : bool :=
  num_geb (viewport value) minV && num_leb (viewport value) maxV.

(** [Math.ceil(imageWidths[value.viewport] * value.density)] *)
Definition perfectWidth (imgWidths : gmap number number) (value : context)
  : number :=
  Math_ceil (num_mul (to_number (imgWidths !! viewport value)) (density value)).

(** The callback of [contexts.map], on the pair of [perfectWidthsTemp]
    and [totalViews]. *)
Definition count_views (imgWidths : gmap number number) (minV maxV : number)
  (acc : gmap number number * number) (value : context)
  : gmap number number * number :=
  let '(perfectWidthsTemp, totalViews) := acc in
  if considered minV maxV value then
    let pw := perfectWidth imgWidths value in
    let temp :=
      match perfectWidthsTemp !! pw with
      | None => <[pw := num 0]> perfectWidthsTemp
      | Some _ => perfectWidthsTemp
      end in
    (<[pw := num_add (to_number (temp !! pw)) (views value)]> temp,
     num_add totalViews (views value))
  else acc.

Definition perfectWidthsTemp_totalViews (imgWidths : gmap number number)
  (minV maxV : number) (contexts : list context)
  : gmap number number * number :=
  fold_left (count_views imgWidths minV maxV) contexts (∅, num 0).

(** The array without holes, before it is sorted. *)
Definition perfectWidths_unsorted (temp_total : gmap number number * number)
  : list bucket :=
  (λ iv, {| width := iv.1; percentage := num_div iv.2 temp_total.2 |})
    <$> Array_entries temp_total.1.

(** The comparison function of the sort. *)
Definition by_percentage (a b : bucket) : number :=
  num_sub (percentage b) (percentage a).

Definition perfectWidths (imgWidths : gmap number number)
  (minV maxV : number) (contexts : list context) : list bucket :=
  Array_sort by_percentage
    (perfectWidths_unsorted
       (perfectWidthsTemp_totalViews imgWidths minV maxV contexts)).

(** The best widths: the source has [// todo] and the empty array here. *)
Definition srcset (perfect : list bucket) (n : number) : list number := [].

Definition step3 (argv : Argv) (contexts : list context) (minV maxV : number)
  : IO unit :=
  verbose_log argv (Step_banner 3);;
  verbose_log argv Compute_all_perfect_widths;;
  unsorted ← gets (λ w,
    perfectWidths_unsorted
      (perfectWidthsTemp_totalViews (imageWidths w) minV maxV contexts));
  verbose_log argv (Perfect_widths_computed (length unsorted));;
  verbose_log argv (Dir_perfectWidths unsorted);;
  verbose_log argv Sort_by_percentage;;
  perfect ← gets (λ w, perfectWidths (imageWidths w) minV maxV contexts);
  console_log (Dir_perfectWidths perfect);;
  verbose_log argv (Find_best_widths (widthsnumber argv));;
  verbose_log argv (Dir_srcset (srcset perfect (widthsnumber argv)));;
  match given (destfile argv) with
  | Some f =>
      catch (writeFile f
               (SrcsetTxt (url argv) (selector argv)
                  (srcset perfect (widthsnumber argv)));;
             verbose_log argv (Data_saved f))
            (λ e, console_log (Couldnt_save_data f e))
  | None => mret tt
  end.

(** The whole script. *)
Definition main (argv : Argv) : IO unit :=
  '(contexts, minV, maxV) ← step1 argv;
  step2 argv minV maxV;;
  step3 argv contexts minV maxV.

(** *** Notions used to state the properties *)

(** The contexts that pass the test of step 3. *)
Definition considered_contexts (minV maxV : number) (contexts : list context)
  : list context :=
  filter (λ c, considered minV maxV c) contexts.

(** The views of a list of contexts, added up in order from 0. *)
Definition sum_views (l : list context) : number :=
  fold_left (λ s c, num_add s (views c)) l (num 0).

(** The contexts whose perfect width is [k]. *)
Definition with_perfectWidth (imgWidths : gmap number number) (k : number)
  (l : list context) : list context :=
  filter (λ c, perfectWidth imgWidths c = k) l.

(** The views counted for the perfect width [k], if any context has it. *)
Definition views_at (imgWidths : gmap number number) (k : number)
  (l : list context) : option number :=
  match with_perfectWidth imgWidths k l with
  | [] => None
  | l' => Some (sum_views l')
  end.

(** The percentages of a list of buckets, added up in order from 0. *)
Definition sum_percentages (l : list bucket) : number :=
  fold_left (λ s b, num_add s (percentage b)) l (num 0).

(** Buckets in increasing order of width. *)
Definition width_le (a b : bucket) : Prop :=
  num_leb (width a) (width b).

(** Buckets in decreasing order of percentage. *)
Definition percentage_ge (a b : bucket) : Prop :=
  num_geb (percentage a) (percentage b).

(** The viewport of the loop at the integer width [a]. *)
Definition viewport_at (a : Z) : Viewport :=
  {| vp_width := num a; vp_height := num 2000; deviceScaleFactor := num 1 |}.

(** The page once it is resized to the integer width [a] and left to
    settle, when the resize succeeds. *)
Definition page_resized (argv : Argv) (p : Page) (a : Z) : option Page :=
  match page_setViewport p (viewport_at a) with
  | inr p' => Some (page_sleep p' (delay argv))
  | inl _ => None
  end.

(** The page on which the width is measured at the width [a + n], in the
    loop that starts on the page [p] at the integer width [a], when every
    resize up to there succeeds. *)
Fixpoint page_at (argv : Argv) (p : Page) (a : Z) (n : nat) : option Page :=
  match n with
  | O => page_resized argv p a
  | S n' => p' ← page_resized argv p a; page_at argv p' (a + 1) n'
  end.

(** The width of the viewport after [i] turns of the loop that starts at
    [minV]: 1 is added [i] times, each sum rounded to a double. *)
Definition width_after (minV : number) (i : nat) : number :=
  Nat.iter i (λ x, num_add x (num 1)) minV.

Definition has_ascii_letter (s : string) : Prop :=
  ∃ i c, String.get i s = Some c ∧ is_ascii_letter c.

(** The rational of a finite number. *)
Definition fin_part (x : number) : Qc :=
  match x with Fin q => q | _ => 0%Qc end.

Definition qsum (l : list Qc) : Qc := foldr Qcplus 0%Qc l.

(** A multiple of the least positive double, 2^-1074, as every double
    is. *)
Definition on_grid (q : Qc) : Prop :=
  ∃ k : Z, (q == inject_Z k * 2 ^ (-1074))%Q.

(** A whole number of views: an integer that is not negative. *)
Definition is_whole (v : number) : bool :=
  match v with
  | Fin q => bool_decide (Qc_of_Z (Qfloor q) = q) && bool_decide (0 ≤ q)%Qc
  | _ => false
  end.

Definition zsum (l : list Z) : Z := foldr Z.add 0 l.

(** The views of a list of contexts, added up exactly. *)
Definition views_total (l : list context) : Z :=
  zsum ((λ c, Qfloor (fin_part (views c))) <$> l).

(** A state once the lines [ls] are printed under [--verbose]. *)
Definition said (argv : Argv) (ls : list console_line) (w : world Page)
  : world Page :=
  if verbose argv then set_console (λ c, c ++ ls) w else w.

(** The state that [prepare] leaves when the browser starts and gives the
    page [p]. *)
Definition prepared (argv : Argv) (minV : number) (p : Page) (w : world Page)
  : world Page :=
  set_page p
    (set_browser_open true
       (set_imageWidths (λ _, ∅)
          (set_VIEWPORT
             {| vp_width := minV; vp_height := num 2000;
                deviceScaleFactor := num 1 |}
             (said argv
                [Step_banner 2; Launch_headless_Chrome; Go_to (url argv)]
                w)))).

(** Lines of [--verbose]: none of them reports an error, and there is
    none without the option. *)
Definition progress_lines (argv : Argv) (ls : list console_line) : Prop :=
  errors ls = [] ∧ (verbose argv = false → ls = []).

(** Between two states the files are the same, and the console has only
    grown, by lines of [--verbose]. *)
Definition quiet (argv : Argv) (w w' : world Page) : Prop :=
  disk w' = disk w ∧ read_only w' = read_only w ∧ written w' = written w
  ∧ ∃ ls, console w' = console w ++ ls ∧ progress_lines argv ls.

(** The integers that doubles count one by one: from -2^53 to 2^53. *)
Definition safe_integer (z : Z) : Prop := - 2 ^ 53 ≤ z ≤ 2 ^ 53.

(** *** The histogram as the specification words it *)






(** *** The checks on the options

    The function given to yargs' [check]: it runs before the body of the
    script, and the script does not start when it throws.  The messages are
    coloured texts; each one is modelled by a name. *)

Inductive check_error : Type :=
  | minviewport_not_a_number
  | minviewport_negative
  | maxviewport_not_a_number
  | maxviewport_below_minviewport
  | delay_not_a_number
  | delay_negative
  | variationsfile_exists
  | widthsnumber_not_a_number
  | destfile_exists
  | no_output.

#[global] Instance check_error_eq_dec : EqDecision check_error.
Proof. solve_decision. Defined.

(** [isNaN(x)] *)
Definition isNaN (x : number) : bool :=
  match x with NaN => true | _ => false end.

(** [x !== undefined && isNaN(x)] *)
Definition defined_isNaN (o : option number) : bool :=
  match o with Some x => isNaN x | None => false end.

(** [fs.existsSync(path)] *)
Definition existsSync (path : string) (w : world Page) : bool :=
  bool_decide (is_Some (disk w !! path) ∨ is_Some (written w !! path)).

(** [f && fs.existsSync(f)] *)
Definition given_exists (o : option string) (w : world Page) : bool :=
  match given o with Some f => existsSync f w | None => false end.

Definition check (argv : Argv) (w : world Page) : option check_error :=
  if defined_isNaN (minviewport argv) then Some minviewport_not_a_number
  else if num_ltb (to_number (minviewport argv)) (num 0)
  then Some minviewport_negative
  else if defined_isNaN (maxviewport argv) then Some maxviewport_not_a_number
  else if num_ltb (to_number (maxviewport argv)) (to_number (minviewport argv))
  then Some maxviewport_below_minviewport
  else if isNaN (delay argv) then Some delay_not_a_number
  else if num_ltb (delay argv) (num 0) then Some delay_negative
  else if given_exists (variationsfile argv) w then Some variationsfile_exists
  else if isNaN (widthsnumber argv) then Some widthsnumber_not_a_number
  else if given_exists (destfile argv) w then Some destfile_exists
  else if negb (bool_decide (is_Some (given (destfile argv))))
          && negb (verbose argv)
  then Some no_output
  else None.

(** The script from the command line: the checks, then the body. *)
Definition script (argv : Argv) (w : world Page)
  : check_error + result (world Page) unit :=
  match check argv w with
  | Some e => inl e
  | None => inr (main argv w)
  end.

(** A number that is an integer. *)
Definition is_integer (x : number) : Prop := ∃ z : Z, x = num z.

(** The test of step 3 against the bounds given on the command line. *)
Definition within_options (argv : Argv) (v : number) : bool :=
  match minviewport argv with Some lo => num_geb v lo | None => true end
  && match maxviewport argv with Some hi => num_leb v hi | None => true end.

(** What the options and the files are like when the checks pass. *)
Definition options_accepted (argv : Argv) (w : world Page) : Prop :=
  (∀ lo, minviewport argv = Some lo → num_leb (num 0) lo)
  ∧ (∀ hi, maxviewport argv = Some hi → hi ≠ NaN)
  ∧ (∀ lo hi, minviewport argv = Some lo → maxviewport argv = Some hi →
              num_leb lo hi)
  ∧ num_leb (num 0) (delay argv)
  ∧ widthsnumber argv ≠ NaN
  ∧ (∀ f, given (variationsfile argv) = Some f →
          disk w !! f = None ∧ written w !! f = None)
  ∧ (∀ f, given (destfile argv) = Some f →
          disk w !! f = None ∧ written w !! f = None)
  ∧ (is_Some (given (destfile argv)) ∨ verbose argv).

(** * Properties

    ** Rounding to a double *)

Lemma pow2_pos (e : Z) : (0 < 2 ^ e)%Q.
Proof using. by apply Qpower_0_lt. Qed.

Lemma pow2_plus (a b : Z) : (2 ^ (a + b) == 2 ^ a * 2 ^ b)%Q.
Proof using. by apply Qpower_plus. Qed.

Lemma pow2_succ (a : Z) : (2 ^ (a + 1) == 2 * 2 ^ a)%Q.
Proof using. rewrite pow2_plus. change (2 ^ 1)%Q with 2%Q. ring. Qed.

Lemma pow2_inject (a : Z) : 0 ≤ a → (inject_Z (2 ^ a) == 2 ^ a)%Q.
Proof using. intros Ha. by rewrite Zpower_Qpower. Qed.

Lemma pow2_le (a b : Z) : a ≤ b → (2 ^ a <= 2 ^ b)%Q.
Proof using. intros H. by apply Qpower_le_compat_l. Qed.

Lemma pow2_lt (a b : Z) : a < b → (2 ^ a < 2 ^ b)%Q.
Proof using. intros H. by apply Qpower_lt_compat_l. Qed.

Lemma Qlog2_spec (q : Q) :
  (0 < q)%Q → (2 ^ Qlog2 q <= q)%Q ∧ (q < 2 ^ (Qlog2 q + 1))%Q.
Proof using.
  intros Hq. destruct q as [n d]. unfold Qlog2. cbn [Qnum Qden].
  assert (0 < n) as Hn by (unfold Qlt in Hq; simpl in Hq; lia).
  destruct (Z.log2_spec n Hn) as [Hn1 Hn2].
  destruct (Z.log2_spec (Z.pos d) (Pos2Z.is_pos d)) as [Hd1 Hd2].
  pose proof (Z.log2_nonneg n) as Ha. pose proof (Z.log2_nonneg (Z.pos d)) as Hb.
  set (a := Z.log2 n) in *. set (b := Z.log2 (Z.pos d)) in *.
  rewrite <- Z.add_1_r in Hn2, Hd2.
  pose proof Hn1 as Hn1'. pose proof Hd1 as Hd1'.
  rewrite Zle_Qle in Hn1'. rewrite Zle_Qle in Hd1'.
  assert (inject_Z n < 2 ^ (a + 1))%Q as Hn2'.
  { rewrite <- pow2_inject by lia. by rewrite <- Zlt_Qlt. }
  assert (inject_Z (Z.pos d) < 2 ^ (b + 1))%Q as Hd2'.
  { rewrite <- pow2_inject by lia. by rewrite <- Zlt_Qlt. }
  rewrite pow2_inject in Hn1', Hd1' by lia.
  rewrite pow2_succ in Hn2', Hd2'.
  assert (n # d == inject_Z n / inject_Z (Z.pos d))%Q as Hq'
    by apply Qmake_Qdiv.
  assert (0 < inject_Z (Z.pos d))%Q as Hdpos
    by (change 0%Q with (inject_Z 0); rewrite <- Zlt_Qlt; lia).
  assert ((n # d) * inject_Z (Z.pos d) == inject_Z n)%Q as Hnd.
  { rewrite Hq'. field. lra. }
  pose proof (pow2_pos a) as HA. pose proof (pow2_pos b) as HB.
  assert (2 ^ (a - b) * 2 ^ b == 2 ^ a)%Q as Hl.
  { rewrite <- pow2_plus. by replace (a - b + b) with a by lia. }
  pose proof (pow2_pos (a - b)) as HL.
  set (N := inject_Z n) in *. set (D := inject_Z (Z.pos d)) in *.
  set (x := (n # d)%Q) in *.
  set (A := (2 ^ a)%Q) in *. set (B := (2 ^ b)%Q) in *.
  destruct (Qle_bool (2 ^ (a - b)) x) eqn:Hc.
  - apply Qle_bool_iff in Hc. split; [done|].
    rewrite pow2_succ. set (L := (2 ^ (a - b))%Q) in *. nra.
  - assert (x < 2 ^ (a - b))%Q as Hlt.
    { apply Qnot_le_lt. intros Hle. apply Qle_bool_iff in Hle. congruence. }
    replace (a - b - 1 + 1) with (a - b) by lia. split; [|done].
    assert (2 * 2 ^ (a - b - 1) == 2 ^ (a - b))%Q as Hl'.
    { rewrite <- pow2_succ. by replace (a - b - 1 + 1) with (a - b) by lia. }
    pose proof (pow2_pos (a - b - 1)) as HL'.
    set (L := (2 ^ (a - b))%Q) in *. set (L' := (2 ^ (a - b - 1))%Q) in *.
    nra.
Qed.

Lemma Qlog2_unique (q : Q) (l : Z) :
  (2 ^ l <= q)%Q → (q < 2 ^ (l + 1))%Q → Qlog2 q = l.
Proof using.
  intros H1 H2.
  assert (0 < q)%Q as Hq by (pose proof (pow2_pos l); lra).
  destruct (Qlog2_spec q Hq) as [H3 H4].
  assert (Qlog2 q < l + 1).
  { apply (Qpower_lt_compat_l_inv 2); [|done]. lra. }
  assert (l < Qlog2 q + 1).
  { apply (Qpower_lt_compat_l_inv 2); [|done]. lra. }
  lia.
Qed.

Lemma Qlog2_comp (q q' : Q) : (0 < q)%Q → (q == q')%Q → Qlog2 q = Qlog2 q'.
Proof using.
  intros Hq Heq. destruct (Qlog2_spec q Hq) as [H1 H2].
  symmetry. apply Qlog2_unique; by rewrite <- Heq.
Qed.

Lemma round_half_even_comp (q q' : Q) :
  (q == q')%Q → round_half_even q = round_half_even q'.
Proof using.
  intros Heq. unfold round_half_even. rewrite (Qfloor_comp _ _ Heq).
  assert (q - inject_Z (Qfloor q') == q' - inject_Z (Qfloor q'))%Q as ->
    by (by rewrite Heq).
  done.
Qed.

Lemma round_half_even_Z (z : Z) : round_half_even (inject_Z z) = z.
Proof using.
  unfold round_half_even. rewrite Qfloor_Z.
  assert (inject_Z z - inject_Z z < 1 # 2)%Q as Hlt by lra.
  by rewrite (proj1 (Qlt_alt _ _) Hlt).
Qed.

Lemma round_half_even_near (q : Q) :
  (q - (1 # 2) <= inject_Z (round_half_even q))%Q
  ∧ (inject_Z (round_half_even q) <= q + (1 # 2))%Q.
Proof using.
  unfold round_half_even.
  pose proof (Qfloor_le q) as Hf. pose proof (Qlt_floor q) as Hc.
  rewrite inject_Z_plus in Hc. change (inject_Z 1) with 1%Q in Hc.
  destruct (q - inject_Z (Qfloor q) ?= 1 # 2)%Q eqn:Hcmp.
  - apply (proj2 (Qeq_alt _ _)) in Hcmp.
    destruct (Z.even (Qfloor q));
      rewrite ?inject_Z_plus; change (inject_Z 1) with 1%Q; lra.
  - apply (proj2 (Qlt_alt _ _)) in Hcmp. lra.
  - apply (proj2 (Qgt_alt _ _)) in Hcmp.
    rewrite inject_Z_plus. change (inject_Z 1) with 1%Q. lra.
Qed.

Lemma round_half_even_ge (q : Q) (a : Z) :
  (inject_Z a <= q)%Q → a ≤ round_half_even q.
Proof using.
  intros Ha. apply Qfloor_resp_le in Ha. rewrite Qfloor_Z in Ha.
  unfold round_half_even.
  destruct (q - inject_Z (Qfloor q) ?= 1 # 2)%Q; [|lia..].
  destruct (Z.even (Qfloor q)); lia.
Qed.

Lemma round_half_even_le (q : Q) (b : Z) :
  (q <= inject_Z b)%Q → round_half_even q ≤ b.
Proof using.
  intros Hb. pose proof (Qfloor_le q) as Hf.
  apply Qfloor_resp_le in Hb as Hb'. rewrite Qfloor_Z in Hb'.
  unfold round_half_even.
  destruct (Z.eq_dec (Qfloor q) b) as [Heq|Hne].
  - assert (q - inject_Z (Qfloor q) < 1 # 2)%Q as Hlt
      by (rewrite Heq in Hf |- *; lra).
    rewrite (proj1 (Qlt_alt _ _) Hlt). lia.
  - destruct (q - inject_Z (Qfloor q) ?= 1 # 2)%Q; [|lia..].
    destruct (Z.even (Qfloor q)); lia.
Qed.

(** The three facts that fix the exponent. *)
Lemma ulp_exp_spec (q : Q) :
  ¬ (q == 0)%Q →
  let e := ulp_exp q in
  -1074 ≤ e
  ∧ (Qabs q < 2 ^ (e + 53))%Q
  ∧ (e = -1074 ∨ (2 ^ (e + 52) <= Qabs q)%Q).
Proof using.
  intros Hq e. subst e. unfold ulp_exp.
  assert (0 < Qabs q)%Q as Hpos.
  { pose proof (Qabs_nonneg q) as H0.
    destruct (Qlt_le_dec 0 (Qabs q)) as [|Hle]; [done|].
    assert (Qabs q == 0)%Q as Hz by lra.
    apply Qabs_Qle_condition in Hle. exfalso. apply Hq. lra. }
  destruct (Qlog2_spec _ Hpos) as [H1 H2].
  set (L := Qlog2 (Qabs q)) in *.
  destruct (Z.max_spec (-1074) (L - 52)) as [[Hlt ->]|[Hge ->]].
  - split; [lia|]. split.
    + by replace (L - 52 + 53) with (L + 1) by lia.
    + right. by replace (L - 52 + 52) with L by lia.
  - split; [lia|]. split; [|by left].
    eapply Qlt_le_trans; [exact H2|]. apply pow2_le. lia.
Qed.

Lemma Qabs_inject_Z (z : Z) : (Qabs (inject_Z z) == inject_Z (Z.abs z))%Q.
Proof using. unfold inject_Z. by rewrite <- Zabs_Qabs. Qed.

Lemma Qdiv_pow2 (q : Q) (e : Z) : (q / 2 ^ e * 2 ^ e == q)%Q.
Proof using. field. pose proof (pow2_pos e). lra. Qed.

(** A number with 53 binary digits above 2^-1074 is its own rounding. *)
Lemma round_double_exact (q : Q) (m e' : Z) :
  (q == inject_Z m * 2 ^ e')%Q →
  Z.abs m < 2 ^ 53 → -1074 ≤ e' ≤ 971 →
  round_double q = Fin (Q2Qc q).
Proof using.
  intros Hq Hm He'. unfold round_double.
  destruct (Qeq_bool q 0) eqn:Hz.
  { apply Qeq_bool_iff in Hz. f_equal. apply Qc_is_canon. simpl.
    by rewrite Qred_correct, Hz. }
  apply Qeq_bool_neq in Hz.
  destruct (ulp_exp_spec q Hz) as (He1 & He2 & He3).
  set (e := ulp_exp q) in *.
  assert (Qabs q == inject_Z (Z.abs m) * 2 ^ e')%Q as Habs.
  { rewrite Hq, Qabs_Qmult, Qabs_inject_Z.
    by rewrite (Qabs_pos (2 ^ e')) by apply Qlt_le_weak, pow2_pos. }
  assert (inject_Z (Z.abs m) < 2 ^ 53)%Q as Hm'.
  { rewrite <- pow2_inject by lia. by rewrite <- Zlt_Qlt. }
  pose proof (pow2_pos e') as He'pos.
  assert (e ≤ e') as Hle.
  { destruct He3 as [->|He3]; [lia|].
    assert (2 ^ (e + 52) < 2 ^ (e' + 53))%Q as Hlt.
    { eapply Qle_lt_trans; [exact He3|]. rewrite Habs, pow2_plus.
      rewrite (Qmult_comm (2 ^ e')). apply Qmult_lt_compat_r; done. }
    apply Qpower_lt_compat_l_inv in Hlt; [lia|lra]. }
  assert (q / 2 ^ e == inject_Z (m * 2 ^ (e' - e)))%Q as Hint.
  { rewrite inject_Z_mult, pow2_inject by lia.
    rewrite Hq. replace e' with (e' - e + e) at 1 by lia.
    rewrite pow2_plus. field. pose proof (pow2_pos e). lra. }
  rewrite (round_half_even_comp _ _ Hint), round_half_even_Z.
  assert (inject_Z (m * 2 ^ (e' - e)) * 2 ^ e == q)%Q as Hr.
  { rewrite <- Hint. apply Qdiv_pow2. }
  assert (Qabs q < 2 ^ 1024)%Q as Hbound.
  { rewrite Habs. replace 1024 with (971 + 53) by lia. rewrite pow2_plus.
    pose proof (pow2_le e' 971 ltac:(lia)) as Hp.
    pose proof (pow2_pos 971). pose proof (pow2_pos 53).
    assert (0 <= inject_Z (Z.abs m))%Q
      by (change 0%Q with (inject_Z 0); rewrite <- Zle_Qle; lia).
    set (X := inject_Z (Z.abs m)) in *.
    set (P := (2 ^ e')%Q) in *. set (R := (2 ^ 971)%Q) in *.
    set (S := (2 ^ 53)%Q) in *. nra. }
  destruct (Qle_bool (2 ^ 1024) _) eqn:Hov.
  { apply Qle_bool_iff in Hov. rewrite Hr in Hov. lra. }
  f_equal. apply Qc_is_canon. simpl. by rewrite !Qred_correct.
Qed.

Lemma ulp_exp_comp (q q' : Q) :
  ¬ (q == 0)%Q → (q == q')%Q → ulp_exp q = ulp_exp q'.
Proof using.
  intros Hz Heq. unfold ulp_exp.
  f_equal. f_equal. apply Qlog2_comp; [|by rewrite Heq].
  pose proof (Qabs_nonneg q).
  destruct (Qlt_le_dec 0 (Qabs q)) as [|Hle]; [done|].
  apply Qabs_Qle_condition in Hle. exfalso. apply Hz. lra.
Qed.

Lemma round_double_comp (q q' : Q) :
  (q == q')%Q → round_double q = round_double q'.
Proof using.
  intros Heq. unfold round_double.
  assert (Qeq_bool q 0 = Qeq_bool q' 0) as Hb.
  { destruct (Qeq_bool q' 0) eqn:H'.
    - apply Qeq_bool_iff in H'. apply Qeq_bool_iff. by rewrite Heq.
    - apply Qeq_bool_neq in H'. destruct (Qeq_bool q 0) eqn:H; [|done].
      apply Qeq_bool_iff in H. exfalso. apply H'. by rewrite <- Heq. }
  rewrite <- Hb. destruct (Qeq_bool q 0) eqn:Hz; [done|].
  apply Qeq_bool_neq in Hz.
  rewrite <- (ulp_exp_comp _ _ Hz Heq).
  assert (round_half_even (q / 2 ^ ulp_exp q)
          = round_half_even (q' / 2 ^ ulp_exp q)) as ->
    by (apply round_half_even_comp, Qdiv_comp; [exact Heq|reflexivity]).
  set (r := (inject_Z _ * _)%Q).
  assert (Qle_bool 0 q = Qle_bool 0 q') as ->.
  { destruct (Qle_bool 0 q') eqn:H'.
    - apply Qle_bool_iff in H'. apply Qle_bool_iff. lra.
    - destruct (Qle_bool 0 q) eqn:H; [|done].
      apply Qle_bool_iff in H. assert (0 <= q')%Q as H2 by lra.
      apply Qle_bool_iff in H2. congruence. }
  done.
Qed.

(** The result is a multiple of 2^-1074. *)
Lemma round_double_grid (q : Q) (r : Qc) :
  round_double q = Fin r → ∃ k : Z, (r == inject_Z k * 2 ^ (-1074))%Q.
Proof using.
  unfold round_double. destruct (Qeq_bool q 0) eqn:Hz.
  { intros [= <-]. exists 0. symmetry. apply Qmult_0_l. }
  apply Qeq_bool_neq in Hz.
  destruct (ulp_exp_spec q Hz) as (He1 & _ & _).
  set (e := ulp_exp q) in *. set (n := round_half_even _).
  destruct (Qle_bool _ _); [by destruct (Qle_bool 0 q)|].
  intros [= <-]. exists (n * 2 ^ (e + 1074)). cbn [this Q2Qc]. rewrite Qred_correct.
  rewrite inject_Z_mult, pow2_inject by lia.
  assert (2 ^ e == 2 ^ (e + 1074) * 2 ^ (-1074))%Q as Hp.
  { rewrite <- pow2_plus. by replace (e + 1074 + -1074) with e by lia. }
  rewrite Hp. set (P := (2 ^ (e + 1074))%Q). set (U := (2 ^ (-1074))%Q).
  ring.
Qed.

(** Above the least positive double the result is positive. *)
Lemma round_double_pos (q : Q) :
  (2 ^ (-1074) <= q)%Q →
  round_double q = PInf ∨ ∃ r : Qc, round_double q = Fin r ∧ (0 < r)%Q.
Proof using.
  intros Hq. pose proof (pow2_pos (-1074)) as Hmin.
  unfold round_double. destruct (Qeq_bool q 0) eqn:Hz.
  { apply Qeq_bool_iff in Hz. lra. }
  apply Qeq_bool_neq in Hz.
  destruct (ulp_exp_spec q Hz) as (He1 & _ & He3).
  set (e := ulp_exp q) in *. pose proof (pow2_pos e) as He.
  rewrite (Qabs_pos q) in He3 by lra.
  assert (1 ≤ round_half_even (q / 2 ^ e)) as Hn.
  { apply round_half_even_ge. change (inject_Z 1) with 1%Q.
    apply Qle_shift_div_l; [done|]. destruct He3 as [->|He3]; [lra|].
    assert (2 ^ e <= 2 ^ (e + 52))%Q by (apply pow2_le; lia). lra. }
  set (n := round_half_even _) in *.
  assert (0 < inject_Z n * 2 ^ e)%Q as Hr.
  { apply Qmult_lt_0_compat; [|done].
    change 0%Q with (inject_Z 0). rewrite <- Zlt_Qlt. lia. }
  destruct (Qle_bool _ _).
  - assert (Qle_bool 0 q = true) as -> by (apply Qle_bool_iff; lra).
    by left.
  - right. eexists. split; [done|]. cbn [this Q2Qc]. by rewrite Qred_correct.
Qed.

Lemma round_double_neg (q : Q) :
  (q <= - 2 ^ (-1074))%Q →
  round_double q = NInf ∨ ∃ r : Qc, round_double q = Fin r ∧ (r < 0)%Q.
Proof using.
  intros Hq. pose proof (pow2_pos (-1074)) as Hmin.
  unfold round_double. destruct (Qeq_bool q 0) eqn:Hz.
  { apply Qeq_bool_iff in Hz. lra. }
  apply Qeq_bool_neq in Hz.
  destruct (ulp_exp_spec q Hz) as (He1 & _ & He3).
  set (e := ulp_exp q) in *. pose proof (pow2_pos e) as He.
  rewrite (Qabs_neg q) in He3 by lra.
  assert (round_half_even (q / 2 ^ e) ≤ -1) as Hn.
  { apply round_half_even_le. change (inject_Z (-1)) with (-1)%Q.
    apply Qle_shift_div_r; [done|]. destruct He3 as [->|He3]; [lra|].
    assert (2 ^ e <= 2 ^ (e + 52))%Q by (apply pow2_le; lia). lra. }
  set (n := round_half_even _) in *.
  assert (inject_Z n * 2 ^ e < 0)%Q as Hr.
  { assert (inject_Z n <= -1)%Q
      by (change (-1)%Q with (inject_Z (-1)); rewrite <- Zle_Qle; lia).
    set (N := inject_Z n) in *. set (P := (2 ^ e)%Q) in *. nra. }
  destruct (Qle_bool _ _).
  - assert (Qle_bool 0 q = false) as ->.
    { destruct (Qle_bool 0 q) eqn:H; [|done]. apply Qle_bool_iff in H. lra. }
    by left.
  - right. eexists. split; [done|]. cbn [this Q2Qc]. by rewrite Qred_correct.
Qed.

(** A quotient between 2^-1022 and 1 is rounded to a number between 0 and
    1, with a relative error of 2^-53 at most. *)
Lemma round_double_unit (q : Q) :
  (0 <= q)%Q → (q <= 1)%Q →
  ∃ r : Qc, round_double q = Fin r ∧ (0 <= r)%Q ∧ (r <= 1)%Q
            ∧ ((2 ^ (-1022) <= q)%Q →
               (Qabs (r - q) <= q * 2 ^ (-53))%Q).
Proof using.
  intros H0 H1. unfold round_double. destruct (Qeq_bool q 0) eqn:Hz.
  { apply Qeq_bool_iff in Hz. exists 0%Qc. split; [done|].
    split; [done|]. split; [done|]. intros Hlow.
    pose proof (pow2_pos (-1022)). lra. }
  apply Qeq_bool_neq in Hz.
  assert (0 < q)%Q as Hpos.
  { destruct (Qlt_le_dec 0 q) as [|Hle]; [done|]. exfalso. apply Hz. lra. }
  destruct (ulp_exp_spec q Hz) as (He1 & He2 & He3).
  set (e := ulp_exp q) in *. pose proof (pow2_pos e) as He.
  rewrite (Qabs_pos q) in He2, He3 by lra.
  assert (e < 0) as Hneg.
  { destruct He3 as [->|He3]; [lia|].
    assert (2 ^ (e + 52) < 2 ^ 1)%Q as Hlt
      by (change (2 ^ 1)%Q with 2%Q; lra).
    apply Qpower_lt_compat_l_inv in Hlt; [lia|lra]. }
  assert (2 ^ (- e) * 2 ^ e == 1)%Q as Hinv.
  { rewrite <- pow2_plus. by replace (- e + e) with 0 by lia. }
  pose proof (pow2_pos (- e)) as He'.
  assert (0 ≤ round_half_even (q / 2 ^ e)) as Hn0.
  { apply round_half_even_ge. change (inject_Z 0) with 0%Q.
    apply Qle_shift_div_l; [done|]. lra. }
  assert (round_half_even (q / 2 ^ e) ≤ 2 ^ (- e)) as Hn1.
  { apply round_half_even_le. rewrite pow2_inject by lia.
    apply Qle_shift_div_r; [done|]. lra. }
  destruct (round_half_even_near (q / 2 ^ e)) as [Hlo Hhi].
  pose proof (Qdiv_pow2 q e) as Hq.
  set (n := round_half_even _) in *. set (m := (q / 2 ^ e)%Q) in *.
  assert (0 <= inject_Z n)%Q as Hn0'
    by (change 0%Q with (inject_Z 0); rewrite <- Zle_Qle; lia).
  assert (inject_Z n <= 2 ^ (- e))%Q as Hn1'
    by (rewrite <- pow2_inject by lia; rewrite <- Zle_Qle; lia).
  assert (inject_Z n * 2 ^ e <= 1)%Q as Hr1.
  { set (N := inject_Z n) in *. set (P := (2 ^ e)%Q) in *.
    set (P' := (2 ^ (- e))%Q) in *. nra. }
  assert (0 <= inject_Z n * 2 ^ e)%Q as Hr0.
  { apply Qmult_le_0_compat; lra. }
  destruct (Qle_bool (2 ^ 1024) _) eqn:Hov.
  { apply Qle_bool_iff in Hov. rewrite Qabs_pos in Hov by done.
    assert (2 ^ 0 <= 2 ^ 1024)%Q by (apply pow2_le; lia).
    assert (1 < 2 ^ 1024)%Q by (apply (Qpower_1_lt 2); [lra|lia]). lra. }
  eexists. split; [done|]. cbn [this Q2Qc]. rewrite Qred_correct.
  split; [done|]. split; [done|]. intros Hlow.
  assert (2 ^ (e + 52) <= q)%Q as Hnorm.
  { destruct He3 as [He3|He3]; [|done]. rewrite He3.
    by change (-1074 + 52) with (-1022). }
  assert (2 ^ (e + 52) * 2 ^ (-53) * 2 == 2 ^ e)%Q as Hhalf.
  { change 2%Q with (2 ^ 1)%Q at 3. rewrite <- !pow2_plus.
    by replace (e + 52 + -53 + 1) with e by lia. }
  pose proof (pow2_pos (-53)) as H53. pose proof (pow2_pos (e + 52)) as H52.
  apply Qabs_Qle_condition.
  set (N := inject_Z n) in *. set (P := (2 ^ e)%Q) in *.
  set (U := (2 ^ (-53))%Q) in *. set (T := (2 ^ (e + 52))%Q) in *.
  assert (m * P == q)%Q as Hmq by exact Hq.
  split; nra.
Qed.

(** The integers from -2^53 to 2^53 are doubles. *)
Lemma round_double_Z (z : Z) :
  safe_integer z → round_double (inject_Z z) = num z.
Proof using.
  unfold safe_integer. intros Hz.
  assert (Fin (Q2Qc (inject_Z z)) = num z) as Hnum.
  { unfold num. f_equal. apply Qc_is_canon. cbn [this Q2Qc Qc_of_Z].
    by rewrite Qred_correct. }
  rewrite <- Hnum.
  destruct (decide (Z.abs z < 2 ^ 53)) as [Hlt|Hge].
  - apply (round_double_exact _ z 0); [|done|lia].
    change (2 ^ 0)%Q with 1%Q. ring.
  - assert (z = 2 ^ 53 ∨ z = - 2 ^ 53) as [->| ->] by lia.
    + apply (round_double_exact _ (2 ^ 52) 1); [|lia|lia].
      change (2 ^ 1)%Q with (inject_Z 2). rewrite <- inject_Z_mult.
      by change (2 ^ 52 * 2) with (2 ^ 53).
    + apply (round_double_exact _ (- 2 ^ 52) 1); [|lia|lia].
      change (2 ^ 1)%Q with (inject_Z 2). rewrite <- inject_Z_mult.
      by change (- 2 ^ 52 * 2) with (- 2 ^ 53).
Qed.

(** Sums of integers are exact up to 2^53. *)
Lemma num_add_num (a b : Z) :
  safe_integer (a + b) → num_add (num a) (num b) = num (a + b).
Proof using.
  intros Hab. unfold num at 1 2. unfold num_add.
  rewrite <- (round_double_Z _ Hab). apply round_double_comp.
  cbn [this Qc_of_Z]. by rewrite inject_Z_plus.
Qed.

(** So are sums of halves of integers up to 2^52. *)
Lemma num_add_half (z : Z) :
  Z.abs (z + 2) < 2 ^ 53 →
  num_add (Fin (Q2Qc (z # 2))) (num 1) = Fin (Q2Qc (z + 2 # 2)).
Proof using.
  intros Hz. unfold num, num_add.
  assert (Q2Qc (z # 2) + Qc_of_Z 1 == z + 2 # 2)%Q as Heq.
  { cbn [this Q2Qc Qc_of_Z]. rewrite Qred_correct.
    unfold Qeq, Qplus, inject_Z. cbn [Qnum Qden]. lia. }
  rewrite (round_double_comp _ _ Heq).
  apply (round_double_exact _ (z + 2) (-1)); [|done|lia].
  change (2 ^ (-1))%Q with (1 # 2)%Q.
  unfold Qeq, Qmult, inject_Z. cbn [Qnum Qden]. lia.
Qed.
(** ** Numbers *)

Lemma num_add_Fin (a b : Qc) :
  num_add (Fin a) (Fin b) = round_double (a + b).
Proof using. reflexivity. Qed.

Lemma num_div_Fin (a b : Qc) :
  b ≠ 0%Qc → num_div (Fin a) (Fin b) = round_double (a / b).
Proof using. intros Hb. unfold num_div. by destruct (decide (b = 0%Qc)). Qed.

Lemma num_add_1 (a : Z) :
  safe_integer (a + 1) → num_add (num a) (num 1) = num (a + 1).
Proof using. apply num_add_num. Qed.

Lemma num_leb_num (a b : Z) : num_leb (num a) (num b) = bool_decide (a ≤ b)%Z.
Proof using.
  unfold num_leb, num. apply bool_decide_ext. by rewrite <- Z2Qc_inj_le.
Qed.

Lemma num_inj (a b : Z) : num a = num b → a = b.
Proof using. intros H. apply Z2Qc_inj. exact (f_equal fin_part H). Qed.

Lemma is_finite_Fin (x : number) : is_finite x → x = Fin (fin_part x).
Proof using. by destruct x. Qed.

Lemma qsum_cons (x : Qc) (l : list Qc) : qsum (x :: l) = (x + qsum l)%Qc.
Proof using. reflexivity. Qed.

Lemma qsum_Permutation (l1 l2 : list Qc) : l1 ≡ₚ l2 → qsum l1 = qsum l2.
Proof using.
  induction 1 as [|x l1 l2 _ IH|x y l|l1 l2 l3 _ IH1 _ IH2]; simpl.
  - done.
  - by rewrite IH.
  - ring.
  - congruence.
Qed.

(** ** The fold of step 3 *)

Lemma sum_views_snoc (l : list context) (c : context) :
  sum_views (l ++ [c]) = num_add (sum_views l) (views c).
Proof using. unfold sum_views. by rewrite fold_left_app. Qed.

Lemma considered_contexts_snoc minV maxV l c :
  considered_contexts minV maxV (l ++ [c])
  = considered_contexts minV maxV l
    ++ (if considered minV maxV c then [c] else []).
Proof using.
  unfold considered_contexts. rewrite filter_app. f_equal.
  rewrite filter_cons, filter_nil.
  destruct (considered minV maxV c); by case_decide.
Qed.

Lemma views_at_snoc imgWidths k l c :
  views_at imgWidths k (l ++ [c])
  = if decide (perfectWidth imgWidths c = k)
    then Some (num_add (default (num 0) (views_at imgWidths k l)) (views c))
    else views_at imgWidths k l.
Proof using.
  unfold views_at, with_perfectWidth.
  rewrite filter_app, filter_cons, filter_nil.
  case_decide as Hk.
  - destruct (filter _ l) as [|c' l'] eqn:E; simpl; [done|].
    by rewrite app_comm_cons, sum_views_snoc.
  - by rewrite app_nil_r.
Qed.

(** What the fold leaves in [perfectWidthsTemp] and [totalViews]. *)
Lemma count_views_fold imgWidths minV maxV contexts :
  let inc := considered_contexts minV maxV contexts in
  let acc := perfectWidthsTemp_totalViews imgWidths minV maxV contexts in
  acc.2 = sum_views inc ∧ ∀ k, acc.1 !! k = views_at imgWidths k inc.
Proof using.
  unfold perfectWidthsTemp_totalViews.
  induction contexts as [|c l IH] using rev_ind; simpl.
  { split; [done|]. intros k. by rewrite lookup_empty. }
  rewrite fold_left_app, considered_contexts_snoc. simpl.
  destruct (fold_left _ l _) as [temp total] eqn:E; simpl in IH |- *.
  destruct IH as [IHt IHk].
  destruct (considered minV maxV c) eqn:Hc; simpl.
  2:{ rewrite app_nil_r. by split. }
  split.
  - by rewrite sum_views_snoc, IHt.
  - intros k. rewrite views_at_snoc.
    set (pw := perfectWidth imgWidths c).
    case_decide as Hk.
    + subst k. rewrite lookup_insert_eq. f_equal. f_equal.
      rewrite <- IHk.
      destruct (temp !! pw) as [v|] eqn:Hv; simpl.
      * by rewrite Hv.
      * by rewrite lookup_insert_eq.
    + rewrite lookup_insert_ne by done.
      destruct (temp !! pw); [|rewrite lookup_insert_ne by done]; apply IHk.
Qed.

(** ** The array without holes *)

Lemma Array_entries_Permutation (arr : gmap number number) :
  Array_entries arr ≡ₚ filter (λ kv, is_array_index kv.1) (map_to_list arr).
Proof using. apply merge_sort_Permutation. Qed.

Lemma elem_of_Array_entries (arr : gmap number number) k v :
  (k, v) ∈ Array_entries arr ↔ arr !! k = Some v ∧ is_array_index k.
Proof using.
  rewrite Array_entries_Permutation, list_elem_of_filter, elem_of_map_to_list.
  simpl. apply and_comm.
Qed.

#[local] Instance index_le_total : Total index_le.
Proof using. intros a b. unfold index_le. lia. Qed.

#[local] Instance index_le_trans : Transitive index_le.
Proof using. intros a b c. unfold index_le. lia. Qed.

Lemma array_index_num (k : number) :
  is_array_index k → k = num (index_of k).
Proof using.
  destruct k as [q| | |]; [|done..]. unfold is_array_index, num.
  rewrite !andb_True, !bool_decide_spec. intros [[Hq _] _]. simpl.
  by rewrite Hq.
Qed.

(** The elements come in increasing order of index. *)
Lemma Array_entries_ascending (arr : gmap number number) :
  StronglySorted (λ a b, num_leb a.1 b.1) (Array_entries arr).
Proof using.
  assert (Forall (λ kv, is_array_index kv.1) (Array_entries arr)) as Hidx.
  { apply Forall_forall. intros [k v] Hkv.
    rewrite Array_entries_Permutation in Hkv.
    by apply list_elem_of_filter in Hkv as [? _]. }
  pose proof (StronglySorted_merge_sort index_le
    (filter (λ kv, is_array_index kv.1) (map_to_list arr))) as Hs.
  fold (Array_entries arr) in Hs.
  induction Hs as [|a l _ IH Ha]; [constructor|].
  apply Forall_cons in Hidx as [Hia Hil].
  constructor; [by apply IH|].
  rewrite Forall_forall in Ha, Hil |- *. intros b Hb.
  rewrite (array_index_num a.1), (array_index_num b.1) by auto.
  rewrite num_leb_num. apply bool_decide_pack. by apply Ha.
Qed.

Lemma NoDup_Array_entries (arr : gmap number number) :
  NoDup ((Array_entries arr).*1).
Proof using.
  rewrite Array_entries_Permutation.
  eapply sublist_NoDup; [apply (NoDup_fst_map_to_list arr)|].
  apply fmap_sublist, sublist_filter.
Qed.

Lemma sort_insert_Permutation {A} (f : A → A → number) x l :
  sort_insert f x l ≡ₚ x :: l.
Proof using.
  induction l as [|y l IH]; cbn [sort_insert]; [done|].
  destruct (num_gtb (f x y) (num 0)); [|done].
  rewrite IH. apply Permutation_swap.
Qed.

Lemma Array_sort_Permutation {A} (f : A → A → number) l :
  Array_sort f l ≡ₚ l.
Proof using.
  induction l as [|x l IH]; simpl; [done|].
  by rewrite sort_insert_Permutation, IH.
Qed.

(** Before the sort the buckets are in increasing order of width. *)
Lemma perfectWidths_unsorted_ascending (acc : gmap number number * number) :
  StronglySorted width_le (perfectWidths_unsorted acc).
Proof using.
  unfold perfectWidths_unsorted.
  pose proof (Array_entries_ascending acc.1) as Hs.
  induction Hs as [|a l _ IH Ha]; [constructor|].
  rewrite fmap_cons. constructor; [done|].
  apply Forall_fmap. by apply (Forall_impl _ _ _ Ha).
Qed.

Lemma perfectWidths_Permutation imgWidths minV maxV contexts :
  perfectWidths imgWidths minV maxV contexts
  ≡ₚ perfectWidths_unsorted
       (perfectWidthsTemp_totalViews imgWidths minV maxV contexts).
Proof using. apply Array_sort_Permutation. Qed.

Lemma widths_unsorted (acc : gmap number number * number) :
  width <$> perfectWidths_unsorted acc = (Array_entries acc.1).*1.
Proof using. unfold perfectWidths_unsorted. by rewrite <- list_fmap_compose. Qed.

(** The buckets are the array elements of [perfectWidthsTemp], each
    divided by [totalViews]. *)
Lemma elem_of_perfectWidths imgWidths minV maxV contexts b :
  let inc := considered_contexts minV maxV contexts in
  b ∈ perfectWidths imgWidths minV maxV contexts
  ↔ is_array_index (width b)
    ∧ ∃ v, views_at imgWidths (width b) inc = Some v
           ∧ percentage b = num_div v (sum_views inc).
Proof using.
  intros inc. rewrite perfectWidths_Permutation.
  destruct (count_views_fold imgWidths minV maxV contexts) as [Ht Hk].
  fold inc in Ht, Hk. unfold perfectWidths_unsorted.
  rewrite list_elem_of_fmap. split.
  - intros ([k v] & -> & [Hv Hi]%elem_of_Array_entries). simpl.
    split; [done|]. exists v. by rewrite <- Hk, Ht.
  - intros [Hi (v & Hv & Hp)]. exists (width b, v). split.
    + destruct b as [k p]. simpl in Hi, Hv, Hp |- *. by rewrite Ht, Hp.
    + apply elem_of_Array_entries. by rewrite Hk.
Qed.

Lemma views_at_Some imgWidths k l v :
  views_at imgWidths k l = Some v
  ↔ v = sum_views (with_perfectWidth imgWidths k l)
    ∧ ∃ c, c ∈ l ∧ perfectWidth imgWidths c = k.
Proof using.
  unfold views_at.
  destruct (with_perfectWidth imgWidths k l) as [|c l'] eqn:E.
  - split; [done|]. intros [_ (c & Hc & Hk)].
    assert (c ∈ with_perfectWidth imgWidths k l) as Hin
      by by apply list_elem_of_filter.
    rewrite E in Hin. by apply elem_of_nil in Hin.
  - split.
    + intros [= <-]. split; [done|]. exists c.
      assert (c ∈ with_perfectWidth imgWidths k l) as Hin
        by (rewrite E; left).
      apply list_elem_of_filter in Hin as [? ?]. by split.
    + by intros [-> _].
Qed.

Lemma count_views_skip imgWidths minV maxV acc c :
  considered minV maxV c = false →
  count_views imgWidths minV maxV acc c = acc.
Proof using. intros Hc. destruct acc. unfold count_views. by rewrite Hc. Qed.




(** C9, amended.  [perfectWidths] has exactly one bucket for every
    perfect width that is an array index and that at least one considered
    context has, and no bucket for any other width: the holes of
    [perfectWidthsTemp] are left out, whatever the views that were
    counted. *)
Theorem perfect_widths_are_the_counted_indices
  (imgWidths : gmap number number) (minV maxV : number)
  (contexts : list context) :
  let widths := width <$> perfectWidths imgWidths minV maxV contexts in
  NoDup widths
  ∧ ∀ k, k ∈ widths
         ↔ is_array_index k
           ∧ ∃ c, c ∈ considered_contexts minV maxV contexts
                  ∧ perfectWidth imgWidths c = k.
Proof using.
  intros widths. subst widths. split.
  - rewrite perfectWidths_Permutation, widths_unsorted.
    apply NoDup_Array_entries.
  - intros k. rewrite list_elem_of_fmap. split.
    + intros (b & -> & [Hi (v & Hv & _)]%elem_of_perfectWidths).
      split; [done|]. by apply views_at_Some in Hv as [_ ?].
    + intros [Hi Hc].
      set (inc := considered_contexts minV maxV contexts) in Hc |- *.
      set (v := sum_views (with_perfectWidth imgWidths k inc)).
      exists {| width := k; percentage := num_div v (sum_views inc) |}.
      split; [done|]. apply elem_of_perfectWidths. simpl.
      split; [done|]. exists v. split; [|done].
      by apply views_at_Some.
Qed.
(** ** Whole numbers of views *)

Lemma is_whole_num (v : number) :
  is_whole v → v = num (Qfloor (fin_part v)) ∧ 0 ≤ Qfloor (fin_part v).
Proof using.
  destruct v as [q| | |]; [|done..]. unfold is_whole, num.
  rewrite andb_True, !bool_decide_spec. intros [Hq H0]. cbn [fin_part].
  split; [by rewrite Hq|]. rewrite <- Hq in H0.
  rewrite <- Z2Qc_inj_0 in H0. by apply Z2Qc_inj_le.
Qed.

Lemma fin_part_num (z : Z) : Qfloor (fin_part (num z)) = z.
Proof using. unfold num, fin_part, Qc_of_Z. cbn [this]. apply Qfloor_Z. Qed.

Lemma views_total_nonneg (l : list context) :
  Forall (λ c, is_whole (views c)) l → 0 ≤ views_total l.
Proof using.
  unfold views_total. induction 1 as [|c l Hc _ IH]; [done|].
  rewrite fmap_cons. cbn [zsum foldr]. fold (zsum ((λ c, Qfloor (fin_part (views c))) <$> l)).
  apply is_whole_num in Hc as [_ Hc]. lia.
Qed.

Lemma views_total_app (l1 l2 : list context) :
  views_total (l1 ++ l2) = views_total l1 + views_total l2.
Proof using.
  unfold views_total, zsum. rewrite fmap_app, foldr_app.
  induction l1 as [|c l1 IH]; cbn [fmap list_fmap foldr]; [done|].
  rewrite IH. lia.
Qed.

Lemma views_total_cons (c : context) (l : list context) :
  views_total (c :: l) = Qfloor (fin_part (views c)) + views_total l.
Proof using. reflexivity. Qed.

Lemma views_total_filter_le (P : context → Prop) `{!∀ c, Decision (P c)}
  (l : list context) :
  Forall (λ c, is_whole (views c)) l →
  0 ≤ views_total (filter P l) ≤ views_total l.
Proof using.
  induction 1 as [|c l Hc Hl IH]; [done|].
  rewrite filter_cons, views_total_cons.
  apply is_whole_num in Hc as [_ Hc].
  case_decide; rewrite ?views_total_cons; lia.
Qed.

Lemma views_total_Permutation (l1 l2 : list context) :
  l1 ≡ₚ l2 → views_total l1 = views_total l2.
Proof using.
  induction 1 as [|c l1 l2 _ IH|c1 c2 l|l1 l2 l3 _ IH1 _ IH2];
    rewrite ?views_total_cons; [done|lia|lia|congruence].
Qed.

(** Whole numbers of views are added up exactly as long as their total is
    2^53 at most. *)
Lemma sum_views_whole (l : list context) :
  Forall (λ c, is_whole (views c)) l →
  views_total l ≤ 2 ^ 53 →
  sum_views l = num (views_total l).
Proof using.
  induction l as [|c l IH] using rev_ind; [done|].
  intros [Hl [Hc _]%Forall_cons]%Forall_app.
  rewrite views_total_app, views_total_cons. change (views_total []) with 0.
  pose proof (views_total_nonneg _ Hl) as H0.
  apply is_whole_num in Hc as [Hc Hc0]. intros Hle.
  rewrite sum_views_snoc, IH by (done || lia).
  rewrite Hc at 1. rewrite num_add_num; [f_equal; lia|].
  unfold safe_integer. lia.
Qed.

Lemma sum_views_filter_whole (P : context → Prop) `{!∀ c, Decision (P c)}
  (l : list context) :
  Forall (λ c, is_whole (views c)) l →
  views_total l ≤ 2 ^ 53 →
  sum_views (filter P l) = num (views_total (filter P l)).
Proof using.
  intros Hl Hle. pose proof (views_total_filter_le P l Hl).
  apply sum_views_whole; [|lia].
  rewrite Forall_forall in Hl |- *.
  intros c [_ Hc]%list_elem_of_filter. auto.
Qed.
(** ** The weights of the buckets *)

Lemma zsum_cons (z : Z) (l : list Z) : zsum (z :: l) = z + zsum l.
Proof using. reflexivity. Qed.

Lemma zsum_indicator (ks : list number) (x : number) (z : Z) :
  NoDup ks →
  zsum ((λ k, if decide (x = k) then z else 0) <$> ks)
  = if decide (x ∈ ks) then z else 0.
Proof using.
  induction 1 as [|k ks Hk _ IH]; [done|].
  rewrite fmap_cons, zsum_cons, IH.
  destruct (decide (x = k)) as [->|Hne].
  - rewrite decide_False by done. rewrite decide_True by left. lia.
  - destruct (decide (x ∈ ks)) as [Hin|Hnin].
    + rewrite decide_True by by right. lia.
    + rewrite decide_False; [lia|]. by intros [?|?]%elem_of_cons.
Qed.

(** The views of a list, split by perfect width. *)
Lemma views_total_partition imgWidths (ks : list number) (l : list context) :
  NoDup ks →
  Forall (λ c, perfectWidth imgWidths c ∈ ks) l →
  zsum ((λ k, views_total (with_perfectWidth imgWidths k l)) <$> ks)
  = views_total l.
Proof using.
  intros Hks. unfold with_perfectWidth.
  induction 1 as [|c l Hc _ IH].
  { induction ks as [|k ks IHk]; [done|].
    apply NoDup_cons in Hks as [_ Hks].
    rewrite fmap_cons, zsum_cons, IHk by done. done. }
  rewrite views_total_cons, <- IH.
  rewrite <- (decide_True (A := Z) (Qfloor (fin_part (views c))) 0 Hc).
  rewrite <- (zsum_indicator ks (perfectWidth imgWidths c) _ Hks).
  clear IH Hc Hks. induction ks as [|k ks IHk]; [done|].
  rewrite !fmap_cons, !zsum_cons, IHk. rewrite filter_cons.
  case_decide; rewrite ?views_total_cons; lia.
Qed.

Lemma qsum_cons_Q (x : Qc) (l : list Qc) : (qsum (x :: l) == x + qsum l)%Q.
Proof using.
  unfold qsum. cbn [foldr]. unfold Qcplus. cbn [this Q2Qc].
  apply Qred_correct.
Qed.

Lemma inject_Z_pos (z : Z) : 0 < z → (0 < inject_Z z)%Q.
Proof using. intros Hz. change 0%Q with (inject_Z 0). by rewrite <- Zlt_Qlt. Qed.

Lemma inject_Z_nonneg (z : Z) : 0 ≤ z → (0 <= inject_Z z)%Q.
Proof using. intros Hz. change 0%Q with (inject_Z 0). by rewrite <- Zle_Qle. Qed.

(** The quotient of two whole numbers up to 2^53, the first at most the
    second: a number from 0 to 1, within 2^-53 of the exact quotient in
    proportion. *)
Lemma num_div_ratio (v t : Z) :
  0 ≤ v ≤ t → 0 < t ≤ 2 ^ 53 →
  ∃ r : Qc,
    num_div (num v) (num t) = Fin r
    ∧ (0 <= r)%Q ∧ (r <= 1)%Q
    ∧ (Qabs (r - inject_Z v / inject_Z t)
       <= inject_Z v / inject_Z t * 2 ^ (-53))%Q.
Proof using.
  intros Hv Ht. pose proof (inject_Z_pos t ltac:(lia)) as HT.
  pose proof (inject_Z_nonneg v ltac:(lia)) as HV.
  assert (inject_Z v <= inject_Z t)%Q as HVT by (rewrite <- Zle_Qle; lia).
  assert (Qc_of_Z t ≠ 0%Qc) as Hnz.
  { rewrite <- Z2Qc_inj_0. intros Heq%Z2Qc_inj. lia. }
  unfold num. rewrite num_div_Fin by done.
  assert (Qc_of_Z v / Qc_of_Z t == inject_Z v / inject_Z t)%Q as Hq.
  { cbn [this Qc_of_Z]. reflexivity. }
  rewrite (round_double_comp _ _ Hq).
  set (q := (inject_Z v / inject_Z t)%Q) in *.
  assert (0 <= q)%Q as Hq0.
  { subst q. apply Qle_shift_div_l; [done|]. lra. }
  assert (q <= 1)%Q as Hq1.
  { subst q. apply Qle_shift_div_r; [done|]. lra. }
  destruct (round_double_unit q Hq0 Hq1) as (r & Hr & Hr0 & Hr1 & Herr).
  exists r. split; [done|]. split; [done|]. split; [done|].
  destruct (decide (v = 0)) as [->|Hne].
  - assert (q == 0)%Q as Hz by (subst q; unfold Qdiv; by rewrite Qmult_0_l).
    rewrite (round_double_comp _ _ Hz) in Hr.
    assert (r = 0%Qc) as -> by by injection Hr.
    rewrite Hz. change (this 0%Qc) with 0%Q.
    apply Qabs_Qle_condition. set (U := (2 ^ (-53))%Q). lra.
  - apply Herr. subst q. apply Qle_shift_div_l; [done|].
    assert (inject_Z 1 <= inject_Z v)%Q as H1 by (rewrite <- Zle_Qle; lia).
    change (inject_Z 1) with 1%Q in H1.
    assert (inject_Z t <= 2 ^ 53)%Q as H2.
    { rewrite <- pow2_inject by lia. rewrite <- Zle_Qle. lia. }
    assert (2 ^ (-1022) * 2 ^ 53 <= 1)%Q as H3.
    { rewrite <- pow2_plus. change 1%Q with (2 ^ 0)%Q. apply pow2_le. lia. }
    pose proof (pow2_pos (-1022)) as H4. pose proof (pow2_pos 53) as H5.
    set (A := (2 ^ (-1022))%Q) in *. set (B := (2 ^ 53)%Q) in *.
    set (X := inject_Z v) in *. set (Y := inject_Z t) in *. nra.
Qed.

(** The weights of a list of buckets add up to what their views add up
    to, over the total, within 2^-53 in proportion. *)
Lemma ratio_sum_error (t : Z) (V : number → Z) (ks : list number) :
  0 < t ≤ 2 ^ 53 →
  Forall (λ k, 0 ≤ V k ≤ t) ks →
  Forall (λ k, is_finite (num_div (num (V k)) (num t))) ks
  ∧ (Qabs (qsum ((λ k, fin_part (num_div (num (V k)) (num t))) <$> ks)
           - inject_Z (zsum (V <$> ks)) / inject_Z t)
     <= inject_Z (zsum (V <$> ks)) / inject_Z t * 2 ^ (-53))%Q.
Proof using.
  intros Ht. pose proof (inject_Z_pos t ltac:(lia)) as HT.
  pose proof (pow2_pos (-53)) as Hu.
  induction 1 as [|k ks Hk _ [IHf IH]].
  { split; [done|]. cbn [fmap list_fmap zsum foldr qsum].
    change (this 0%Qc) with 0%Q. change (inject_Z 0) with 0%Q.
    unfold Qdiv. rewrite Qmult_0_l.
    apply Qabs_Qle_condition. set (U := (2 ^ (-53))%Q) in *. lra. }
  destruct (num_div_ratio (V k) t Hk Ht) as (r & Hr & _ & _ & Herr).
  split; [constructor; [by rewrite Hr|done]|].
  rewrite !fmap_cons, zsum_cons, qsum_cons_Q, Hr. cbn [fin_part].
  rewrite inject_Z_plus.
  set (S := this (qsum _)) in *. set (Z0 := inject_Z (zsum _)) in *.
  set (X := inject_Z (V k)) in *. set (Y := inject_Z t) in *.
  set (U := (2 ^ (-53))%Q) in *.
  assert ((X + Z0) / Y == X / Y + Z0 / Y)%Q as -> by (field; lra).
  apply Qabs_Qle_condition in Herr as [He1 He2].
  apply Qabs_Qle_condition in IH as [Hi1 Hi2].
  apply Qabs_Qle_condition.
  set (A := (X / Y)%Q) in *. set (B := (Z0 / Y)%Q) in *.
  split; lra.
Qed.

Lemma filter_Forall_id {A} (P : A → Prop) `{!∀ x, Decision (P x)}
  (l : list A) :
  Forall P l → filter P l = l.
Proof using.
  induction 1 as [|x l Hx _ IH]; [done|].
  rewrite filter_cons, IH. by case_decide.
Qed.

Lemma is_array_index_num (z : Z) :
  0 ≤ z < 4294967295 → is_array_index (num z).
Proof using.
  intros [Hlo Hhi]. unfold is_array_index, num.
  rewrite !andb_True, !bool_decide_spec. split; [split|].
  - f_equal. unfold Qc_of_Z. cbn [this]. apply Qfloor_Z.
  - apply Z2Qc_inj_le in Hlo. by rewrite Z2Qc_inj_0 in Hlo.
  - by apply Z2Qc_inj_lt in Hhi.
Qed.

(** With whole numbers of views whose total is 2^53 at most, the buckets
    before the sort hold the exact views of their contexts over the exact
    total. *)
Lemma whole_percentages imgWidths minV maxV contexts :
  let inc := considered_contexts minV maxV contexts in
  let acc := perfectWidthsTemp_totalViews imgWidths minV maxV contexts in
  Forall (λ c, is_whole (views c)) inc →
  views_total inc ≤ 2 ^ 53 →
  perfectWidths_unsorted acc
  = (λ k, {| width := k;
             percentage :=
               num_div (num (views_total (with_perfectWidth imgWidths k inc)))
                 (num (views_total inc)) |})
      <$> (Array_entries acc.1).*1.
Proof using.
  intros inc acc Hwhole Hle. unfold perfectWidths_unsorted.
  destruct (count_views_fold imgWidths minV maxV contexts) as [Ht Hk].
  fold inc acc in Ht, Hk.
  rewrite <- list_fmap_compose. apply Forall_fmap_ext_1, Forall_forall.
  intros [k v] [Hv _]%elem_of_Array_entries. cbn [fst snd compose].
  rewrite Hk in Hv. apply views_at_Some in Hv as [-> _].
  rewrite Ht. unfold with_perfectWidth.
  rewrite sum_views_filter_whole by done.
  by rewrite sum_views_whole.
Qed.

(** C6, amended.  When the considered contexts have whole numbers of
    views whose total is not zero and is 2^53 at most, and each of their
    perfect widths is an array index, the weights of the buckets are
    finite numbers whose exact sum is within 2^-53 of 1. *)
Theorem percentages_sum_to_one
  (imgWidths : gmap number number) (minV maxV : number)
  (contexts : list context) :
  let inc := considered_contexts minV maxV contexts in
  let weights := percentage <$> perfectWidths imgWidths minV maxV contexts in
  Forall (λ c, is_whole (views c)) inc →
  views_total inc ≤ 2 ^ 53 →
  views_total inc ≠ 0 →
  Forall (λ c, is_array_index (perfectWidth imgWidths c)) inc →
  Forall (λ p, is_finite p) weights
  ∧ (Qabs (qsum (fin_part <$> weights) - 1) <= 2 ^ (-53))%Q.
Proof using.
  intros inc weights Hwhole Hle Hnz Hidx. subst weights.
  pose proof (views_total_nonneg _ Hwhole) as H0.
  set (t := views_total inc) in *.
  set (acc := perfectWidthsTemp_totalViews imgWidths minV maxV contexts).
  set (ks := (Array_entries acc.1).*1).
  set (V := λ k, views_total (with_perfectWidth imgWidths k inc)).
  destruct (count_views_fold imgWidths minV maxV contexts) as [Ht Hk].
  fold inc acc in Ht, Hk.
  assert (Forall (λ k, 0 ≤ V k ≤ t) ks) as HV.
  { apply Forall_forall. intros k _. by apply views_total_filter_le. }
  destruct (ratio_sum_error t V ks ltac:(lia) HV) as [Hfin Herr].
  assert (zsum (V <$> ks) = t) as Hsum.
  { apply views_total_partition; [apply NoDup_Array_entries|].
    rewrite Forall_forall in Hidx |- *. intros c Hc.
    apply list_elem_of_fmap.
    exists (perfectWidth imgWidths c,
            sum_views
              (with_perfectWidth imgWidths (perfectWidth imgWidths c) inc)).
    split; [done|]. apply elem_of_Array_entries. split; [|by apply Hidx].
    rewrite Hk. apply views_at_Some. eauto. }
  rewrite Hsum in Herr.
  assert (inject_Z t / inject_Z t == 1)%Q as Hone.
  { field. pose proof (inject_Z_pos t ltac:(lia)). lra. }
  rewrite Hone, Qmult_1_l in Herr.
  pose proof (perfectWidths_Permutation imgWidths minV maxV contexts) as Hp.
  rewrite (whole_percentages imgWidths minV maxV contexts Hwhole Hle) in Hp.
  fold inc acc ks t in Hp.
  split.
  - rewrite Hp, <- list_fmap_compose. by apply Forall_fmap.
  - rewrite (qsum_Permutation _ _
      (fmap_Permutation _ _ _ (fmap_Permutation _ _ _ Hp))).
    by rewrite <- !list_fmap_compose.
Qed.

(** ** The sort *)

Lemma num_div_on_grid (x y : number) (q : Qc) :
  num_div x y = Fin q → on_grid q.
Proof using.
  destruct x as [a| | |], y as [b| | |]; try done; unfold num_div.
  - destruct (decide (b = 0%Qc)).
    + by destruct (a ?= 0)%Qc.
    + apply round_double_grid.
  - intros [= <-]. exists 0. symmetry. apply Qmult_0_l.
  - intros [= <-]. exists 0. symmetry. apply Qmult_0_l.
  - cbn [num_sign sign_mul].
    destruct (decide (b = 0%Qc)); [done|]. by destruct (b ?= 0)%Qc.
  - cbn [num_sign sign_mul].
    destruct (decide (b = 0%Qc)); [done|]. by destruct (b ?= 0)%Qc.
Qed.

Lemma Qc_opp_Q (q : Qc) : ((- q)%Qc == - q)%Q.
Proof using. unfold Qcopp. cbn [this Q2Qc]. apply Qred_correct. Qed.

(** The difference of two doubles is positive, as a double, exactly when
    the first is above the second: no difference is so small that it is
    rounded to zero. *)
Lemma num_sub_positive (x y : Qc) :
  on_grid x → on_grid y →
  num_gtb (num_sub (Fin y) (Fin x)) (num 0) = true ↔ (x < y)%Qc.
Proof using.
  intros [kx Hx] [ky Hy].
  unfold num_sub, num_neg, num_gtb, num_add.
  pose proof (pow2_pos (-1074)) as Hu.
  assert (y + (- x)%Qc == inject_Z (ky - kx) * 2 ^ (-1074))%Q as Hd.
  { rewrite Qc_opp_Q, Hx, Hy. unfold Z.sub.
    rewrite inject_Z_plus, inject_Z_opp.
    set (U := (2 ^ (-1074))%Q). ring. }
  assert ((x < y)%Qc ↔ 0 < ky - kx) as Hlt.
  { unfold Qclt. rewrite Hx, Hy.
    assert (0 < ky - kx ↔ (inject_Z kx < inject_Z ky)%Q) as ->
      by (rewrite <- Zlt_Qlt; lia).
    set (U := (2 ^ (-1074))%Q) in *. split; intros H; nra. }
  rewrite Hlt. rewrite (round_double_comp _ _ Hd).
  set (d := ky - kx). set (U := (2 ^ (-1074))%Q) in *.
  destruct (Z.lt_trichotomy d 0) as [Hneg|[Hz|Hpos]].
  - assert (inject_Z d <= -1)%Q as Hd1.
    { change (-1)%Q with (inject_Z (-1)). rewrite <- Zle_Qle. lia. }
    assert (inject_Z d * U <= - U)%Q as Hb by nra.
    destruct (round_double_neg (inject_Z d * U) Hb) as [->|(r & -> & Hr)]; (split; [|lia]); unfold num, num_ltb; [done|].
    rewrite bool_decide_eq_true. unfold Qclt. cbn [this Qc_of_Z].
    change (inject_Z 0) with 0%Q. lra.
  - rewrite Hz.
    assert (inject_Z 0 * U == 0)%Q as H0 by apply Qmult_0_l.
    rewrite (round_double_comp _ _ H0). split; [|lia].
    unfold round_double, num, num_ltb. cbn [Qeq_bool].
    change (Qeq_bool 0 0) with true. cbn iota.
    rewrite bool_decide_eq_true. unfold Qclt. cbn [this Qc_of_Z].
    change (this 0%Qc) with 0%Q. change (inject_Z 0) with 0%Q. lra.
  - assert (1 <= inject_Z d)%Q as Hd1.
    { change 1%Q with (inject_Z 1). rewrite <- Zle_Qle. lia. }
    assert (U <= inject_Z d * U)%Q as Hb by nra.
    destruct (round_double_pos (inject_Z d * U) Hb) as [->|(r & -> & Hr)]; (split; [intros _; lia|intros _]); unfold num, num_ltb;
      [done|].
    rewrite bool_decide_eq_true. unfold Qclt. cbn [this Qc_of_Z].
    by change (inject_Z 0) with 0%Q.
Qed.

(** A percentage that is a finite number is a double. *)
Lemma percentage_on_grid (acc : gmap number number * number) (b : bucket) :
  b ∈ perfectWidths_unsorted acc →
  is_finite (percentage b) → on_grid (fin_part (percentage b)).
Proof using.
  unfold perfectWidths_unsorted.
  intros ([k v] & -> & _)%list_elem_of_fmap. cbn [percentage fst snd].
  intros Hfin%is_finite_Fin. rewrite Hfin. cbn [fin_part].
  by apply num_div_on_grid in Hfin.
Qed.

Lemma by_percentage_gt (x y : bucket) :
  is_finite (percentage x) → is_finite (percentage y) →
  on_grid (fin_part (percentage x)) → on_grid (fin_part (percentage y)) →
  num_gtb (by_percentage x y) (num 0) = true
  ↔ (fin_part (percentage x) < fin_part (percentage y))%Qc.
Proof using.
  intros Hx%is_finite_Fin Hy%is_finite_Fin Hgx Hgy.
  unfold by_percentage. rewrite Hx, Hy. cbn [fin_part].
  by apply num_sub_positive.
Qed.

Lemma percentage_ge_finite (x y : bucket) :
  is_finite (percentage x) → is_finite (percentage y) →
  percentage_ge x y ↔ (fin_part (percentage y) ≤ fin_part (percentage x))%Qc.
Proof using.
  intros Hx%is_finite_Fin Hy%is_finite_Fin.
  unfold percentage_ge, num_geb. rewrite Hx, Hy. simpl.
  apply bool_decide_spec.
Qed.

Lemma sort_insert_sorted (x : bucket) (l : list bucket) :
  is_finite (percentage x) ∧ on_grid (fin_part (percentage x)) →
  Forall (λ b, is_finite (percentage b) ∧ on_grid (fin_part (percentage b)))
    l →
  StronglySorted percentage_ge l →
  StronglySorted percentage_ge (sort_insert by_percentage x l).
Proof using.
  intros [Hx Hgx]. induction l as [|y l IH]; cbn [sort_insert].
  { intros _ _. by repeat constructor. }
  intros [[Hy Hgy] Hl]%Forall_cons [Hs Hyl]%StronglySorted_inv.
  destruct (num_gtb (by_percentage x y) (num 0)) eqn:Hgt.
  - apply by_percentage_gt in Hgt; [|done..].
    constructor; [by apply IH|].
    rewrite sort_insert_Permutation. constructor; [|done].
    apply percentage_ge_finite; [done..|]. by apply Qclt_le_weak.
  - constructor; [by constructor|].
    assert (percentage_ge x y) as Hxy.
    { apply percentage_ge_finite; [done..|]. apply Qcnot_lt_le.
      intros Hlt. apply by_percentage_gt in Hlt; [|done..]. congruence. }
    constructor; [done|].
    rewrite Forall_forall in Hl, Hyl |- *. intros z Hz.
    destruct (Hl z Hz) as [Hzf _].
    apply percentage_ge_finite; [auto..|].
    apply percentage_ge_finite in Hxy; [|done..].
    specialize (Hyl z Hz). apply percentage_ge_finite in Hyl; [|auto..].
    by etrans.
Qed.

Lemma Array_sort_sorted (l : list bucket) :
  Forall (λ b, is_finite (percentage b) ∧ on_grid (fin_part (percentage b)))
    l →
  StronglySorted percentage_ge (Array_sort by_percentage l).
Proof using.
  induction l as [|x l IH]; simpl; [constructor|].
  intros [Hx Hl]%Forall_cons. apply sort_insert_sorted; [done| |by apply IH].
  by rewrite Array_sort_Permutation.
Qed.

(** C3, amended.  The buckets that step 3 produces are the elements of
    the array without holes, which come in increasing order of width, put
    in decreasing order of percentage, whenever every percentage is a
    finite number: neither NaN nor an infinity. *)
Theorem perfect_widths_sorted_by_percentage
  (imgWidths : gmap number number) (minV maxV : number)
  (contexts : list context) :
  Forall (λ b, is_finite (percentage b))
    (perfectWidths imgWidths minV maxV contexts) →
  perfectWidths imgWidths minV maxV contexts
  ≡ₚ perfectWidths_unsorted
       (perfectWidthsTemp_totalViews imgWidths minV maxV contexts)
  ∧ StronglySorted width_le
      (perfectWidths_unsorted
         (perfectWidthsTemp_totalViews imgWidths minV maxV contexts))
  ∧ StronglySorted percentage_ge
      (perfectWidths imgWidths minV maxV contexts).
Proof using.
  intros Hfin. split; [apply perfectWidths_Permutation|].
  split; [apply perfectWidths_unsorted_ascending|].
  apply Array_sort_sorted.
  rewrite perfectWidths_Permutation in Hfin.
  rewrite Forall_forall in Hfin |- *. intros b Hb.
  split; [by apply Hfin|]. eapply percentage_on_grid; [done|].
  by apply Hfin.
Qed.

(** With whole numbers of views whose total is not zero and is 2^53 at
    most, every percentage is a finite number. *)
Lemma whole_percentages_finite imgWidths minV maxV contexts :
  let inc := considered_contexts minV maxV contexts in
  Forall (λ c, is_whole (views c)) inc →
  views_total inc ≤ 2 ^ 53 →
  views_total inc ≠ 0 →
  Forall (λ b, is_finite (percentage b) ∧ num_leb (num 0) (percentage b)
               ∧ num_leb (percentage b) (num 1))
    (perfectWidths imgWidths minV maxV contexts).
Proof using.
  intros inc Hwhole Hle Hnz.
  pose proof (views_total_nonneg _ Hwhole) as H0.
  rewrite perfectWidths_Permutation.
  rewrite (whole_percentages imgWidths minV maxV contexts Hwhole Hle).
  apply Forall_fmap, Forall_forall. intros k _.
  cbn [percentage compose].
  destruct (num_div_ratio
              (views_total (with_perfectWidth imgWidths k inc))
              (views_total inc)) as (r & Hr & Hr0 & Hr1 & _);
    [by apply views_total_filter_le|lia|].
  fold inc. rewrite Hr. split; [done|].
  unfold num, num_leb. split; apply bool_decide_pack; unfold Qcle;
    cbn [this Qc_of_Z]; [by change (inject_Z 0) with 0%Q|].
  by change (inject_Z 1) with 1%Q.
Qed.

(** ** The console under [--verbose] *)

Lemma verbose_log_said (argv : Argv) (l : console_line) (w : world Page) :
  verbose_log argv l w = Ok tt (said argv [l] w).
Proof using. unfold verbose_log, said. by destruct (verbose argv). Qed.

Lemma said_said (argv : Argv) (ls1 ls2 : list console_line) (w : world Page) :
  said argv ls2 (said argv ls1 w) = said argv (ls1 ++ ls2) w.
Proof using.
  unfold said. destruct (verbose argv); [|done]. destruct w.
  unfold set_console. cbn. by rewrite app_assoc.
Qed.

Lemma said_nil (argv : Argv) (w : world Page) : said argv [] w = w.
Proof using.
  unfold said. destruct (verbose argv); [|done]. destruct w.
  unfold set_console. cbn. by rewrite app_nil_r.
Qed.

Lemma said_quiet (argv : Argv) (l : console_line) (w : world Page) :
  verbose argv = false → said argv [l] w = w.
Proof using. unfold said. by intros ->. Qed.

Lemma disk_said argv ls (w : world Page) : disk (said argv ls w) = disk w.
Proof using. unfold said. by destruct (verbose argv). Qed.

Lemma read_only_said argv ls (w : world Page) :
  read_only (said argv ls w) = read_only w.
Proof using. unfold said. by destruct (verbose argv). Qed.

Lemma written_said argv ls (w : world Page) :
  written (said argv ls w) = written w.
Proof using. unfold said. by destruct (verbose argv). Qed.

Lemma page_said argv ls (w : world Page) : page (said argv ls w) = page w.
Proof using. unfold said. by destruct (verbose argv). Qed.

Lemma VIEWPORT_said argv ls (w : world Page) :
  VIEWPORT (said argv ls w) = VIEWPORT w.
Proof using. unfold said. by destruct (verbose argv). Qed.

Lemma imageWidths_said argv ls (w : world Page) :
  imageWidths (said argv ls w) = imageWidths w.
Proof using. unfold said. by destruct (verbose argv). Qed.

Lemma browser_open_said argv ls (w : world Page) :
  browser_open (said argv ls w) = browser_open w.
Proof using. unfold said. by destruct (verbose argv). Qed.

Lemma console_said argv ls (w : world Page) :
  console (said argv ls w)
  = console w ++ (if verbose argv then ls else []).
Proof using.
  unfold said. destruct (verbose argv); [done|]. by rewrite app_nil_r.
Qed.

(** *** Step 1 *)

Lemma has_ascii_letter_cons (c : ascii) (r : string) :
  has_ascii_letter (String c r) ↔ is_ascii_letter c ∨ has_ascii_letter r.
Proof using.
  unfold has_ascii_letter. split.
  - intros ([|i] & c' & Hget & Hc'); simpl in Hget.
    + left. by simplify_eq.
    + right. eauto.
  - intros [Hc | (i & c' & Hget & Hc')].
    + by exists 0%nat, c.
    + by exists (S i), c'.
Qed.

Lemma match_letter_truthy (s : string) :
  truthy (String_match_letter s) = true ↔ has_ascii_letter s.
Proof using.
  unfold truthy. rewrite bool_decide_eq_true.
  induction s as [|c r IH]; simpl.
  - split; [by intros [? [=]]|]. by intros ([|?] & ? & [=] & _).
  - rewrite has_ascii_letter_cons.
    destruct (is_ascii_letter c) eqn:Hc; simpl.
    + split; [by left|eauto].
    + rewrite fmap_is_Some, IH. split; [by right|]. by intros [[]|].
Qed.

(** C10.  The contexts file is taken to have a header row exactly when
    its text holds an ASCII letter somewhere; then the records are read
    from the second one on, whatever the first one holds, and otherwise
    all the records are read, the first one included. *)
Theorem header_row_iff_ascii_letter
  (contextsCsv : string) (records : list (string * string * string))
  (w : world Page) :
  csv_records contextsCsv = Some records →
  (truthy (csvHasHeader contextsCsv) = true ↔ has_ascii_letter contextsCsv)
  ∧ (has_ascii_letter contextsCsv →
     contexts_of contextsCsv w = Ok (cast_record <$> drop 1 records) w)
  ∧ (¬ has_ascii_letter contextsCsv →
     contexts_of contextsCsv w = Ok (cast_record <$> records) w).
Proof using.
  intros Hrec. unfold contexts_of, csvparse, csvHasHeader. rewrite Hrec.
  split; [apply match_letter_truthy|]. split.
  - intros Hl%match_letter_truthy. by rewrite Hl.
  - intros Hl. rewrite <- match_letter_truthy in Hl.
    apply not_true_is_false in Hl. by rewrite Hl.
Qed.

(** Step 1 once the file is read and parsed. *)
Lemma step1_read (argv : Argv) (w : world Page) (text : string)
  (contexts : list context) :
  disk w !! contextsfile argv = Some text →
  contexts_of text (said argv [Step_banner 1] w)
  = Ok contexts (said argv [Step_banner 1] w) →
  step1 argv w
  = match contexts with
    | [] =>
        Thrown (TypeError "Cannot read property 'viewport' of undefined")
          (said argv [Step_banner 1; Imported_lines 0] w)
    | c :: _ =>
        let cmin := contextMinViewport contexts (viewport c) in
        let cmax := contextMaxViewport contexts (viewport c) in
        Ok (contexts, minViewport argv cmin, maxViewport argv cmax)
          (said argv
             [Step_banner 1; Imported_lines (length contexts);
              Viewports_in_context cmin cmax;
              Viewports_considered (minViewport argv cmin)
                (maxViewport argv cmax)] w)
    end.
Proof using.
  intros Hdisk Hc.
  unfold step1, mbind, M_bind. rewrite verbose_log_said.
  unfold readFileSync. rewrite disk_said, Hdisk, Hc.
  rewrite verbose_log_said, said_said.
  destruct contexts as [|c l]; [done|].
  cbn [first_viewport mret M_ret].
  by rewrite !verbose_log_said, !said_said.
Qed.

(** C5, amended.  When no record is left to read, step 1 stops with the
    TypeError of reading the viewport of the first context; with at least
    one record it succeeds whatever the fields hold, every field being
    cast by [parseInt] or [parseFloat] without any check.  All that
    changes is the console, by the lines of [--verbose]. *)
Theorem contexts_loading_outcome
  (argv : Argv) (w : world Page) (text : string)
  (records : list (string * string * string)) :
  disk w !! contextsfile argv = Some text →
  csv_records text = Some records →
  let rows := if truthy (csvHasHeader text) then drop 1 records else records in
  (rows = [] →
   step1 argv w
   = Thrown (TypeError "Cannot read property 'viewport' of undefined")
       (said argv [Step_banner 1; Imported_lines 0] w))
  ∧ (rows ≠ [] →
     ∃ cmin cmax minV maxV,
       step1 argv w
       = Ok (cast_record <$> rows, minV, maxV)
           (said argv
              [Step_banner 1; Imported_lines (length rows);
               Viewports_in_context cmin cmax;
               Viewports_considered minV maxV] w)).
Proof using.
  intros Hdisk Hrec rows.
  assert (∀ w0 : world Page,
             contexts_of text w0 = Ok (cast_record <$> rows) w0) as Hc.
  { intros w0. unfold contexts_of, csvparse. rewrite Hrec. subst rows.
    by destruct (truthy (csvHasHeader text)). }
  rewrite (step1_read argv w text _ Hdisk (Hc _)).
  split.
  - by intros ->.
  - intros Hne. destruct rows as [|r rows']; [done|].
    cbn [fmap list_fmap]. rewrite length_cons, length_fmap.
    by do 4 eexists.
Qed.

(** When csv-parse throws, so does step 1. *)
Lemma contexts_reader_failure (argv : Argv) (w : world Page) (text : string) :
  disk w !! contextsfile argv = Some text →
  csv_records text = None →
  step1 argv w
  = Thrown (LibraryError "csv-parse") (said argv [Step_banner 1] w).
Proof using.
  intros Hdisk Hrec.
  unfold step1, mbind, M_bind. rewrite verbose_log_said.
  unfold readFileSync, contexts_of, csvparse.
  by rewrite disk_said, Hdisk, Hrec.
Qed.

(** Step 1 always ends, and touches nothing but the console, where it
    prints no error. *)
Lemma step1_cases (argv : Argv) (w : world Page) :
  ∃ ls, errors ls = []
  ∧ ((∃ r, step1 argv w = Ok r (said argv ls w))
     ∨ (∃ e, step1 argv w = Thrown e (said argv ls w))).
Proof using.
  destruct (disk w !! contextsfile argv) as [text|] eqn:Hdisk.
  - destruct (csv_records text) as [records|] eqn:Hrec.
    + assert (∃ cs, ∀ w0 : world Page, contexts_of text w0 = Ok cs w0)
        as [cs Hc].
      { unfold contexts_of, csvparse. rewrite Hrec. by eexists. }
      rewrite (step1_read argv w text cs Hdisk (Hc _)).
      destruct cs as [|c l]; eexists; (split; [|eauto]); done.
    + rewrite (contexts_reader_failure argv w text Hdisk Hrec).
      eexists; (split; [|eauto]); done.
  - exists [Step_banner 1]. split; [done|]. right.
    unfold step1, mbind, M_bind. rewrite verbose_log_said.
    unfold readFileSync. rewrite disk_said, Hdisk. eauto.
Qed.

(** *** Step 3 *)

(** Step 3 always succeeds. *)
Lemma step3_Ok (argv : Argv) (contexts : list context) (minV maxV : number)
  (w : world Page) :
  ∃ w', step3 argv contexts minV maxV w = Ok tt w'.
Proof using.
  unfold step3, mbind, M_bind. rewrite !verbose_log_said.
  unfold gets. rewrite !verbose_log_said.
  unfold console_log, modify. rewrite !verbose_log_said.
  destruct (given (destfile argv)) as [f|]; [|by eexists].
  unfold catch, mbind, M_bind, writeFile. case_decide; [by eexists|].
  rewrite verbose_log_said. by eexists.
Qed.

(** C4, amended.  A context whose viewport is outside the considered
    range, which is the range that step 2 measures, never makes step 3
    fail: it is skipped, and step 3 ends as it does without it. *)
Theorem unconsidered_context_is_skipped
  (argv : Argv) (l1 l2 : list context) (c : context) (minV maxV : number)
  (w : world Page) :
  considered minV maxV c = false →
  perfectWidthsTemp_totalViews (imageWidths w) minV maxV (l1 ++ c :: l2)
  = perfectWidthsTemp_totalViews (imageWidths w) minV maxV (l1 ++ l2)
  ∧ ∃ w', step3 argv (l1 ++ c :: l2) minV maxV w = Ok tt w'
          ∧ step3 argv (l1 ++ l2) minV maxV w = Ok tt w'.
Proof using.
  intros Hc.
  assert (∀ m, perfectWidthsTemp_totalViews m minV maxV (l1 ++ c :: l2)
               = perfectWidthsTemp_totalViews m minV maxV (l1 ++ l2))
    as Heq.
  { intros m. unfold perfectWidthsTemp_totalViews. rewrite !fold_left_app.
    cbn [fold_left]. by rewrite count_views_skip. }
  split; [done|].
  destruct (step3_Ok argv (l1 ++ l2) minV maxV w) as [w' Hw'].
  exists w'. split; [|done]. rewrite <- Hw'.
  unfold step3, mbind, M_bind, gets. rewrite !verbose_log_said.
  cbv beta. unfold perfectWidths. by rewrite !Heq.
Qed.

(** C1.  On the buckets of the scenario with two widths asked for, the
    script computes the empty list of widths, not [200, 400]. *)
Theorem srcset_of_scenario_is_empty :
  srcset scenario_buckets (num 2) = []
  ∧ srcset scenario_buckets (num 2) ≠ [num 200; num 400].
Proof using. by split. Qed.

(** *** Step 2 *)

Lemma errors_app (l1 l2 : list console_line) :
  errors (l1 ++ l2) = errors l1 ++ errors l2.
Proof using. apply filter_app. Qed.

Lemma errors_singleton (l : console_line) :
  is_error_line l = false → errors [l] = [].
Proof using.
  intros Hl. unfold errors. rewrite filter_cons_False; [done|].
  rewrite Hl. by intros [].
Qed.

Lemma progress_lines_nil (argv : Argv) : progress_lines argv [].
Proof using. by split. Qed.

Lemma progress_lines_app (argv : Argv) (l1 l2 : list console_line) :
  progress_lines argv l1 → progress_lines argv l2 →
  progress_lines argv (l1 ++ l2).
Proof using.
  intros [He1 Hv1] [He2 Hv2]. split.
  - by rewrite errors_app, He1, He2.
  - intros Hv. by rewrite Hv1, Hv2.
Qed.

(** Lines printed under the option. *)
Lemma progress_lines_verbose (argv : Argv) (ls : list console_line) :
  verbose argv = true → errors ls = [] → progress_lines argv ls.
Proof using. intros Hv Hls. split; [done|]. by rewrite Hv. Qed.

Lemma quiet_refl (argv : Argv) (w : world Page) : quiet argv w w.
Proof using.
  do 3 (split; [done|]). exists []. rewrite app_nil_r.
  split; [done|apply progress_lines_nil].
Qed.

Lemma quiet_trans (argv : Argv) (w1 w2 w3 : world Page) :
  quiet argv w1 w2 → quiet argv w2 w3 → quiet argv w1 w3.
Proof using.
  intros (Hd1 & Hr1 & Hw1 & l1 & Hc1 & Hp1) (Hd2 & Hr2 & Hw2 & l2 & Hc2 & Hp2).
  split; [congruence|]. split; [congruence|]. split; [congruence|].
  exists (l1 ++ l2). split; [by rewrite Hc2, Hc1, app_assoc|].
  by apply progress_lines_app.
Qed.

Lemma quiet_said (argv : Argv) (ls : list console_line) (w : world Page) :
  errors ls = [] → quiet argv w (said argv ls w).
Proof using.
  intros Hls. unfold said. destruct (verbose argv) eqn:Hv; [|apply quiet_refl].
  do 3 (split; [done|]). exists ls. split; [done|].
  by apply progress_lines_verbose.
Qed.

(** A state that differs in the objects of step 2 only. *)
Lemma quiet_same (argv : Argv) (w w' : world Page) :
  disk w' = disk w → read_only w' = read_only w → written w' = written w →
  console w' = console w → quiet argv w w'.
Proof using.
  intros Hd Hr Hw Hc. do 3 (split; [done|]). exists [].
  rewrite app_nil_r. split; [done|apply progress_lines_nil].
Qed.

Lemma quiet_said_r (argv : Argv) (ls : list console_line)
  (w w' : world Page) :
  quiet argv w w' → errors ls = [] → quiet argv w (said argv ls w').
Proof using. intros Hq Hls. eapply quiet_trans; [done|by apply quiet_said]. Qed.

Lemma quiet_set_page (argv : Argv) (p : Page) (w w' : world Page) :
  quiet argv w w' → quiet argv w (set_page p w').
Proof using. intros Hq. eapply quiet_trans; [done|by apply quiet_same]. Qed.

Lemma quiet_set_VIEWPORT (argv : Argv) (v : Viewport) (w w' : world Page) :
  quiet argv w w' → quiet argv w (set_VIEWPORT v w').
Proof using. intros Hq. eapply quiet_trans; [done|by apply quiet_same]. Qed.

Lemma quiet_set_imageWidths (argv : Argv) f (w w' : world Page) :
  quiet argv w w' → quiet argv w (set_imageWidths f w').
Proof using. intros Hq. eapply quiet_trans; [done|by apply quiet_same]. Qed.

Lemma quiet_set_browser_open (argv : Argv) (b : bool) (w w' : world Page) :
  quiet argv w w' → quiet argv w (set_browser_open b w').
Proof using. intros Hq. eapply quiet_trans; [done|by apply quiet_same]. Qed.

Ltac quiet_steps :=
  repeat first
    [ apply quiet_refl | apply quiet_set_page | apply quiet_set_VIEWPORT
    | apply quiet_set_imageWidths | apply quiet_set_browser_open
    | apply quiet_said_r; [|done] ].

Lemma clearLine_cases (w : world Page) :
  (stdout_isTTY = true
   ∧ clearLine w = Ok tt (set_console (λ c, c ++ [Clear_line]) w))
  ∨ (stdout_isTTY = false
     ∧ clearLine w
       = Thrown (TypeError "process.stdout.clearLine is not a function") w).
Proof using. unfold clearLine. destruct stdout_isTTY; [left|right]; done. Qed.

(** One turn of the loop ends, and prints no error. *)
Lemma measure_quiet (argv : Argv) (maxV : number) (w : world Page) :
  match measure argv maxV w with
  | Ok _ w' | Thrown _ w' =>
      quiet argv w w' ∧ browser_open w' = browser_open w
  | Hung => False
  end.
Proof using.
  unfold measure, mbind, M_bind, setViewport, sleep, modify, evaluate_width,
    gets, clearLine, cursorTo_0, console_log, modify.
  destruct (page_setViewport _ _) as [e|p]; [split; [apply quiet_refl|done]|].
  cbn [page set_page].
  destruct (page_evaluate_width _ _) as [e|x]; [split; [by apply quiet_same|done]|].
  destruct (verbose argv) eqn:Hv; [|split; [by apply quiet_same|done]].
  destruct stdout_isTTY; [|split; [by apply quiet_same|done]].
  cbn [VIEWPORT set_VIEWPORT set_console set_imageWidths set_page vp_width].
  destruct (num_leb _ maxV); (split; [|done]); do 3 (split; [done|]); cbn.
  - exists [Clear_line; Cursor_to_0;
            Current_viewport (num_add (vp_width (VIEWPORT w)) (num 1))].
    split; [by rewrite <- !app_assoc|by apply progress_lines_verbose].
  - exists [Clear_line; Cursor_to_0].
    split; [by rewrite <- !app_assoc|by apply progress_lines_verbose].
Qed.

Lemma measure_loop_quiet (argv : Argv) (maxV : number) (fuel : nat) :
  ∀ w, match measure_loop fuel argv maxV w with
       | Ok _ w' | Thrown _ w' =>
           quiet argv w w' ∧ browser_open w' = browser_open w
       | Hung => True
       end.
Proof using.
  induction fuel as [|fuel IH]; intros w; cbn [measure_loop]; [done|].
  destruct (num_leb _ maxV); [|split; [apply quiet_refl|done]].
  unfold mbind, M_bind.
  pose proof (measure_quiet argv maxV w) as Hm.
  destruct (measure argv maxV w) as [[] w1|e w1|]; [|done..].
  destruct Hm as [Hq Hb]. specialize (IH w1).
  destruct (measure_loop fuel argv maxV w1) as [[] w2|e w2|]; [| |done];
    destruct IH as [Hq' Hb']; (split; [by eapply quiet_trans|congruence]).
Qed.

(** A turn that succeeds at the integer width [a]. *)
Lemma measure_Ok (argv : Argv) (maxV : number) (a : Z) (x : number)
  (p : Page) (w : world Page) :
  VIEWPORT w = viewport_at a →
  safe_integer (a + 1) →
  page_resized argv (page w) a = Some p →
  page_evaluate_width p (selector argv) = inr x →
  verbose argv = false ∨ stdout_isTTY = true →
  ∃ w', measure argv maxV w = Ok tt w'
        ∧ VIEWPORT w' = viewport_at (a + 1)
        ∧ page w' = p
        ∧ imageWidths w' = <[num a := x]> (imageWidths w).
Proof using.
  intros Hvp Hsafe Hp Hx Hv.
  unfold page_resized in Hp. rewrite <- Hvp in Hp.
  destruct (page_setViewport (page w) (VIEWPORT w)) as [e|p'] eqn:Hsv;
    [done|]. injection Hp as <-.
  unfold measure, mbind, M_bind, setViewport, sleep, modify, evaluate_width,
    gets.
  rewrite Hsv. cbn [page set_page]. rewrite Hx.
  cbn [VIEWPORT set_VIEWPORT set_imageWidths set_page vp_width].
  rewrite Hvp. cbn [viewport_at vp_width vp_height deviceScaleFactor].
  rewrite (num_add_num a 1 Hsafe). fold (viewport_at (a + 1)).
  destruct (verbose argv) eqn:Hverb.
  - destruct Hv as [|Htty]; [done|].
    unfold clearLine, cursorTo_0, console_log, modify. rewrite Htty.
    cbn [VIEWPORT set_VIEWPORT set_console vp_width viewport_at].
    destruct (num_leb _ maxV); by eexists.
  - by eexists.
Qed.

(** The loop from the integer width [a] over [n] widths, when every
    resize and every measurement succeeds. *)
Lemma measure_loop_records (argv : Argv) (n : nat) :
  ∀ (fuel : nat) (a : Z) (w : world Page),
    (n < fuel)%nat →
    - 2 ^ 53 ≤ a → a + Z.of_nat n ≤ 2 ^ 53 →
    VIEWPORT w = viewport_at a →
    verbose argv = false ∨ stdout_isTTY = true →
    (∀ z, a ≤ z < a + Z.of_nat n →
          ∃ p x, page_at argv (page w) a (Z.to_nat (z - a)) = Some p
                 ∧ page_evaluate_width p (selector argv) = inr x) →
    ∃ w',
      measure_loop fuel argv (num (a + Z.of_nat n - 1)) w = Ok tt w'
      ∧ (∀ k, (∀ z, a ≤ z < a + Z.of_nat n → k ≠ num z) →
              imageWidths w' !! k = imageWidths w !! k)
      ∧ (∀ z, a ≤ z < a + Z.of_nat n →
              ∃ p x, page_at argv (page w) a (Z.to_nat (z - a)) = Some p
                     ∧ page_evaluate_width p (selector argv) = inr x
                     ∧ imageWidths w' !! num z = Some x).
Proof using.
  induction n as [|n IH]; intros fuel a w Hfuel Hlo Hhi Hvp Hv Hev.
  - destruct fuel as [|fuel]; [lia|]. exists w. cbn [measure_loop].
    rewrite Hvp. cbn [vp_width viewport_at]. rewrite num_leb_num.
    rewrite bool_decide_eq_false_2 by lia.
    repeat split; try done. intros z Hz. lia.
  - destruct fuel as [|fuel]; [lia|]. cbn [measure_loop].
    rewrite Hvp. cbn [vp_width viewport_at]. rewrite num_leb_num.
    rewrite bool_decide_eq_true_2 by lia.
    destruct (Hev a) as (p & x & Hp & Hx); [lia|]. rewrite Z.sub_diag in Hp.
    change (page_resized argv (page w) a = Some p) in Hp.
    unfold mbind, M_bind.
    destruct (measure_Ok argv (num (a + Z.of_nat (S n) - 1)) a x p w)
      as (w1 & -> & Hvp1 & Hp1 & Hi1); [done|unfold safe_integer; lia|done..|].
    assert (∀ z, a + 1 ≤ z < a + 1 + Z.of_nat n →
                 page_at argv (page w) a (Z.to_nat (z - a))
                 = page_at argv p (a + 1) (Z.to_nat (z - (a + 1)))) as Hat.
    { intros z Hz.
      replace (Z.to_nat (z - a)) with (S (Z.to_nat (z - (a + 1)))) by lia.
      cbn [page_at]. by rewrite Hp. }
    destruct (IH fuel (a + 1) w1) as (w' & Hloop & Hout & Hin);
      [lia..|done|done| |].
    { intros z Hz. rewrite Hp1, <- (Hat z Hz). apply Hev. lia. }
    replace (a + 1 + Z.of_nat n - 1) with (a + Z.of_nat (S n) - 1) in Hloop
      by lia.
    exists w'. split; [done|]. split.
    + intros k Hk. rewrite Hout.
      * rewrite Hi1. apply lookup_insert_ne. intros <-. apply (Hk a); [lia|done].
      * intros z Hz. apply Hk. lia.
    + intros z Hz. destruct (decide (z = a)) as [->|Hne].
      * exists p, x. rewrite Z.sub_diag. split; [done|]. split; [done|].
        rewrite Hout.
        -- rewrite Hi1. apply lookup_insert_eq.
        -- intros z Hz' Heq%num_inj. lia.
      * destruct (Hin z) as (q & y & Hq & Hy & Hlook); [lia|].
        exists q, y. rewrite Hat by lia. by rewrite Hp1 in Hq.
Qed.

Lemma loop_fuel_num (a b : Z) :
  loop_fuel (num a) (num b) = S (Z.to_nat (b - a + 3)).
Proof using.
  unfold loop_fuel, num. do 3 f_equal.
  change (Qc_of_Z b - Qc_of_Z a)%Qc with (Qc_of_Z b + - Qc_of_Z a)%Qc.
  rewrite <- Z2Qc_inj_opp, <- Z2Qc_inj_add. unfold Qc_of_Z. cbn [this].
  rewrite Qfloor_Z. lia.
Qed.

(** More turns do not change how a loop ends. *)
Lemma measure_loop_more_fuel (argv : Argv) (maxV : number) (fuel : nat) :
  ∀ (w : world Page) (fuel' : nat),
    (fuel ≤ fuel')%nat →
    measure_loop fuel argv maxV w ≠ Hung →
    measure_loop fuel' argv maxV w = measure_loop fuel argv maxV w.
Proof using.
  induction fuel as [|fuel IH]; intros w fuel' Hle Hne; [done|].
  destruct fuel' as [|fuel']; [lia|]. cbn [measure_loop] in Hne |- *.
  destruct (num_leb _ maxV); [|done].
  unfold mbind, M_bind in Hne |- *.
  destruct (measure argv maxV w) as [[] w1|e w1|]; [|done..].
  apply IH; [lia|done].
Qed.

(** Between integer bounds from -2^53 to 2^53 the loop ends within its
    turns: adding 1 is exact there. *)
Lemma measure_loop_ends (argv : Argv) (b : Z) (n : nat) :
  ∀ (fuel : nat) (a : Z) (w : world Page),
    (n < fuel)%nat →
    - 2 ^ 53 ≤ a → b < 2 ^ 53 → b < a + Z.of_nat n →
    VIEWPORT w = viewport_at a →
    measure_loop fuel argv (num b) w ≠ Hung.
Proof using.
  induction n as [|n IH]; intros fuel a w Hfuel Hlo Hhi Hn Hvp;
    (destruct fuel as [|fuel]; [lia|]); cbn [measure_loop];
    rewrite Hvp; cbn [vp_width viewport_at]; rewrite num_leb_num.
  { by rewrite bool_decide_eq_false_2 by lia. }
  case_bool_decide as Hab; [|done].
  unfold mbind, M_bind.
  destruct (measure argv (num b) w) as [[] w1|e w1|] eqn:Hm; [|done|].
  - apply (IH fuel (a + 1)); [lia..|].
    revert Hm.
    unfold measure, mbind, M_bind, setViewport, sleep, modify,
      evaluate_width, gets, clearLine, cursorTo_0, console_log, modify.
    destruct (page_setViewport _ _) as [e|p]; [done|]. cbn [page set_page].
    destruct (page_evaluate_width _ _) as [e|x]; [done|].
    cbn [VIEWPORT set_VIEWPORT set_imageWidths set_page vp_width].
    rewrite Hvp. cbn [viewport_at vp_width vp_height deviceScaleFactor].
    rewrite (num_add_num a 1) by (unfold safe_integer; lia).
    fold (viewport_at (a + 1)).
    destruct (verbose argv); [|by intros [= <-]].
    destruct stdout_isTTY; [|done].
    cbn [VIEWPORT set_VIEWPORT set_console vp_width viewport_at].
    destruct (num_leb _ _); by intros [= <-].
  - pose proof (measure_quiet argv (num b) w) as Hq. by rewrite Hm in Hq.
Qed.

Lemma announce_Ok (argv : Argv) (w : world Page) :
  announce argv w
  = Ok tt (said argv [Checking_widths (selector argv);
                      Current_viewport (vp_width (VIEWPORT w))] w).
Proof using.
  unfold announce, said, mbind, M_bind, gets, console_log, modify.
  destruct (verbose argv); [|done]. destruct w. unfold set_console. cbn.
  by rewrite <- app_assoc.
Qed.

Lemma output_table_Ok (argv : Argv) (w : world Page) :
  output_table argv w
  = Ok tt (said argv [Widths_table (Array_entries (imageWidths w))] w).
Proof using.
  unfold output_table, said, mbind, M_bind, gets, console_log, modify.
  by destruct (verbose argv).
Qed.

(** The three ways the variations file is dealt with: none asked for,
    written, or not writable, which is printed. *)
Lemma save_variations_cases (argv : Argv) (w : world Page) :
  (given (variationsfile argv) = None ∧ save_variations argv w = Ok tt w)
  ∨ ∃ f, given (variationsfile argv) = Some f
         ∧ ((f ∉ read_only w) ∧
            save_variations argv w
            = Ok tt (said argv [Variations_saved f]
                       (set_written
                          <[f := VariationsCsv (Array_entries (imageWidths w))]>
                          w))
            ∨ (f ∈ read_only w) ∧
              save_variations argv w
              = Ok tt (set_console
                         (λ c, c ++ [Couldnt_save_variations f
                                       (LibraryError "EACCES")]) w)).
Proof using.
  unfold save_variations.
  destruct (given (variationsfile argv)) as [f|]; [|by left].
  right. exists f. split; [done|].
  unfold mbind, M_bind, gets, catch, writeFile, console_log, modify.
  case_decide; [right|left]; (split; [done|]); [done|].
  by rewrite verbose_log_said.
Qed.

(** After the loop nothing throws, and the measurements stay as they
    are. *)
Lemma after_loop_Ok (argv : Argv) (w : world Page) :
  ∃ w', (save_variations argv;; output_table argv) w = Ok tt w'
        ∧ imageWidths w' = imageWidths w
        ∧ browser_open w' = browser_open w
        ∧ disk w' = disk w ∧ read_only w' = read_only w
        ∧ (∃ ls, console w' = console w ++ ls)
        ∧ ∀ p, given (variationsfile argv) ≠ Some p →
               written w' !! p = written w !! p.
Proof using.
  unfold mbind, M_bind.
  destruct (save_variations_cases argv w)
    as [[Hf ->]|(f & Hf & [[Hro ->]|[Hro ->]])];
    rewrite output_table_Ok; eexists; (split; [done|]);
    rewrite ?imageWidths_said, ?browser_open_said, ?disk_said,
      ?read_only_said, ?written_said, !console_said;
    cbn [imageWidths browser_open disk read_only written console
         set_written set_console];
    rewrite ?imageWidths_said, ?browser_open_said, ?disk_said,
      ?read_only_said, ?written_said, ?console_said;
    cbn [imageWidths browser_open disk read_only written console
         set_written set_console];
    split_and!; try done; try (by eexists);
    try (by rewrite <- !app_assoc; eexists).
  intros p Hp. apply lookup_insert_ne. congruence.
Qed.

Lemma measure_all_after_loop (argv : Argv) (minV maxV : number)
  (w w2 : world Page) :
  measure_loop (loop_fuel minV maxV) argv maxV
    (said argv [Checking_widths (selector argv);
                Current_viewport (vp_width (VIEWPORT w))] w) = Ok tt w2 →
  ∃ w3, measure_all argv minV maxV w = Ok tt w3
        ∧ imageWidths w3 = imageWidths w2
        ∧ browser_open w3 = browser_open w2.
Proof using.
  intros Hloop. unfold measure_all, mbind, M_bind at 1 2.
  rewrite announce_Ok, Hloop.
  destruct (after_loop_Ok argv w2) as (w3 & Hw3 & Hi & Hb & _).
  exists w3. by rewrite <- Hi, <- Hb.
Qed.

(** A rejection of the promise comes from the page load or from the loop,
    with the files untouched and no error printed. *)
Lemma profiling_Thrown_quiet (argv : Argv) (minV maxV : number)
  (w w2 : world Page) (e : error) :
  profiling argv minV maxV w = Thrown e w2 →
  quiet argv w w2 ∧ browser_open w2 = browser_open w.
Proof using.
  unfold profiling, mbind, M_bind at 1, goto.
  destruct (page_goto (page w) (url argv)) as [e'|p].
  { intros [= _ <-]. split; [apply quiet_refl|done]. }
  unfold measure_all, mbind, M_bind at 1 2. rewrite announce_Ok.
  set (w0 := said argv _ (set_page p w)).
  assert (quiet argv w w0) as Hq0.
  { subst w0. quiet_steps. }
  assert (browser_open w0 = browser_open w) as Hb0
    by (subst w0; by rewrite browser_open_said).
  pose proof (measure_loop_quiet argv maxV (loop_fuel minV maxV) w0) as Hl.
  destruct (measure_loop _ argv maxV w0) as [[] w3|e' w3|].
  - destruct (after_loop_Ok argv w3) as (w4 & Hw4 & _).
    unfold mbind in Hw4. by rewrite Hw4.
  - intros [= _ <-]. destruct Hl as [Hq Hb].
    split; [by eapply quiet_trans|congruence].
  - done.
Qed.

(** How [prepare] ends: the browser starts and gives a page, or the
    launch or the new page is rejected, which nothing catches. *)
Lemma prepare_Ok (argv : Argv) (minV : number) (p : Page) (w : world Page) :
  puppeteer_launch = None → browser_newPage = inr p →
  prepare argv minV w = Ok tt (prepared argv minV p w).
Proof using.
  intros Hl Hp.
  unfold prepare, mbind, M_bind. rewrite !verbose_log_said.
  unfold modify. rewrite !verbose_log_said.
  unfold launch, newPage. rewrite Hl, Hp, verbose_log_said.
  unfold prepared, said. destruct (verbose argv); [|done].
  destruct w.
  unfold set_console, set_page, set_browser_open, set_imageWidths,
    set_VIEWPORT. cbn. by rewrite <- !app_assoc.
Qed.

Lemma prepare_cases (argv : Argv) (minV : number) (w : world Page) :
  (∃ p, puppeteer_launch = None ∧ browser_newPage = inr p
        ∧ prepare argv minV w = Ok tt (prepared argv minV p w))
  ∨ (∃ e w', (puppeteer_launch = Some e
              ∨ puppeteer_launch = None ∧ browser_newPage = inl e)
             ∧ prepare argv minV w = Thrown e w'
             ∧ quiet argv w w').
Proof using.
  destruct puppeteer_launch as [e|] eqn:Hl.
  - right. exists e.
    unfold prepare, mbind, M_bind. rewrite !verbose_log_said.
    unfold modify. rewrite !verbose_log_said.
    unfold launch. rewrite Hl. eexists. split; [by left|]. split; [done|].
    quiet_steps.
  - destruct browser_newPage as [e|p] eqn:Hp.
    + right. exists e.
      unfold prepare, mbind, M_bind. rewrite !verbose_log_said.
      unfold modify. rewrite !verbose_log_said.
      unfold launch, newPage. rewrite Hl, Hp.
      eexists. split; [by right|]. split; [done|].
      quiet_steps.
    + left. exists p. split; [done|]. split; [done|]. by apply prepare_Ok.
Qed.

Lemma prepared_fields (argv : Argv) (minV : number) (p : Page)
  (w : world Page) :
  page (prepared argv minV p w) = p
  ∧ VIEWPORT (prepared argv minV p w)
    = {| vp_width := minV; vp_height := num 2000;
         deviceScaleFactor := num 1 |}
  ∧ imageWidths (prepared argv minV p w) = ∅
  ∧ browser_open (prepared argv minV p w) = true
  ∧ quiet argv w (prepared argv minV p w).
Proof using.
  unfold prepared. cbn. split_and!; try done. quiet_steps.
Qed.

(** The ways step 2 ends once the browser has given its page. *)
Lemma step2_cases (argv : Argv) (minV maxV : number) (p : Page)
  (w : world Page) :
  puppeteer_launch = None → browser_newPage = inr p →
  let w1 := prepared argv minV p w in
  step2 argv minV maxV w
  = match profiling argv minV maxV w1 with
    | Ok _ w2 => close w2
    | Thrown e w2 =>
        close (set_console (λ c, c ++ [Couldnt_load_page (url argv) e]) w2)
    | Hung => Hung
    end.
Proof using.
  intros Hl Hp w1. unfold step2, mbind, M_bind at 1 2.
  rewrite (prepare_Ok argv minV p w Hl Hp). fold w1. unfold catch.
  by destruct (profiling argv minV maxV w1) as [[] w2|e w2|].
Qed.

(** What step 2 throws is what the launch, the new page or the closing of
    the browser rejects with: the rejections of the page load and of the
    loop are caught. *)
Lemma step2_Thrown (argv : Argv) (minV maxV : number) (w w' : world Page)
  (e : error) :
  step2 argv minV maxV w = Thrown e w' →
  puppeteer_launch = Some e ∨ browser_newPage = inl e
  ∨ browser_close = Some e.
Proof using.
  destruct (prepare_cases argv minV w)
    as [(p & Hl & Hp & Hprep)|(e' & w1 & He' & Hprep & _)].
  - rewrite (step2_cases argv minV maxV p w Hl Hp). cbv zeta.
    unfold close.
    destruct (profiling _ _ _ _) as [[] w2|e2 w2|]; [| |done];
      destruct browser_close as [e3|]; try done; intros [= <- _]; auto.
  - unfold step2, mbind, M_bind at 1 2. rewrite Hprep.
    intros [= <- _]. destruct He' as [?|[_ ?]]; auto.
Qed.

Lemma fin_part_num_floor (z : Z) : Qfloor (fin_part (num z)) = z.
Proof using. unfold num, fin_part, Qc_of_Z. cbn [this]. apply Qfloor_Z. Qed.

Lemma num_in_range_dec (a b : Z) (k : number) :
  (∃ z, a ≤ z ≤ b ∧ k = num z) ∨ (∀ z, a ≤ z ≤ b → k ≠ num z).
Proof using.
  set (z0 := Qfloor (fin_part k)).
  destruct (decide (k = num z0 ∧ a ≤ z0 ≤ b)) as [[Hk Hz]|Hn].
  - left. by exists z0.
  - right. intros z Hz ->. apply Hn. subst z0.
    by rewrite fin_part_num_floor.
Qed.

(** C8, amended.  Between integer bounds from -2^53 to 2^53 - 1 with the
    lower one not above the upper one, when the browser starts, the page
    loads, every resize and every measurement succeeds, the browser
    closes, and [--verbose] is off or the output is a terminal, step 2
    ends and has recorded a width at every integer viewport width of the
    range, one after the other in steps of 1, each one measured on the
    page as resized to that width; nothing is recorded at any other
    key. *)
Theorem profile_covers_range
  (argv : Argv) (a b : Z) (w : world Page) (p p0 : Page) :
  a ≤ b → - 2 ^ 53 ≤ a → b < 2 ^ 53 →
  verbose argv = false ∨ stdout_isTTY = true →
  puppeteer_launch = None →
  browser_newPage = inr p →
  page_goto p (url argv) = inr p0 →
  (∀ z, a ≤ z ≤ b →
        ∃ q x, page_at argv p0 a (Z.to_nat (z - a)) = Some q
               ∧ page_evaluate_width q (selector argv) = inr x) →
  browser_close = None →
  ∃ w',
    step2 argv (num a) (num b) w = Ok tt w'
    ∧ (∀ k, is_Some (imageWidths w' !! k) ↔ ∃ z, a ≤ z ≤ b ∧ k = num z)
    ∧ (∀ z, a ≤ z ≤ b →
            ∃ q x, page_at argv p0 a (Z.to_nat (z - a)) = Some q
                   ∧ page_evaluate_width q (selector argv) = inr x
                   ∧ imageWidths w' !! num z = Some x).
Proof using.
  intros Hab Hlo Hhi Hv Hl Hp Hgoto Hev Hclose.
  destruct (prepared_fields argv (num a) p w) as (Hpg & Hvp & Hiw & _).
  set (w1 := prepared argv (num a) p w) in *.
  set (w0 := said argv [Checking_widths (selector argv);
                        Current_viewport (vp_width (VIEWPORT (set_page p0 w1)))]
               (set_page p0 w1)).
  destruct (measure_loop_records argv (Z.to_nat (b - a + 1))
              (loop_fuel (num a) (num b)) a w0)
    as (w2 & Hloop & Hout & Hin);
    [rewrite loop_fuel_num; lia|lia|lia| |done| |].
  { subst w0. by rewrite VIEWPORT_said. }
  { intros z Hz. subst w0. rewrite page_said. apply Hev. lia. }
  replace (a + Z.of_nat (Z.to_nat (b - a + 1)) - 1) with b in Hloop by lia.
  destruct (measure_all_after_loop argv (num a) (num b) (set_page p0 w1) w2
              Hloop) as (w3 & Hall & Hi3 & _).
  assert (imageWidths w0 = ∅) as Hiw0
    by (subst w0; by rewrite imageWidths_said).
  assert (page w0 = p0) as Hpg0 by (subst w0; by rewrite page_said).
  rewrite Hpg0 in Hin.
  exists (set_browser_open false w3).
  split; [|split].
  - rewrite (step2_cases argv (num a) (num b) p w Hl Hp). cbv zeta.
    fold w1. unfold profiling, mbind, M_bind, goto. rewrite Hpg, Hgoto.
    unfold mbind, M_bind in Hall. rewrite Hall.
    unfold close. by rewrite Hclose.
  - intros k. cbn [imageWidths set_browser_open]. rewrite Hi3. split.
    + intros Hk. destruct (num_in_range_dec a b k) as [|Hn]; [done|].
      rewrite Hout, Hiw0 in Hk; [by destruct Hk|].
      intros z Hz. apply Hn. lia.
    + intros (z & Hz & ->). destruct (Hin z) as (q & x & _ & _ & Hx); [lia|].
      by rewrite Hx.
  - intros z Hz. cbn [imageWidths set_browser_open]. rewrite Hi3.
    apply Hin. lia.
Qed.

(** *** The run as a whole *)

(** Step 1 touches nothing but the console, where it prints no error. *)
Lemma step1_quiet (argv : Argv) (w : world Page) :
  match step1 argv w with
  | Ok _ w' | Thrown _ w' =>
      quiet argv w w' ∧ browser_open w' = browser_open w
      ∧ imageWidths w' = imageWidths w
  | Hung => False
  end.
Proof using.
  destruct (step1_cases argv w) as (ls & Hls & [[r ->]|[e ->]]);
    rewrite browser_open_said, imageWidths_said;
    (split; [by apply quiet_said|done]).
Qed.

(** The state in which step 3 prints the perfect widths, and the one it
    leaves when no file is asked for. *)
Lemma step3_cases (argv : Argv) (contexts : list context)
  (minV maxV : number) (w : world Page) :
  let perfect := perfectWidths (imageWidths w) minV maxV contexts in
  let unsorted :=
    perfectWidths_unsorted
      (perfectWidthsTemp_totalViews (imageWidths w) minV maxV contexts) in
  let w1 :=
    said argv [Find_best_widths (widthsnumber argv); Dir_srcset []]
      (set_console (λ c, c ++ [Dir_perfectWidths perfect])
         (said argv
            [Step_banner 3; Compute_all_perfect_widths;
             Perfect_widths_computed (length unsorted);
             Dir_perfectWidths unsorted; Sort_by_percentage] w)) in
  (given (destfile argv) = None ∧ step3 argv contexts minV maxV w = Ok tt w1)
  ∨ ∃ f, given (destfile argv) = Some f
         ∧ ((f ∉ read_only w) ∧
            step3 argv contexts minV maxV w
            = Ok tt (said argv [Data_saved f]
                       (set_written
                          <[f := SrcsetTxt (url argv) (selector argv) []]> w1))
            ∨ (f ∈ read_only w) ∧
              step3 argv contexts minV maxV w
              = Ok tt (set_console
                         (λ c, c ++ [Couldnt_save_data f
                                       (LibraryError "EACCES")]) w1)).
Proof using.
  intros perfect unsorted w1.
  assert (read_only w1 = read_only w) as Hro.
  { subst w1. rewrite read_only_said. cbn [read_only set_console].
    by rewrite read_only_said. }
  unfold step3, mbind, M_bind, gets, console_log, modify.
  repeat (rewrite verbose_log_said; cbv beta iota).
  rewrite !said_said. cbn [app].
  rewrite ?imageWidths_said. cbn [imageWidths set_console].
  rewrite ?imageWidths_said. fold unsorted. fold perfect.
  change (srcset perfect (widthsnumber argv)) with (@nil number). fold w1.
  destruct (given (destfile argv)) as [f|]; [|by left].
  right. exists f. split; [done|].
  unfold catch, mbind, M_bind, writeFile, console_log, modify.
  rewrite Hro.
  case_decide; [right|left]; (split; [done|]); [done|].
  by rewrite verbose_log_said.
Qed.

Lemma main_after_step1 (argv : Argv) (w w1 : world Page)
  (contexts : list context) (minV maxV : number) :
  step1 argv w = Ok (contexts, minV, maxV) w1 →
  main argv w
  = (step2 argv minV maxV;; step3 argv contexts minV maxV) w1.
Proof using. intros H1. unfold main, mbind, M_bind at 1. by rewrite H1. Qed.

(** C2, amended.  When profiling fails, at the page load or at a
    measurement, the error is caught and printed, and the run goes on to
    its end: the browser is closed, the perfect widths are computed from
    the widths recorded before the failure, and the final file is written
    when one was asked for and can be written. *)
Theorem failed_profiling_is_reported_and_run_goes_on
  (argv : Argv) (w w1 w1' w2 : world Page) (contexts : list context)
  (minV maxV : number) (e : error) :
  step1 argv w = Ok (contexts, minV, maxV) w1 →
  prepare argv minV w1 = Ok tt w1' →
  profiling argv minV maxV w1' = Thrown e w2 →
  browser_close = None →
  ∃ w',
    main argv w = Ok tt w'
    ∧ browser_open w' = false
    ∧ Couldnt_load_page (url argv) e ∈ console w'
    ∧ Dir_perfectWidths (perfectWidths (imageWidths w2) minV maxV contexts)
      ∈ console w'
    ∧ ∀ f, given (destfile argv) = Some f → f ∉ read_only w →
           written w'
           = <[f := SrcsetTxt (url argv) (selector argv) []]> (written w).
Proof using.
  intros Hstep1 Hprep Hfail Hclose.
  pose proof (step1_quiet argv w) as H1. rewrite Hstep1 in H1.
  destruct H1 as ((_ & Hro1 & Hwr1 & _) & _).
  destruct (prepare_cases argv minV w1)
    as [(p & Hl & Hp & Hprep')|(e' & w' & _ & Hprep' & _)];
    rewrite Hprep in Hprep'; [|done]. injection Hprep' as ->.
  destruct (prepared_fields argv minV p w1)
    as (_ & _ & _ & _ & (_ & Hro2 & Hwr2 & _)).
  pose proof (profiling_Thrown_quiet _ _ _ _ _ _ Hfail)
    as ((_ & Hro3 & Hwr3 & _) & _).
  rewrite (main_after_step1 _ _ _ _ _ _ Hstep1).
  unfold mbind, M_bind.
  rewrite (step2_cases argv minV maxV p w1 Hl Hp). cbv zeta.
  rewrite Hfail. unfold close. rewrite Hclose.
  set (w3 := set_browser_open false _).
  assert (read_only w3 = read_only w) as Hro by (cbn; congruence).
  assert (written w3 = written w) as Hwr by (cbn; congruence).
  assert (Couldnt_load_page (url argv) e ∈ console w3) as Hc.
  { cbn. apply elem_of_app. right. by apply list_elem_of_singleton. }
  assert (imageWidths w3 = imageWidths w2) as Hiw by done.
  destruct (step3_cases argv contexts minV maxV w3)
    as [[Hf ->]|(f & Hf & [[Hin ->]|[Hin ->]])];
    rewrite Hiw; eexists; (split; [done|]);
    rewrite ?browser_open_said, ?written_said, ?console_said;
    cbn [browser_open written console set_written set_console];
    rewrite ?browser_open_said, ?written_said, ?console_said;
    cbn [browser_open written console set_written set_console];
    rewrite ?browser_open_said, ?written_said, ?console_said;
    (split; [done|]);
    (split; [rewrite !elem_of_app; auto 10|]);
    (split; [rewrite !elem_of_app, !list_elem_of_singleton; auto 10|]).
  - intros f' Hf'. congruence.
  - intros f' Hf' _. rewrite Hwr. congruence.
  - intros f' Hf' Hnot. exfalso. apply Hnot. congruence.
Qed.

(** ** More properties of the script *)

(** *** The order on numbers *)

Lemma num_ltb_negb_leb (x y : number) :
  x ≠ NaN → y ≠ NaN → num_ltb x y = negb (num_leb y x).
Proof using.
  intros Hx Hy. destruct x as [a| | |], y as [b| | |]; try done. simpl.
  case_bool_decide as H1; case_bool_decide as H2; try done.
  - by apply Qclt_not_le in H1.
  - by apply Qcnot_lt_le in H1.
Qed.

Lemma num_leb_refl (x : number) : x ≠ NaN → num_leb x x.
Proof using.
  intros Hx. destruct x as [a| | |]; try done. simpl.
  apply bool_decide_pack, Qcle_refl.
Qed.

Lemma num_leb_trans (x y z : number) :
  num_leb x y → num_leb y z → num_leb x z.
Proof using.
  destruct x as [a| | |], y as [b| | |], z as [c| | |]; try done. simpl.
  rewrite !bool_decide_spec. apply Qcle_trans.
Qed.

Lemma num_leb_not_NaN (x y : number) : num_leb x y → x ≠ NaN ∧ y ≠ NaN.
Proof using. by destruct x, y. Qed.

Lemma num_ltb_leb (x y : number) : num_ltb x y → num_leb x y.
Proof using.
  destruct x as [a| | |], y as [b| | |]; try done. simpl.
  rewrite !bool_decide_spec. apply Qclt_le_weak.
Qed.

(** [v >= Math.max(a, b)] is [v >= a && v >= b], NaN included. *)
Lemma num_geb_Math_max (v a b : number) :
  num_geb v (Math_max a b) = num_geb v a && num_geb v b.
Proof using.
  unfold num_geb.
  destruct (decide (a = NaN)) as [->|Ha]; [done|].
  destruct (decide (b = NaN)) as [->|Hb].
  { destruct a; simpl; by rewrite ?andb_false_r. }
  assert (Math_max a b = if num_ltb a b then b else a) as ->
    by by destruct a, b.
  destruct (num_ltb a b) eqn:Hab.
  - destruct (num_leb b v) eqn:Hbv; [|by rewrite andb_false_r].
    rewrite andb_true_r. symmetry. apply Is_true_true.
    eapply num_leb_trans; [|by apply Is_true_true].
    apply num_ltb_leb. by apply Is_true_true.
  - destruct (num_leb a v) eqn:Hav; [|done]. simpl. symmetry.
    apply Is_true_true. eapply num_leb_trans; [|by apply Is_true_true].
    rewrite num_ltb_negb_leb in Hab by done.
    apply negb_false_iff in Hab. by apply Is_true_true.
Qed.

(** [v <= Math.min(a, b)] is [v <= a && v <= b], NaN included. *)
Lemma num_leb_Math_min (v a b : number) :
  num_leb v (Math_min a b) = num_leb v a && num_leb v b.
Proof using.
  destruct (decide (a = NaN)) as [->|Ha]; [by destruct v|].
  destruct (decide (b = NaN)) as [->|Hb].
  { destruct a, v; simpl; by rewrite ?andb_false_r. }
  assert (Math_min a b = if num_ltb b a then b else a) as ->
    by by destruct a, b.
  destruct (num_ltb b a) eqn:Hab.
  - destruct (num_leb v b) eqn:Hvb; [|by rewrite andb_false_r].
    rewrite andb_true_r. symmetry. apply Is_true_true.
    eapply num_leb_trans; [by apply Is_true_true|].
    apply num_ltb_leb. by apply Is_true_true.
  - destruct (num_leb v a) eqn:Hva; [|done]. simpl. symmetry.
    apply Is_true_true. eapply num_leb_trans; [by apply Is_true_true|].
    rewrite num_ltb_negb_leb in Hab by done.
    apply negb_false_iff in Hab. by apply Is_true_true.
Qed.

(** *** The range of viewports *)

(** X1.  A context passes the test of step 3 exactly when its viewport is
    within the range of the contexts and within the bounds given on the
    command line: [Math.max] and [Math.min] make the considered range the
    intersection of the two, and a NaN on either side empties it. *)
Theorem considered_in_both_ranges
  (argv : Argv) (contextMin contextMax : number) (c : context) :
  considered (minViewport argv contextMin) (maxViewport argv contextMax) c
  = considered contextMin contextMax c && within_options argv (viewport c).
Proof using.
  unfold considered, minViewport, maxViewport, within_options.
  destruct (minviewport argv) as [lo|], (maxviewport argv) as [hi|];
    rewrite ?num_geb_Math_max, ?num_leb_Math_min;
    repeat match goal with |- context [num_geb ?x ?y] =>
      destruct (num_geb x y) end;
    repeat match goal with |- context [num_leb ?x ?y] =>
      destruct (num_leb x y) end;
    reflexivity.
Qed.

Lemma contextMinViewport_min (contexts : list context) :
  ∀ init, init ≠ NaN →
    let m := contextMinViewport contexts init in
    num_leb m init
    ∧ ∀ c, c ∈ contexts → viewport c ≠ NaN → num_leb m (viewport c).
Proof using.
  unfold contextMinViewport.
  induction contexts as [|c l IH]; intros init Hinit; cbn [fold_left].
  { split; [by apply num_leb_refl|]. by intros c Hc%elem_of_nil. }
  set (init' := if num_ltb (viewport c) init then viewport c else init).
  assert (num_leb init' init) as Hle.
  { subst init'. destruct (num_ltb (viewport c) init) eqn:Hlt.
    - apply num_ltb_leb. by apply Is_true_true.
    - by apply num_leb_refl. }
  assert (viewport c ≠ NaN → num_leb init' (viewport c)) as Hc.
  { intros Hv. subst init'. destruct (num_ltb (viewport c) init) eqn:Hlt.
    - by apply num_leb_refl.
    - rewrite num_ltb_negb_leb in Hlt by done.
      apply negb_false_iff in Hlt. by apply Is_true_true. }
  destruct (IH init') as [Hm Hall].
  { by apply num_leb_not_NaN in Hle as [? _]. }
  split; [by eapply num_leb_trans|].
  intros c' [->|Hin]%elem_of_cons Hv.
  - eapply num_leb_trans; [done|by apply Hc].
  - by apply Hall.
Qed.

Lemma contextMaxViewport_max (contexts : list context) :
  ∀ init, init ≠ NaN →
    let m := contextMaxViewport contexts init in
    num_leb init m
    ∧ ∀ c, c ∈ contexts → viewport c ≠ NaN → num_leb (viewport c) m.
Proof using.
  unfold contextMaxViewport.
  induction contexts as [|c l IH]; intros init Hinit; cbn [fold_left].
  { split; [by apply num_leb_refl|]. by intros c Hc%elem_of_nil. }
  set (init' := if num_gtb (viewport c) init then viewport c else init).
  assert (num_leb init init') as Hle.
  { subst init'. unfold num_gtb.
    destruct (num_ltb init (viewport c)) eqn:Hlt.
    - apply num_ltb_leb. by apply Is_true_true.
    - by apply num_leb_refl. }
  assert (viewport c ≠ NaN → num_leb (viewport c) init') as Hc.
  { intros Hv. subst init'. unfold num_gtb.
    destruct (num_ltb init (viewport c)) eqn:Hlt.
    - by apply num_leb_refl.
    - rewrite num_ltb_negb_leb in Hlt by done.
      apply negb_false_iff in Hlt. by apply Is_true_true. }
  destruct (IH init') as [Hm Hall].
  { by apply num_leb_not_NaN in Hle as [_ ?]. }
  split; [by eapply num_leb_trans|].
  intros c' [->|Hin]%elem_of_cons Hv.
  - eapply num_leb_trans; [by apply Hc|done].
  - by apply Hall.
Qed.

(** The result of either [reduce] is its initial value or a viewport. *)
Lemma contextMinViewport_elem (contexts : list context) (init : number) :
  contextMinViewport contexts init ∈ init :: (viewport <$> contexts).
Proof using.
  unfold contextMinViewport. revert init.
  induction contexts as [|c l IH]; intros init; cbn [fold_left].
  { left. }
  rewrite fmap_cons.
  specialize (IH (if num_ltb (viewport c) init then viewport c else init)).
  apply elem_of_cons in IH as [->|IH].
  - destruct (num_ltb (viewport c) init); [right; left|left].
  - by do 2 right.
Qed.

Lemma contextMaxViewport_elem (contexts : list context) (init : number) :
  contextMaxViewport contexts init ∈ init :: (viewport <$> contexts).
Proof using.
  unfold contextMaxViewport. revert init.
  induction contexts as [|c l IH]; intros init; cbn [fold_left].
  { left. }
  rewrite fmap_cons.
  specialize (IH (if num_gtb (viewport c) init then viewport c else init)).
  apply elem_of_cons in IH as [->|IH].
  - destruct (num_gtb (viewport c) init); [right; left|left].
  - by do 2 right.
Qed.

(** X2.  When the viewport of the first context is a number, the two
    [reduce] calls give the least and the greatest viewport of the
    contexts, rows whose viewport is NaN apart: both are viewports of the
    file, and every context whose viewport is a number passes the test of
    step 3 on the range they bound. *)
Theorem context_range_is_tight (c0 : context) (l : list context) :
  viewport c0 ≠ NaN →
  let contextMin := contextMinViewport (c0 :: l) (viewport c0) in
  let contextMax := contextMaxViewport (c0 :: l) (viewport c0) in
  contextMin ∈ viewport <$> c0 :: l
  ∧ contextMax ∈ viewport <$> c0 :: l
  ∧ Forall (λ c, viewport c ≠ NaN → considered contextMin contextMax c)
      (c0 :: l).
Proof using.
  intros H0 contextMin contextMax. split; [|split].
  - pose proof (contextMinViewport_elem (c0 :: l) (viewport c0)) as Hin.
    apply elem_of_cons in Hin as [Hin|Hin]; [|done].
    fold contextMin in Hin. rewrite Hin, fmap_cons. left.
  - pose proof (contextMaxViewport_elem (c0 :: l) (viewport c0)) as Hin.
    apply elem_of_cons in Hin as [Hin|Hin]; [|done].
    fold contextMax in Hin. rewrite Hin, fmap_cons. left.
  - apply Forall_forall. intros c Hc Hv. unfold considered, num_geb.
    destruct (contextMinViewport_min (c0 :: l) (viewport c0) H0) as [_ Hmin].
    destruct (contextMaxViewport_max (c0 :: l) (viewport c0) H0) as [_ Hmax].
    apply andb_True. split; [by apply Hmin|by apply Hmax].
Qed.

Lemma contextMinViewport_NaN (contexts : list context) :
  contextMinViewport contexts NaN = NaN.
Proof using.
  unfold contextMinViewport. induction contexts as [|c l IH]; [done|].
  cbn [fold_left]. by destruct (viewport c).
Qed.

Lemma contextMaxViewport_NaN (contexts : list context) :
  contextMaxViewport contexts NaN = NaN.
Proof using.
  unfold contextMaxViewport. induction contexts as [|c l IH]; [done|].
  cbn [fold_left]. by destruct (viewport c).
Qed.

Lemma considered_NaN_l (maxV : number) (c : context) :
  considered NaN maxV c = false.
Proof using. unfold considered, num_geb. by destruct (viewport c). Qed.

Lemma perfectWidths_nothing_considered imgWidths minV maxV contexts :
  Forall (λ c, considered minV maxV c = false) contexts →
  perfectWidths imgWidths minV maxV contexts = [].
Proof using.
  intros Hall.
  assert (perfectWidthsTemp_totalViews imgWidths minV maxV contexts
          = (∅, num 0)) as Hacc.
  { unfold perfectWidthsTemp_totalViews.
    induction Hall as [|c l Hc _ IH]; [done|].
    cbn [fold_left]. by rewrite count_views_skip. }
  unfold perfectWidths. rewrite Hacc. reflexivity.
Qed.

(** X3.  When the viewport of the first context is NaN, both bounds of
    the range are NaN whatever the other rows and the options hold: no
    context passes the test of step 3, and there is no perfect width. *)
Theorem first_viewport_NaN_empties_the_range
  (argv : Argv) (c0 : context) (l : list context)
  (imgWidths : gmap number number) :
  viewport c0 = NaN →
  let minV :=
    minViewport argv (contextMinViewport (c0 :: l) (viewport c0)) in
  let maxV :=
    maxViewport argv (contextMaxViewport (c0 :: l) (viewport c0)) in
  minV = NaN ∧ maxV = NaN
  ∧ perfectWidths imgWidths minV maxV (c0 :: l) = [].
Proof using.
  intros H0 minV maxV.
  assert (minV = NaN) as Hmin.
  { subst minV. rewrite H0, contextMinViewport_NaN. unfold minViewport.
    by destruct (minviewport argv). }
  assert (maxV = NaN) as Hmax.
  { subst maxV. rewrite H0, contextMaxViewport_NaN. unfold maxViewport.
    by destruct (maxviewport argv). }
  split; [done|]. split; [done|]. rewrite Hmin.
  apply perfectWidths_nothing_considered, Forall_forall.
  intros c _. apply considered_NaN_l.
Qed.

(** What step 1 throws. *)
Lemma step1_Thrown (argv : Argv) (w w' : world Page) (e : error) :
  step1 argv w = Thrown e w' →
  e = LibraryError "ENOENT" ∨ e = LibraryError "csv-parse"
  ∨ e = TypeError "Cannot read property 'viewport' of undefined".
Proof using.
  destruct (disk w !! contextsfile argv) as [text|] eqn:Hdisk.
  - destruct (csv_records text) as [records|] eqn:Hrec.
    + assert (∃ cs, ∀ w0 : world Page, contexts_of text w0 = Ok cs w0)
        as [cs Hc].
      { unfold contexts_of, csvparse. rewrite Hrec. by eexists. }
      rewrite (step1_read argv w text cs Hdisk (Hc _)).
      destruct cs as [|c l]; [|done]. intros [= <- _]. auto.
    + rewrite (contexts_reader_failure argv w text Hdisk Hrec).
      intros [= <- _]. auto.
  - unfold step1, mbind, M_bind. rewrite verbose_log_said.
    unfold readFileSync. rewrite disk_said, Hdisk. intros [= <- _]. auto.
Qed.

(** X4.  What a run throws is an error of step 1, which is the missing
    file, the error of csv-parse or the TypeError of the empty list of
    contexts, with nothing done by then but the printing of the lines of
    [--verbose]; or else it is what the launch of the browser, its new
    page or its closing rejects with: the errors of the page load, of the
    loop and of the two files are caught, and never end the run. *)
Theorem main_throws_only_uncaught_errors
  (argv : Argv) (w w' : world Page) (e : error) :
  main argv w = Thrown e w' →
  (step1 argv w = Thrown e w'
   ∧ (∃ ls, w' = said argv ls w)
   ∧ (e = LibraryError "ENOENT" ∨ e = LibraryError "csv-parse"
      ∨ e = TypeError "Cannot read property 'viewport' of undefined"))
  ∨ ((∃ r w1, step1 argv w = Ok r w1)
     ∧ (puppeteer_launch = Some e ∨ browser_newPage = inl e
        ∨ browser_close = Some e)).
Proof using.
  intros Hmain.
  destruct (step1 argv w) as [[[contexts minV] maxV] w1|e1 w1|] eqn:H1.
  - right. split; [by eauto|].
    rewrite (main_after_step1 _ _ _ _ _ _ H1) in Hmain.
    unfold mbind, M_bind in Hmain.
    destruct (step2 argv minV maxV w1) as [[] w2|e2 w2|] eqn:Hs2; [| |done].
    + by destruct (step3_Ok argv contexts minV maxV w2) as [w3 Hw3];
        rewrite Hw3 in Hmain.
    + injection Hmain as <- _. by apply step2_Thrown in Hs2.
  - left. unfold main, mbind, M_bind in Hmain. rewrite H1 in Hmain.
    injection Hmain as <- <-. split; [done|]. split.
    + destruct (step1_cases argv w) as (ls & _ & [[r Hr]|[e' He']]);
        [congruence|]. rewrite H1 in He'. injection He' as _ ->.
      by exists ls.
    + by apply step1_Thrown in H1.
  - pose proof (step1_quiet argv w) as Hq. by rewrite H1 in Hq.
Qed.

(** The loop ends between integer bounds from -2^53 to 2^53 - 1, and when
    a bound is NaN. *)
Lemma measure_loop_never_hangs (argv : Argv) (minV maxV : number)
  (w : world Page) :
  VIEWPORT w
  = {| vp_width := minV; vp_height := num 2000; deviceScaleFactor := num 1 |} →
  minV = NaN ∨ maxV = NaN
  ∨ (∃ a b, minV = num a ∧ maxV = num b ∧ - 2 ^ 53 ≤ a ∧ b < 2 ^ 53) →
  measure_loop (loop_fuel minV maxV) argv maxV w ≠ Hung.
Proof using.
  intros Hvp [->|[->|(a & b & -> & -> & Hlo & Hhi)]].
  - cbn [loop_fuel measure_loop]. by rewrite Hvp.
  - assert (loop_fuel minV NaN = 1%nat) as -> by by destruct minV.
    cbn [measure_loop]. rewrite Hvp. cbn [vp_width]. by destruct minV.
  - apply (measure_loop_ends argv b (Z.to_nat (b - a + 1)) _ a);
      [rewrite loop_fuel_num; lia|lia..|done].
Qed.

Lemma profiling_never_hangs (argv : Argv) (minV maxV : number)
  (w : world Page) :
  VIEWPORT w
  = {| vp_width := minV; vp_height := num 2000; deviceScaleFactor := num 1 |} →
  minV = NaN ∨ maxV = NaN
  ∨ (∃ a b, minV = num a ∧ maxV = num b ∧ - 2 ^ 53 ≤ a ∧ b < 2 ^ 53) →
  profiling argv minV maxV w ≠ Hung.
Proof using.
  intros Hvp Hrange. unfold profiling, mbind, M_bind at 1, goto.
  destruct (page_goto (page w) (url argv)) as [e|p]; [done|].
  unfold measure_all, mbind, M_bind at 1 2. rewrite announce_Ok.
  set (w0 := said argv _ (set_page p w)).
  assert (VIEWPORT w0 = VIEWPORT w) as Hvp0
    by (subst w0; by rewrite VIEWPORT_said).
  rewrite <- Hvp0 in Hvp.
  pose proof (measure_loop_never_hangs argv minV maxV w0 Hvp Hrange) as Hl.
  destruct (measure_loop _ argv maxV w0) as [[] w2|e w2|]; [|done..].
  destruct (after_loop_Ok argv w2) as (w3 & Hw3 & _).
  unfold mbind in Hw3. by rewrite Hw3.
Qed.

Lemma step2_never_hangs (argv : Argv) (minV maxV : number) (w : world Page) :
  minV = NaN ∨ maxV = NaN
  ∨ (∃ a b, minV = num a ∧ maxV = num b ∧ - 2 ^ 53 ≤ a ∧ b < 2 ^ 53) →
  step2 argv minV maxV w ≠ Hung.
Proof using.
  intros Hrange.
  destruct (prepare_cases argv minV w)
    as [(p & Hl & Hp & Hprep)|(e' & w1 & _ & Hprep & _)].
  - rewrite (step2_cases argv minV maxV p w Hl Hp). cbv zeta.
    destruct (prepared_fields argv minV p w) as (_ & Hvp & _).
    pose proof (profiling_never_hangs argv minV maxV _ Hvp Hrange) as Hh.
    unfold close.
    destruct (profiling _ _ _ _) as [[] w2|e2 w2|]; [| |done];
      by destruct browser_close.
  - unfold step2, mbind, M_bind at 1 2. by rewrite Hprep.
Qed.

(** X5.  A run whose range of viewports goes from an integer not below
    -2^53 to an integer below 2^53, or has NaN for a bound, ends: the
    loop of step 2 adds 1 to the width exactly, and runs one turn per
    width of the range, or none. *)
Theorem main_never_hangs
  (argv : Argv) (w w1 : world Page) (contexts : list context)
  (minV maxV : number) :
  step1 argv w = Ok (contexts, minV, maxV) w1 →
  minV = NaN ∨ maxV = NaN
  ∨ (∃ a b, minV = num a ∧ maxV = num b ∧ - 2 ^ 53 ≤ a ∧ b < 2 ^ 53) →
  main argv w ≠ Hung.
Proof using.
  intros H1 Hrange. rewrite (main_after_step1 _ _ _ _ _ _ H1).
  unfold mbind, M_bind.
  pose proof (step2_never_hangs argv minV maxV w1 Hrange) as Hs2.
  destruct (step2 argv minV maxV w1) as [[] w2|e2 w2|]; [|done..].
  by destruct (step3_Ok argv contexts minV maxV w2) as [w3 ->].
Qed.

(** What step 2 leaves when it ends. *)
Lemma step2_frame (argv : Argv) (minV maxV : number) (w w' : world Page) :
  step2 argv minV maxV w = Ok tt w' →
  browser_open w' = false
  ∧ disk w' = disk w ∧ read_only w' = read_only w
  ∧ (∃ l, console w' = console w ++ l)
  ∧ ∀ p, given (variationsfile argv) ≠ Some p →
         written w' !! p = written w !! p.
Proof using.
  intros Hs2.
  destruct (prepare_cases argv minV w)
    as [(p & Hl & Hp & Hprep)|(e' & w1 & _ & Hprep & _)].
  2: { unfold step2, mbind, M_bind at 1 2 in Hs2. by rewrite Hprep in Hs2. }
  rewrite (step2_cases argv minV maxV p w Hl Hp) in Hs2. cbv zeta in Hs2.
  destruct (prepared_fields argv minV p w)
    as (_ & _ & _ & _ & (Hd1 & Hr1 & Hw1 & l1 & Hc1 & _)).
  set (w1 := prepared argv minV p w) in *.
  unfold close in Hs2.
  destruct (profiling argv minV maxV w1) as [[] w2|e w2|] eqn:Hprof;
    [| |done]; (destruct browser_close; [done|]); injection Hs2 as <-;
    cbn [browser_open disk read_only console written set_browser_open
         set_console].
  - revert Hprof. unfold profiling, mbind, M_bind at 1, goto.
    destruct (page_goto (page w1) (url argv)) as [e|p0]; [done|].
    unfold measure_all, mbind, M_bind at 1 2. rewrite announce_Ok.
    set (w0 := said argv _ (set_page p0 w1)).
    assert (quiet argv w1 w0) as (Hd0 & Hr0 & Hw0 & l0 & Hc0 & _)
      by (subst w0; quiet_steps).
    pose proof (measure_loop_quiet argv maxV (loop_fuel minV maxV) w0) as Hl'.
    destruct (measure_loop _ argv maxV w0) as [[] w3|e w3|]; [|done..].
    destruct Hl' as [(Hd3 & Hr3 & Hw3 & l3 & Hc3 & _) _].
    destruct (after_loop_Ok argv w3)
      as (w4 & Hw4 & _ & _ & Hd4 & Hr4 & [l4 Hc4] & Hwr4).
    unfold mbind in Hw4. rewrite Hw4. intros [= <-].
    split; [done|]. split; [congruence|]. split; [congruence|].
    split.
    + exists (l1 ++ l0 ++ l3 ++ l4).
      by rewrite Hc4, Hc3, Hc0, Hc1, <- !app_assoc.
    + intros q Hq. rewrite (Hwr4 q Hq). congruence.
  - apply profiling_Thrown_quiet in Hprof
      as [(Hd2 & Hr2 & Hw2 & l2 & Hc2 & _) _].
    split; [done|]. split; [congruence|]. split; [congruence|].
    split.
    + eexists. by rewrite Hc2, Hc1, <- !app_assoc.
    + intros q _. congruence.
Qed.

Lemma step3_frame (argv : Argv) (contexts : list context)
  (minV maxV : number) (w w' : world Page) :
  step3 argv contexts minV maxV w = Ok tt w' →
  browser_open w' = browser_open w
  ∧ disk w' = disk w ∧ read_only w' = read_only w
  ∧ (∃ l, console w' = console w ++ l)
  ∧ ∀ p, given (destfile argv) ≠ Some p →
         written w' !! p = written w !! p.
Proof using.
  intros Hs3.
  destruct (step3_cases argv contexts minV maxV w)
    as [[Hf Hs]|(f & Hf & [[_ Hs]|[_ Hs]])];
    rewrite Hs in Hs3; injection Hs3 as <-;
    rewrite ?browser_open_said, ?disk_said, ?read_only_said, ?written_said,
      ?console_said;
    cbn [browser_open disk read_only written console set_written
         set_console];
    rewrite ?browser_open_said, ?disk_said, ?read_only_said, ?written_said,
      ?console_said;
    cbn [browser_open disk read_only written console set_written
         set_console];
    rewrite ?browser_open_said, ?disk_said, ?read_only_said, ?written_said,
      ?console_said;
    split_and!; try done; try (by rewrite <- !app_assoc; eexists).
  intros q Hq. apply lookup_insert_ne. congruence.
Qed.

(** X6.  A run that ends normally leaves the browser closed, has not
    touched the files it can read, has only added lines to the console,
    and has written to no other path than the variations file and the
    destination file of the options. *)
Theorem main_frame (argv : Argv) (w w' : world Page) :
  main argv w = Ok tt w' →
  browser_open w' = false
  ∧ disk w' = disk w ∧ read_only w' = read_only w
  ∧ (∃ l, console w' = console w ++ l)
  ∧ ∀ p, given (variationsfile argv) ≠ Some p →
         given (destfile argv) ≠ Some p →
         written w' !! p = written w !! p.
Proof using.
  intros Hmain.
  pose proof (step1_quiet argv w) as Hq.
  destruct (step1 argv w) as [[[contexts minV] maxV] w1|e1 w1|] eqn:H1;
    [|unfold main, mbind, M_bind in Hmain; by rewrite H1 in Hmain|done].
  destruct Hq as ((Hd1 & Hr1 & Hw1 & l1 & Hc1 & _) & _).
  rewrite (main_after_step1 _ _ _ _ _ _ H1) in Hmain.
  unfold mbind, M_bind in Hmain.
  destruct (step2 argv _ _ w1) as [[] w2|e w2|] eqn:Hs2; [|done..].
  apply step2_frame in Hs2 as (Hb2 & Hd2 & Hr2 & [l2 Hc2] & Hw2).
  apply step3_frame in Hmain as (Hb3 & Hd3 & Hr3 & [l3 Hc3] & Hw3).
  split; [congruence|]. split; [congruence|]. split; [congruence|].
  split.
  - exists (l1 ++ l2 ++ l3). by rewrite Hc3, Hc2, Hc1, <- !app_assoc.
  - intros p Hv Hf. rewrite Hw3, Hw2 by done. congruence.
Qed.

(** X7.  When the browser starts and closes and profiling fails, step 2
    writes no variations file: it ends with the written files as they
    were, and what it has printed is the error of the failure, after the
    lines of [--verbose] if the option is set. *)
Theorem failed_profiling_writes_no_variations
  (argv : Argv) (minV maxV : number) (p : Page) (w w2 : world Page)
  (e : error) :
  puppeteer_launch = None → browser_newPage = inr p → browser_close = None →
  profiling argv minV maxV (prepared argv minV p w) = Thrown e w2 →
  ∃ w', step2 argv minV maxV w = Ok tt w'
        ∧ written w' = written w
        ∧ (∃ ls, console w'
                 = console w ++ ls ++ [Couldnt_load_page (url argv) e]
                 ∧ progress_lines argv ls)
        ∧ imageWidths w' = imageWidths w2.
Proof using.
  intros Hl Hp Hclose Hprof.
  rewrite (step2_cases argv minV maxV p w Hl Hp). cbv zeta.
  rewrite Hprof. unfold close. rewrite Hclose.
  eexists. split; [done|].
  destruct (prepared_fields argv minV p w)
    as (_ & _ & _ & _ & (_ & _ & Hw1 & l1 & Hc1 & Hp1)).
  apply profiling_Thrown_quiet in Hprof as [(_ & _ & Hw2 & l2 & Hc2 & Hp2) _].
  cbn [written console imageWidths set_browser_open set_console].
  split; [congruence|]. split; [|done].
  exists (l1 ++ l2). split; [by rewrite Hc2, Hc1, <- !app_assoc|].
  by apply progress_lines_app.
Qed.

(** *** Runs that do not end, and runs that end early *)

(** A turn on a page that answers every call. *)
Lemma measure_succeeds (argv : Argv) (maxV : number) (w : world Page) :
  (∀ p v, ∃ p', page_setViewport p v = inr p') →
  (∀ p, ∃ y, page_evaluate_width p (selector argv) = inr y) →
  verbose argv = false ∨ stdout_isTTY = true →
  ∃ w1, measure argv maxV w = Ok tt w1
        ∧ vp_width (VIEWPORT w1) = num_add (vp_width (VIEWPORT w)) (num 1).
Proof using.
  intros Hsv Hev Hv.
  unfold measure, mbind, M_bind, setViewport, sleep, modify, evaluate_width,
    gets, clearLine, cursorTo_0, console_log, modify.
  destruct (Hsv (page w) (VIEWPORT w)) as [p ->]. cbn [page set_page].
  destruct (Hev (page_sleep p (delay argv))) as [y ->].
  cbn [VIEWPORT set_VIEWPORT set_imageWidths set_page vp_width].
  destruct (verbose argv); [|by eexists].
  destruct Hv as [?|Htty]; [done|]. rewrite Htty.
  cbn [VIEWPORT set_VIEWPORT set_console vp_width].
  destruct (num_leb _ maxV); by eexists.
Qed.

(** From a width that adding 1 leaves as it is, and within the range, no
    number of turns ends the loop on a page that answers every call. *)
Lemma measure_loop_stuck (argv : Argv) (maxV x : number) :
  num_add x (num 1) = x → num_leb x maxV →
  (∀ p v, ∃ p', page_setViewport p v = inr p') →
  (∀ p, ∃ y, page_evaluate_width p (selector argv) = inr y) →
  verbose argv = false ∨ stdout_isTTY = true →
  ∀ (fuel : nat) (w : world Page),
    vp_width (VIEWPORT w) = x → measure_loop fuel argv maxV w = Hung.
Proof using.
  intros Hx Hle Hsv Hev Hv. induction fuel as [|fuel IH]; intros w Hw; [done|].
  cbn [measure_loop]. rewrite Hw, (Is_true_true_1 _ Hle).
  unfold mbind, M_bind.
  destruct (measure_succeeds argv maxV w Hsv Hev Hv) as (w1 & -> & Hw1).
  apply IH. by rewrite Hw1, Hw.
Qed.

(** At 2^53, 1 is half of the distance to the next double, and the sum
    is rounded back to 2^53. *)
Lemma num_add_2_53 : num_add (num (2 ^ 53)) (num 1) = num (2 ^ 53).
Proof using. by_decide. Qed.

(** X16.  A range that holds 2^53 and starts there is never measured to
    its end: on a page that answers every call, the loop of step 2 stays
    at the width 2^53 whatever the number of its turns, and step 2 does
    not end. *)
Theorem loop_from_2_53_never_ends
  (argv : Argv) (maxV : number) (p p0 : Page) (w : world Page) :
  num_leb (num (2 ^ 53)) maxV →
  puppeteer_launch = None →
  browser_newPage = inr p →
  page_goto p (url argv) = inr p0 →
  (∀ q v, ∃ q', page_setViewport q v = inr q') →
  (∀ q, ∃ y, page_evaluate_width q (selector argv) = inr y) →
  verbose argv = false ∨ stdout_isTTY = true →
  (∀ (fuel : nat) (w0 : world Page),
     vp_width (VIEWPORT w0) = num (2 ^ 53) →
     measure_loop fuel argv maxV w0 = Hung)
  ∧ step2 argv (num (2 ^ 53)) maxV w = Hung.
Proof using.
  intros Hle Hl Hp Hgoto Hsv Hev Hv.
  pose proof (measure_loop_stuck argv maxV (num (2 ^ 53)) num_add_2_53 Hle
                Hsv Hev Hv) as Hstuck.
  split; [exact Hstuck|].
  rewrite (step2_cases argv (num (2 ^ 53)) maxV p w Hl Hp). cbv zeta.
  destruct (prepared_fields argv (num (2 ^ 53)) p w) as (Hpg & Hvp & _).
  unfold profiling, mbind, M_bind at 1, goto. rewrite Hpg, Hgoto.
  unfold measure_all, mbind, M_bind at 1 2. rewrite announce_Ok.
  rewrite Hstuck; [done|].
  rewrite VIEWPORT_said. cbn [VIEWPORT set_page]. by rewrite Hvp.
Qed.

(** X17.  Under [--verbose] with an output that is not a terminal,
    step 2 on a range that is not empty records the first width and no
    other: the call that clears the line throws, which ends the loop and
    is reported as a page that could not be loaded; no variations file is
    written. *)
Theorem verbose_without_terminal_records_one_width
  (argv : Argv) (minV maxV x : number) (p p0 p1 : Page) (w : world Page) :
  verbose argv = true →
  stdout_isTTY = false →
  num_leb minV maxV →
  puppeteer_launch = None →
  browser_newPage = inr p →
  page_goto p (url argv) = inr p0 →
  page_setViewport p0
    {| vp_width := minV; vp_height := num 2000; deviceScaleFactor := num 1 |}
  = inr p1 →
  page_evaluate_width (page_sleep p1 (delay argv)) (selector argv) = inr x →
  browser_close = None →
  ∃ w', step2 argv minV maxV w = Ok tt w'
        ∧ imageWidths w' = {[ minV := x ]}
        ∧ errors (console w')
          = errors (console w)
            ++ [Couldnt_load_page (url argv)
                  (TypeError "process.stdout.clearLine is not a function")]
        ∧ written w' = written w.
Proof using.
  intros Hverb Htty Hle Hl Hp Hgoto Hsv Hev Hclose.
  rewrite (step2_cases argv minV maxV p w Hl Hp). cbv zeta.
  destruct (prepared_fields argv minV p w)
    as (Hpg & Hvp & Hiw & _ & (_ & _ & Hw1 & l1 & Hc1 & He1 & _)).
  set (w1 := prepared argv minV p w) in *.
  unfold profiling, mbind, M_bind at 1, goto. rewrite Hpg, Hgoto.
  unfold measure_all, mbind, M_bind at 1 2. rewrite announce_Ok.
  set (w0 := said argv _ (set_page p0 w1)).
  assert (VIEWPORT w0 = VIEWPORT w1) as Hvp0
    by (subst w0; by rewrite VIEWPORT_said).
  assert (page w0 = p0) as Hpg0 by (subst w0; by rewrite page_said).
  assert (imageWidths w0 = ∅) as Hiw0
    by (subst w0; by rewrite imageWidths_said).
  assert (quiet argv w1 w0) as (_ & _ & Hw0 & l0 & Hc0 & He0 & _)
    by (subst w0; quiet_steps).
  destruct (loop_fuel minV maxV) as [|fuel] eqn:Hf;
    [by destruct minV, maxV|].
  cbn [measure_loop]. rewrite Hvp0, Hvp. cbn [vp_width].
  rewrite (Is_true_true_1 _ Hle).
  unfold mbind, M_bind at 1.
  unfold measure, mbind, M_bind, setViewport, sleep, modify, evaluate_width,
    gets, clearLine.
  rewrite Hpg0, Hvp0, Hvp, Hsv. cbn [page set_page]. rewrite Hev.
  rewrite Hverb, Htty. unfold close. rewrite Hclose.
  eexists. split; [done|].
  cbn [imageWidths written console set_browser_open set_console
       set_VIEWPORT set_imageWidths set_page VIEWPORT].
  rewrite Hvp0, Hvp, Hiw0. cbn [vp_width].
  split; [by rewrite insert_empty|].
  split; [|congruence].
  by rewrite Hc0, Hc1, !errors_app, He0, He1, !app_nil_r.
Qed.

(** *** The checks on the options *)

Lemma not_negative (x : number) :
  isNaN x = false → num_ltb x (num 0) = false → num_leb (num 0) x.
Proof using.
  intros Hx Hlt. rewrite num_ltb_negb_leb in Hlt; [|by destruct x|done].
  apply negb_false_iff in Hlt. by apply Is_true_true.
Qed.

Lemma not_negative_inv (x : number) :
  num_leb (num 0) x → isNaN x = false ∧ num_ltb x (num 0) = false.
Proof using.
  intros Hle. pose proof (num_leb_not_NaN _ _ Hle) as [_ Hx].
  split; [by destruct x|].
  rewrite num_ltb_negb_leb by done. apply negb_false_iff.
  by apply Is_true_true.
Qed.

Lemma existsSync_false (path : string) (w : world Page) :
  existsSync path w = false ↔ disk w !! path = None ∧ written w !! path = None.
Proof using.
  unfold existsSync. rewrite bool_decide_eq_false. split.
  - intros Hn. split; apply eq_None_not_Some; intros H; apply Hn;
      [by left|by right].
  - intros [H1 H2] [H|H]; [rewrite H1 in H|rewrite H2 in H];
      by apply is_Some_None in H.
Qed.

(** X8.  The checks pass exactly when: the lower bound, if given, is a
    number that is not negative; the upper bound, if given, is not NaN and
    is not below the lower bound; the delay is a number that is not
    negative; the number of widths is not NaN; neither output file exists;
    and there is a destination file or the verbose flag. *)
Theorem check_passes_iff (argv : Argv) (w : world Page) :
  check argv w = None ↔ options_accepted argv w.
Proof using.
  split.
  - unfold check, options_accepted, defined_isNaN, given_exists.
    destruct (minviewport argv) as [lo|] eqn:Hlo; simpl.
    + destruct (isNaN lo) eqn:Hn1; [done|].
      destruct (num_ltb lo (num 0)) eqn:Hl1; [done|].
      destruct (maxviewport argv) as [hi|] eqn:Hhi; simpl.
      * destruct (isNaN hi) eqn:Hn2; [done|].
        destruct (num_ltb hi lo) eqn:Hl2; [done|].
        destruct (isNaN (delay argv)) eqn:Hn3; [done|].
        destruct (num_ltb (delay argv) (num 0)) eqn:Hl3; [done|].
        destruct (given (variationsfile argv)) as [f|] eqn:Hf;
          [destruct (existsSync f w) eqn:He1; [done|]|];
          (destruct (isNaN (widthsnumber argv)) eqn:Hn4; [done|]);
          (destruct (given (destfile argv)) as [g|] eqn:Hg;
           [destruct (existsSync g w) eqn:He2; [done|]|]);
          simpl; try (destruct (verbose argv) eqn:Hv; [|done]);
          intros _; split_and!;
          try (intros ? [= <-]); try (intros ? ? [= <-] [= <-]);
          try (by apply not_negative);
          try (by apply existsSync_false);
          try (by destruct hi); try (by destruct (widthsnumber argv));
          try done; try (by left; eexists); try (by right).
        all: rewrite num_ltb_negb_leb in Hl2;
          [apply negb_false_iff in Hl2; by apply Is_true_true
          |by destruct hi|by destruct lo].
      * destruct (isNaN (delay argv)) eqn:Hn3; [done|].
        destruct (num_ltb (delay argv) (num 0)) eqn:Hl3; [done|].
        destruct (given (variationsfile argv)) as [f|] eqn:Hf;
          [destruct (existsSync f w) eqn:He1; [done|]|];
          (destruct (isNaN (widthsnumber argv)) eqn:Hn4; [done|]);
          (destruct (given (destfile argv)) as [g|] eqn:Hg;
           [destruct (existsSync g w) eqn:He2; [done|]|]);
          simpl; try (destruct (verbose argv) eqn:Hv; [|done]);
          intros _; split_and!;
          try (intros ? [= <-]); try (intros ? ? [= <-] [=]);
          try (by apply not_negative);
          try (by apply existsSync_false);
          try (by destruct (widthsnumber argv));
          try done; try (by left; eexists); try (by right).
    + destruct (maxviewport argv) as [hi|] eqn:Hhi; simpl.
      * destruct (isNaN hi) eqn:Hn2; [done|].
        replace (num_ltb hi NaN) with false by by destruct hi.
        destruct (isNaN (delay argv)) eqn:Hn3; [done|].
        destruct (num_ltb (delay argv) (num 0)) eqn:Hl3; [done|].
        destruct (given (variationsfile argv)) as [f|] eqn:Hf;
          [destruct (existsSync f w) eqn:He1; [done|]|];
          (destruct (isNaN (widthsnumber argv)) eqn:Hn4; [done|]);
          (destruct (given (destfile argv)) as [g|] eqn:Hg;
           [destruct (existsSync g w) eqn:He2; [done|]|]);
          simpl; try (destruct (verbose argv) eqn:Hv; [|done]);
          intros _; split_and!;
          try (intros ? [= <-]); try (intros ? ? [=]);
          try (by apply not_negative);
          try (by apply existsSync_false);
          try (by destruct hi); try (by destruct (widthsnumber argv));
          try done; try (by left; eexists); try (by right).
      * destruct (isNaN (delay argv)) eqn:Hn3; [done|].
        destruct (num_ltb (delay argv) (num 0)) eqn:Hl3; [done|].
        destruct (given (variationsfile argv)) as [f|] eqn:Hf;
          [destruct (existsSync f w) eqn:He1; [done|]|];
          (destruct (isNaN (widthsnumber argv)) eqn:Hn4; [done|]);
          (destruct (given (destfile argv)) as [g|] eqn:Hg;
           [destruct (existsSync g w) eqn:He2; [done|]|]);
          simpl; try (destruct (verbose argv) eqn:Hv; [|done]);
          intros _; split_and!;
          try (intros ? [= <-]); try (intros ? ? [=]);
          try (by apply not_negative);
          try (by apply existsSync_false);
          try (by destruct (widthsnumber argv));
          try done; try (by left; eexists); try (by right).
  - unfold check, options_accepted, given_exists.
    intros (Hlo & Hhi & Hlh & Hd & Hn & Hv & Hf & Hout).
    assert (defined_isNaN (minviewport argv) = false
            ∧ num_ltb (to_number (minviewport argv)) (num 0) = false)
      as [-> ->].
    { destruct (minviewport argv) as [lo|]; [|done].
      by apply not_negative_inv, Hlo. }
    assert (defined_isNaN (maxviewport argv) = false) as ->.
    { destruct (maxviewport argv) as [hi|]; [|done].
      specialize (Hhi hi eq_refl). by destruct hi. }
    assert (num_ltb (to_number (maxviewport argv))
              (to_number (minviewport argv)) = false) as ->.
    { destruct (maxviewport argv) as [hi|], (minviewport argv) as [lo|];
        simpl; try done; [|by destruct hi].
      specialize (Hlh lo hi eq_refl eq_refl).
      pose proof (num_leb_not_NaN _ _ Hlh) as [? ?].
      rewrite num_ltb_negb_leb by done. apply negb_false_iff.
      by apply Is_true_true. }
    apply not_negative_inv in Hd as [-> ->].
    assert (isNaN (widthsnumber argv) = false) as ->
      by by destruct (widthsnumber argv).
    assert (∀ o, (∀ f, given o = Some f →
                       disk w !! f = None ∧ written w !! f = None) →
                 match given o with
                 | Some f => existsSync f w
                 | None => false
                 end = false) as Hex.
    { intros o Ho. destruct (given o) as [f|]; [|done].
      by apply existsSync_false, Ho. }
    rewrite (Hex _ Hv), (Hex _ Hf).
    destruct Hout as [Hs|Hverb].
    + by rewrite (bool_decide_eq_true_2 _ Hs).
    + apply Is_true_true in Hverb. rewrite Hverb. by rewrite andb_false_r.
Qed.

Lemma check_None_files (argv : Argv) (w : world Page) :
  check argv w = None →
  given_exists (variationsfile argv) w = false
  ∧ given_exists (destfile argv) w = false.
Proof using.
  unfold check.
  destruct (defined_isNaN (minviewport argv)); [done|].
  destruct (num_ltb (to_number (minviewport argv)) (num 0)); [done|].
  destruct (defined_isNaN (maxviewport argv)); [done|].
  destruct (num_ltb (to_number (maxviewport argv)) _); [done|].
  destruct (isNaN (delay argv)); [done|].
  destruct (num_ltb (delay argv) (num 0)); [done|].
  destruct (given_exists (variationsfile argv) w); [done|].
  destruct (isNaN (widthsnumber argv)); [done|].
  by destruct (given_exists (destfile argv) w).
Qed.

Lemma given_exists_other (o : option string) (w : world Page) (p : string) :
  given_exists o w = false → existsSync p w = true → given o ≠ Some p.
Proof using.
  unfold given_exists. intros Hn Hp Ho. rewrite Ho in Hn. congruence.
Qed.

(** X9.  The script, checks and run together, overwrites no file: a path
    that exists when the script starts, be it on the disk or written
    before, holds at the end of the run what it held at the start. *)
Theorem script_overwrites_no_file (argv : Argv) (w w' : world Page) :
  script argv w = inr (Ok tt w') →
  ∀ p, existsSync p w = true →
       disk w' !! p = disk w !! p ∧ written w' !! p = written w !! p.
Proof using.
  unfold script. destruct (check argv w) eqn:Hcheck; [done|].
  intros [= Hmain] p Hp.
  apply check_None_files in Hcheck as [Hv Hd].
  pose proof (given_exists_other _ _ _ Hv Hp) as Hpv.
  pose proof (given_exists_other _ _ _ Hd Hp) as Hpd.
  pose proof (step1_quiet argv w) as Hq.
  destruct (step1 argv w) as [[[contexts minV] maxV] w1|e1 w1|] eqn:H1;
    [|unfold main, mbind, M_bind in Hmain; by rewrite H1 in Hmain|done].
  destruct Hq as ((Hd1 & _ & Hw1 & _) & _).
  rewrite (main_after_step1 _ _ _ _ _ _ H1) in Hmain.
  unfold mbind, M_bind in Hmain.
  destruct (step2 argv _ _ w1) as [[] w2|e w2|] eqn:Hs2; [|done..].
  apply step2_frame in Hs2 as (_ & Hd2 & _ & _ & Hw2).
  apply step3_frame in Hmain as (_ & Hd3 & _ & _ & Hw3).
  split; [congruence|]. rewrite Hw3, Hw2 by done. congruence.
Qed.

(** How the promise of step 2 is fulfilled: the page loads and the loop
    ends, with the files untouched and no error printed, and then come
    the variations file and the table. *)
Lemma profiling_Ok_cases (argv : Argv) (minV maxV : number)
  (w w3 : world Page) :
  profiling argv minV maxV w = Ok tt w3 →
  ∃ w2, quiet argv w w2
        ∧ (save_variations argv;; output_table argv) w2 = Ok tt w3.
Proof using.
  unfold profiling, mbind, M_bind at 1, goto.
  destruct (page_goto (page w) (url argv)) as [e|p]; [done|].
  unfold measure_all, mbind, M_bind at 1 2. rewrite announce_Ok.
  set (w0 := said argv _ (set_page p w)).
  assert (quiet argv w w0) as Hq0 by (subst w0; quiet_steps).
  pose proof (measure_loop_quiet argv maxV (loop_fuel minV maxV) w0) as Hl.
  destruct (measure_loop _ argv maxV w0) as [[] w2|e w2|]; [|done..].
  destruct Hl as [Hq2 _]. intros Hw3. exists w2.
  split; [by eapply quiet_trans|done].
Qed.

(** X10.  When a variations file is asked for and does not exist yet,
    step 2 ends in one of two ways: the file holds the recorded widths in
    ascending order of viewport and no error is printed, or there is no
    file and one error is printed, that of the page or that of the file.
    Nothing else is printed but the lines of [--verbose]. *)
Theorem variations_file_or_an_error_line
  (argv : Argv) (minV maxV : number) (w w' : world Page) (f : string) :
  step2 argv minV maxV w = Ok tt w' →
  given (variationsfile argv) = Some f →
  written w !! f = None →
  (written w' !! f = Some (VariationsCsv (Array_entries (imageWidths w')))
   ∧ ∃ ls, console w' = console w ++ ls ∧ progress_lines argv ls)
  ∨ (written w' !! f = None
     ∧ ∃ e ls ls',
         progress_lines argv ls ∧ progress_lines argv ls'
         ∧ (console w'
            = console w ++ ls ++ [Couldnt_load_page (url argv) e]
            ∨ console w'
              = console w ++ ls ++ [Couldnt_save_variations f e] ++ ls')).
Proof using.
  intros Hs2 Hf Hnew.
  destruct (prepare_cases argv minV w)
    as [(p & Hl & Hp & Hprep)|(e' & w1 & _ & Hprep & _)].
  2: { unfold step2, mbind, M_bind at 1 2 in Hs2. by rewrite Hprep in Hs2. }
  rewrite (step2_cases argv minV maxV p w Hl Hp) in Hs2. cbv zeta in Hs2.
  destruct (prepared_fields argv minV p w)
    as (_ & _ & _ & _ & (_ & _ & Hw1 & l1 & Hc1 & Hp1)).
  set (w1 := prepared argv minV p w) in *.
  unfold close in Hs2.
  assert (∀ ls : list console_line,
            errors ls = [] →
            progress_lines argv (if verbose argv then ls else [])) as Hif.
  { intros ls Hls. destruct (verbose argv) eqn:Hv;
      [by apply progress_lines_verbose|apply progress_lines_nil]. }
  destruct (profiling argv minV maxV w1) as [[] w3|e w3|] eqn:Hprof;
    [| |done]; (destruct browser_close; [done|]); injection Hs2 as <-;
    cbn [written console imageWidths set_browser_open set_console].
  - apply profiling_Ok_cases in Hprof
      as (w2 & (_ & Hr2 & Hw2 & l2 & Hc2 & Hp2) & Hw3).
    unfold mbind, M_bind in Hw3.
    destruct (save_variations_cases argv w2)
      as [[Hf' _]|(f' & Hf' & [[_ Hs]|[_ Hs]])];
      rewrite Hf in Hf'; [done|injection Hf' as <-..];
      rewrite Hs, output_table_Ok in Hw3; injection Hw3 as <-;
      rewrite ?written_said, ?imageWidths_said, ?console_said;
      cbn [written console imageWidths set_written set_console];
      rewrite ?written_said, ?imageWidths_said, ?console_said;
      cbn [written console imageWidths set_written set_console].
    + left. rewrite lookup_insert_eq. split; [done|].
      eexists. split; [by rewrite Hc2, Hc1, <- !app_assoc|].
      repeat apply progress_lines_app; by auto.
    + right. split; [congruence|].
      exists (LibraryError "EACCES"), (l1 ++ l2),
        (if verbose argv
         then [Widths_table (Array_entries (imageWidths w2))] else []).
      split; [by apply progress_lines_app|]. split; [by apply Hif|].
      right. by rewrite Hc2, Hc1, <- !app_assoc.
  - apply profiling_Thrown_quiet in Hprof
      as [(_ & _ & Hw2 & l2 & Hc2 & Hp2) _].
    right. split; [congruence|].
    exists e, (l1 ++ l2), [].
    split; [by apply progress_lines_app|].
    split; [apply progress_lines_nil|].
    left. by rewrite Hc2, Hc1, <- !app_assoc.
Qed.

(** *** The widths that the loop has recorded, whatever its outcome *)

(** What one turn of the loop does to the measurements: once the width is
    recorded the viewport has moved on, even when the turn then fails to
    clear the line of a stream that is not a terminal. *)
Lemma measure_records (argv : Argv) (maxV : number) (w : world Page) :
  match measure argv maxV w with
  | Ok _ w' =>
      (∃ x, imageWidths w' = <[vp_width (VIEWPORT w) := x]> (imageWidths w))
      ∧ vp_width (VIEWPORT w') = num_add (vp_width (VIEWPORT w)) (num 1)
  | Thrown _ w' =>
      imageWidths w' = imageWidths w
      ∨ ∃ x, imageWidths w' = <[vp_width (VIEWPORT w) := x]> (imageWidths w)
  | Hung => False
  end.
Proof using.
  unfold measure, mbind, M_bind, setViewport, sleep, modify, evaluate_width,
    gets, clearLine, cursorTo_0, console_log, modify.
  destruct (page_setViewport _ _) as [e|p]; [by left|].
  cbn [page set_page].
  destruct (page_evaluate_width _ _) as [e|x]; [by left|].
  cbn [VIEWPORT set_VIEWPORT set_imageWidths set_page vp_width imageWidths].
  destruct (verbose argv); [|cbn; by eauto].
  destruct stdout_isTTY; [|cbn; by eauto].
  cbn [VIEWPORT set_VIEWPORT set_imageWidths set_console vp_width
       imageWidths].
  destruct (num_leb _ maxV); cbn; eauto.
Qed.

Lemma width_after_succ (x : number) (i : nat) :
  width_after x (S i) = width_after (num_add x (num 1)) i.
Proof using.
  unfold width_after.
  exact (Nat.iter_succ_r i (λ y, num_add y (num 1)) x).
Qed.

(** From an integer, and up to 2^53, the widths are the integers that
    follow it. *)
Lemma width_after_num (a : Z) (i : nat) :
  - 2 ^ 53 ≤ a → a + Z.of_nat i ≤ 2 ^ 53 →
  width_after (num a) i = num (a + Z.of_nat i).
Proof using.
  intros Hlo. induction i as [|i IH]; intros Hhi.
  { cbn. by rewrite Z.add_0_r. }
  change (width_after (num a) (S i))
    with (num_add (width_after (num a) i) (num 1)).
  rewrite IH by lia. rewrite num_add_num by (unfold safe_integer; lia).
  f_equal. lia.
Qed.

(** The loop from the width [x]: whether it ends or is interrupted by an
    error, it has recorded the widths [x], [x + 1], ... up to some point,
    each one the sum of the one before and 1, and none of them is above
    the bound. *)
Lemma measure_loop_segment (argv : Argv) (maxV : number) (fuel : nat) :
  ∀ (x : number) (w : world Page),
    vp_width (VIEWPORT w) = x →
    match measure_loop fuel argv maxV w with
    | Ok _ w' | Thrown _ w' =>
        ∃ n : nat,
          (∀ i : nat, (i < n)%nat → num_leb (width_after x i) maxV)
          ∧ ∀ k, is_Some (imageWidths w' !! k)
                 ↔ is_Some (imageWidths w !! k)
                   ∨ ∃ i : nat, (i < n)%nat ∧ k = width_after x i
    | Hung => True
    end.
Proof using.
  induction fuel as [|fuel IH]; intros x w Hw; cbn [measure_loop]; [done|].
  assert (∀ w' : world Page,
            imageWidths w' = imageWidths w →
            ∃ n : nat,
              (∀ i : nat, (i < n)%nat → num_leb (width_after x i) maxV)
              ∧ ∀ k, is_Some (imageWidths w' !! k)
                     ↔ is_Some (imageWidths w !! k)
                       ∨ ∃ i : nat, (i < n)%nat ∧ k = width_after x i)
    as Hnone.
  { intros w' Hsame. exists 0%nat. split; [intros i Hi; lia|].
    intros k. rewrite Hsame. split; [by left|].
    intros [Hk|(i & Hi & _)]; [done|lia]. }
  assert (num_leb x maxV →
          ∀ (w' : world Page) (y : number),
            imageWidths w' = <[x := y]> (imageWidths w) →
            ∃ n : nat,
              (∀ i : nat, (i < n)%nat → num_leb (width_after x i) maxV)
              ∧ ∀ k, is_Some (imageWidths w' !! k)
                     ↔ is_Some (imageWidths w !! k)
                       ∨ ∃ i : nat, (i < n)%nat ∧ k = width_after x i)
    as Hone.
  { intros Hle w' y Hsame. exists 1%nat. split.
    - intros i Hi. by replace i with 0%nat by lia.
    - intros k. rewrite Hsame. split.
      + intros Hs. destruct (decide (k = x)) as [->|Hne].
        * right. exists 0%nat. split; [lia|done].
        * left. by rewrite lookup_insert_ne in Hs.
      + intros [Hs|(i & Hi & ->)].
        * destruct (decide (k = x)) as [->|Hne];
            [by rewrite lookup_insert_eq|by rewrite lookup_insert_ne].
        * replace i with 0%nat by lia. cbn. by rewrite lookup_insert_eq. }
  rewrite Hw. destruct (num_leb x maxV) eqn:Hle; [|by apply Hnone].
  unfold mbind, M_bind.
  pose proof (measure_records argv maxV w) as Hm.
  destruct (measure argv maxV w) as [[] w1|e w1|]; [| |done].
  2: { rewrite Hw in Hm. destruct Hm as [Hm|[y Hm]];
         [by apply Hnone|by apply (Hone I w1 y)]. }
  destruct Hm as [[y Hy] Hvp]. rewrite Hw in Hy, Hvp.
  specialize (IH _ w1 Hvp).
  destruct (measure_loop fuel argv maxV w1) as [[] w2|e w2|]; [| |done].
  all: destruct IH as (n & Hn & Hk); exists (S n); split.
  all: try (intros [|i] Hi;
            [by apply Is_true_true
            |rewrite width_after_succ; apply Hn; lia]).
  all: intros k; rewrite Hk, Hy; split.
  all: try (intros [Hs|(i & Hi & ->)];
            [destruct (decide (k = x)) as [->|Hne];
             [right; exists 0%nat; split; [lia|done]
             |left; by rewrite lookup_insert_ne in Hs]
            |right; exists (S i); split; [lia|by rewrite width_after_succ]]).
  all: intros [Hs|([|i] & Hi & ->)];
    [left; destruct (decide (k = x)) as [->|Hne];
     [by rewrite lookup_insert_eq|by rewrite lookup_insert_ne]
    |left; cbn; by rewrite lookup_insert_eq
    |right; exists i; split; [lia|by rewrite width_after_succ]].
Qed.

(** The same for the promise of step 2, from a state with no width
    recorded. *)
Lemma profiling_segment (argv : Argv) (minV maxV : number) (w : world Page) :
  vp_width (VIEWPORT w) = minV → imageWidths w = ∅ →
  match profiling argv minV maxV w with
  | Ok _ w' | Thrown _ w' =>
      ∃ n : nat,
        (∀ i : nat, (i < n)%nat → num_leb (width_after minV i) maxV)
        ∧ ∀ k, is_Some (imageWidths w' !! k)
               ↔ ∃ i : nat, (i < n)%nat ∧ k = width_after minV i
  | Hung => True
  end.
Proof using.
  intros Hw Hempty. unfold profiling, mbind, M_bind at 1, goto.
  destruct (page_goto (page w) (url argv)) as [e|p].
  { exists 0%nat. split; [intros i Hi; lia|]. intros k. rewrite Hempty.
    rewrite lookup_empty. split; [by intros [? ?]|intros (i & Hi & _); lia]. }
  unfold measure_all, mbind, M_bind at 1 2. rewrite announce_Ok.
  set (w0 := said argv _ (set_page p w)).
  assert (vp_width (VIEWPORT w0) = minV) as Hw0
    by (subst w0; by rewrite VIEWPORT_said).
  assert (∀ k, is_Some (imageWidths w0 !! k) ↔ False) as Hno.
  { intros k. subst w0. rewrite imageWidths_said. cbn.
    rewrite Hempty, lookup_empty. split; [by intros [? ?]|done]. }
  pose proof (measure_loop_segment argv maxV (loop_fuel minV maxV) minV w0
                Hw0) as Hl.
  destruct (measure_loop _ argv maxV w0) as [[] w2|e w2|]; [| |done].
  - destruct (after_loop_Ok argv w2) as (w3 & Hw3 & Hiw & _).
    unfold mbind in Hw3. rewrite Hw3, Hiw.
    destruct Hl as (n & Hn & Hk). exists n.
    split; [done|]. intros k. rewrite Hk, Hno.
    split; [by intros [[]|?]|by right].
  - destruct Hl as (n & Hn & Hk). exists n.
    split; [done|]. intros k. rewrite Hk, Hno.
    split; [by intros [[]|?]|by right].
Qed.

Lemma step2_segment (argv : Argv) (minV maxV : number) (w w' : world Page) :
  step2 argv minV maxV w = Ok tt w' →
  ∃ n : nat,
    (∀ i : nat, (i < n)%nat → num_leb (width_after minV i) maxV)
    ∧ ∀ k, is_Some (imageWidths w' !! k)
           ↔ ∃ i : nat, (i < n)%nat ∧ k = width_after minV i.
Proof using.
  intros Hs2.
  destruct (prepare_cases argv minV w)
    as [(p & Hl & Hp & Hprep)|(e' & w1 & _ & Hprep & _)].
  2: { unfold step2, mbind, M_bind at 1 2 in Hs2. by rewrite Hprep in Hs2. }
  rewrite (step2_cases argv minV maxV p w Hl Hp) in Hs2. cbv zeta in Hs2.
  destruct (prepared_fields argv minV p w) as (_ & Hvp & Hiw & _).
  pose proof (profiling_segment argv minV maxV (prepared argv minV p w)) as Hp'.
  rewrite Hvp in Hp'. specialize (Hp' eq_refl Hiw).
  unfold close in Hs2.
  destruct (profiling _ _ _ _) as [[] w3|e w3|]; [| |done];
    (destruct browser_close; [done|]); by injection Hs2 as <-.
Qed.

(** X11.  At the end of step 2 the recorded widths are those of the
    viewports minViewport, minViewport + 1, ... up to some point, without
    a gap, all within the range, whether profiling succeeded or failed on
    the way: an error stops the loop, and what was recorded before stays.
    Each viewport is the sum of the one before and 1, as a double. *)
Theorem recorded_widths_form_an_initial_segment
  (argv : Argv) (minV maxV : number) (w w' : world Page) :
  step2 argv minV maxV w = Ok tt w' →
  ∃ n : nat,
    (∀ i : nat, (i < n)%nat → num_leb (width_after minV i) maxV)
    ∧ ∀ k, is_Some (imageWidths w' !! k)
           ↔ ∃ i : nat, (i < n)%nat ∧ k = width_after minV i.
Proof using. apply step2_segment. Qed.

(** *** Ranges that give no perfect width *)

(** No perfect width when no considered context has one that is an array
    index. *)
Lemma perfectWidths_no_index imgWidths minV maxV contexts :
  Forall (λ c, is_array_index (perfectWidth imgWidths c) = false)
    (considered_contexts minV maxV contexts) →
  perfectWidths imgWidths minV maxV contexts = [].
Proof using.
  intros Hall.
  destruct (perfectWidths imgWidths minV maxV contexts) as [|b l] eqn:E;
    [done|].
  assert (b ∈ perfectWidths imgWidths minV maxV contexts) as Hb
    by (rewrite E; left).
  apply elem_of_perfectWidths in Hb as [Hi (v & Hv & _)].
  apply views_at_Some in Hv as [_ (c & Hc & Hk)].
  rewrite Forall_forall in Hall. specialize (Hall c Hc).
  rewrite Hk in Hall. by rewrite Hall in Hi.
Qed.

(** A viewport that was not measured has the perfect width NaN. *)
Lemma perfectWidth_not_measured imgWidths c :
  imgWidths !! viewport c = None → perfectWidth imgWidths c = NaN.
Proof using. unfold perfectWidth. by intros ->. Qed.

Lemma Math_max_above (x y : number) :
  num_ltb x y → Math_max x y = y.
Proof using.
  intros Hlt. destruct x, y; try done; unfold Math_max;
    by rewrite (Is_true_true_1 _ Hlt).
Qed.

(** Half of an odd integer is no integer. *)
Lemma half_not_integer (z v : Z) :
  Z.odd z = true → Fin (Q2Qc (z # 2)) ≠ num v.
Proof using.
  intros Hodd Heq. unfold num in Heq.
  apply (f_equal fin_part) in Heq. cbn [fin_part] in Heq.
  apply (f_equal this) in Heq. cbn [this Q2Qc Qc_of_Z] in Heq.
  assert (z # 2 == inject_Z v)%Q as Hq
    by (rewrite <- Heq; symmetry; apply Qred_correct).
  unfold Qeq in Hq. cbn [Qnum Qden inject_Z] in Hq.
  apply Z.odd_spec in Hodd as [m Hm]. lia.
Qed.

Lemma half_le_num (z b : Z) :
  num_leb (Fin (Q2Qc (z # 2))) (num b) → z ≤ 2 * b.
Proof using.
  unfold num, num_leb. rewrite bool_decide_spec. unfold Qcle.
  cbn [this Q2Qc Qc_of_Z]. rewrite !Qred_correct.
  unfold Qle. cbn [Qnum Qden inject_Z]. lia.
Qed.

(** The widths of the loop from half of an odd integer are halves of odd
    integers as long as they stay below 2^52: adding 1 is exact there. *)
Lemma width_after_half (z : Z) (maxV : number) (n : nat) :
  Z.odd z = true →
  - 2 ^ 53 < z →
  num_leb maxV (num (2 ^ 52 - 1)) →
  (∀ i : nat, (i < n)%nat →
              num_leb (width_after (Fin (Q2Qc (z # 2))) i) maxV) →
  ∀ i : nat, (i < n)%nat →
    width_after (Fin (Q2Qc (z # 2))) i
    = Fin (Q2Qc (z + 2 * Z.of_nat i # 2)).
Proof using.
  intros [m Hm]%Z.odd_spec Hz Hmax Hn. induction i as [|i IH]; intros Hi.
  { cbn. by rewrite Z.add_0_r. }
  specialize (IH ltac:(lia)).
  pose proof (Hn i ltac:(lia)) as Hle. rewrite IH in Hle.
  pose proof (num_leb_trans _ _ _ Hle Hmax) as Hb%half_le_num.
  change (width_after (Fin (Q2Qc (z # 2))) (S i))
    with (num_add (width_after (Fin (Q2Qc (z # 2))) i) (num 1)).
  rewrite IH, num_add_half by lia.
  do 3 f_equal. lia.
Qed.

(** X12.  When the option minviewport is half of an odd integer above the
    smallest viewport of the contexts, and the range ends below 2^52, the
    loop of step 2 records widths at halves of odd integers only: the
    viewports of the contexts, integers, are not among them, and step 3
    finds no perfect width at all. *)
Theorem fractional_minviewport_gives_no_width
  (argv : Argv) (z : Z) (contextMin maxV : number)
  (contexts : list context) (w w' : world Page) :
  minviewport argv = Some (Fin (Q2Qc (z # 2))) →
  Z.odd z = true →
  - 2 ^ 53 < z →
  num_ltb contextMin (Fin (Q2Qc (z # 2))) →
  num_leb maxV (num (2 ^ 52 - 1)) →
  Forall (λ c, viewport c = NaN ∨ is_integer (viewport c)) contexts →
  step2 argv (minViewport argv contextMin) maxV w = Ok tt w' →
  perfectWidths (imageWidths w') (minViewport argv contextMin) maxV contexts
  = [].
Proof using.
  intros Hopt Hodd Hz Hlt Hmax Hint Hs2.
  assert (minViewport argv contextMin = Fin (Q2Qc (z # 2))) as Hmin.
  { unfold minViewport. rewrite Hopt. by apply Math_max_above. }
  rewrite Hmin in Hs2 |- *.
  apply step2_segment in Hs2 as (n & Hn & Hk).
  pose proof (width_after_half z maxV n Hodd Hz Hmax Hn) as Hhalf.
  apply perfectWidths_no_index, Forall_forall.
  intros c [Hc Hin]%list_elem_of_filter.
  rewrite Forall_forall in Hint.
  rewrite perfectWidth_not_measured; [done|].
  apply eq_None_not_Some. rewrite Hk. intros (i & Hi & Hv).
  rewrite (Hhalf i Hi) in Hv.
  destruct (Hint c Hin) as [Hnan|[v Hzv]].
  - by rewrite Hnan in Hv.
  - rewrite Hzv in Hv. symmetry in Hv. revert Hv. apply half_not_integer.
    rewrite Z.odd_add, Hodd, Z.odd_mul. done.
Qed.

(** X13.  When the range is empty, the lower bound not being below or at
    the upper one, and the browser starts and closes, a run that has
    loaded its contexts ends normally, has measured nothing, and prints
    the empty list of perfect widths. *)
Theorem empty_range_measures_nothing
  (argv : Argv) (w w1 : world Page) (contexts : list context)
  (minV maxV : number) (p : Page) :
  step1 argv w = Ok (contexts, minV, maxV) w1 →
  num_leb minV maxV = false →
  puppeteer_launch = None → browser_newPage = inr p → browser_close = None →
  ∃ w', main argv w = Ok tt w'
        ∧ imageWidths w' = ∅
        ∧ Dir_perfectWidths [] ∈ console w'.
Proof using.
  intros H1 Hempty Hl Hp Hclose. rewrite (main_after_step1 _ _ _ _ _ _ H1).
  assert (∃ w2, step2 argv minV maxV w1 = Ok tt w2 ∧ imageWidths w2 = ∅)
    as (w2 & Hs2 & Hiw).
  { destruct (prepared_fields argv minV p w1) as (_ & Hvp & Hiw & _).
    assert (∃ w2, step2 argv minV maxV w1 = Ok tt w2) as [w2 Hs2].
    { rewrite (step2_cases argv minV maxV p w1 Hl Hp). cbv zeta.
      assert (profiling argv minV maxV (prepared argv minV p w1) ≠ Hung)
        as Hh.
      { unfold profiling, mbind, M_bind at 1, goto.
        destruct (page_goto _ _) as [e|p0]; [done|].
        unfold measure_all, mbind, M_bind at 1 2. rewrite announce_Ok.
        set (w0 := said argv _ _).
        assert (vp_width (VIEWPORT w0) = minV) as Hw0.
        { subst w0. rewrite VIEWPORT_said. cbn [VIEWPORT set_page].
          by rewrite Hvp. }
        destruct (loop_fuel minV maxV) as [|fuel] eqn:Hf;
          [by destruct minV, maxV|].
        cbn [measure_loop]. rewrite Hw0, Hempty.
        destruct (after_loop_Ok argv w0) as (w3 & Hw3 & _).
        unfold mbind in Hw3. by rewrite Hw3. }
      unfold close. rewrite Hclose.
      destruct (profiling _ _ _ _) as [[] w3|e w3|]; [by eexists..|done]. }
    exists w2. split; [done|].
    apply step2_segment in Hs2 as (n & Hn & Hk).
    apply map_empty. intros k. apply eq_None_not_Some. rewrite Hk.
    intros ([|i] & Hi & _).
    - specialize (Hn 0%nat Hi). cbn in Hn. by rewrite Hempty in Hn.
    - specialize (Hn 0%nat ltac:(lia)). cbn in Hn. by rewrite Hempty in Hn. }
  unfold mbind, M_bind at 1. rewrite Hs2.
  assert (perfectWidths (imageWidths w2) minV maxV contexts = []) as Hnone.
  { apply perfectWidths_nothing_considered, Forall_forall. intros c _.
    unfold considered, num_geb.
    destruct (num_leb minV (viewport c)) eqn:Hlo; [|done].
    destruct (num_leb (viewport c) maxV) eqn:Hhi; [|done].
    apply Is_true_true in Hlo, Hhi.
    pose proof (num_leb_trans _ _ _ Hlo Hhi) as Hle.
    by rewrite Hempty in Hle. }
  destruct (step3_cases argv contexts minV maxV w2)
    as [[_ Hs]|(f & _ & [[_ Hs]|[_ Hs]])];
    rewrite Hnone in Hs; eexists; (split; [exact Hs|]);
    rewrite ?imageWidths_said, ?console_said;
    cbn [imageWidths console set_written set_console];
    rewrite ?imageWidths_said, ?console_said;
    cbn [imageWidths console set_written set_console];
    rewrite ?imageWidths_said, ?console_said;
    (split; [done|]); rewrite !elem_of_app, !list_elem_of_singleton;
    auto 10.
Qed.

(** *** The order of the contexts, and the size of the percentages *)

Lemma is_whole_Permutation (l1 l2 : list context) :
  l1 ≡ₚ l2 →
  Forall (λ c, is_whole (views c)) l1 → Forall (λ c, is_whole (views c)) l2.
Proof using. by intros <-. Qed.

Lemma views_at_whole imgWidths k (l : list context) :
  Forall (λ c, is_whole (views c)) l →
  views_total l ≤ 2 ^ 53 →
  views_at imgWidths k l
  = match with_perfectWidth imgWidths k l with
    | [] => None
    | l' => Some (num (views_total l'))
    end.
Proof using.
  intros Hl Hle. unfold views_at.
  pose proof (sum_views_filter_whole (λ c, perfectWidth imgWidths c = k) l
                Hl Hle) as Hs.
  fold (with_perfectWidth imgWidths k l) in Hs.
  destruct (with_perfectWidth imgWidths k l); [done|]. by rewrite Hs.
Qed.

(** X14.  With whole numbers of views whose total is 2^53 at most, the
    perfect widths do not depend on the order of the contexts: two lists
    of contexts that are permutations of each other give, with the same
    range and the same measurements, the same list of perfect widths, in
    the same order.  (The range itself is another matter: step 1 starts
    from the first row.)  The sums of the views are exact then, which
    they are not above 2^53, where the order of the additions counts. *)
Theorem perfect_widths_do_not_depend_on_the_order
  (imgWidths : gmap number number) (minV maxV : number)
  (l1 l2 : list context) :
  l1 ≡ₚ l2 →
  Forall (λ c, is_whole (views c)) (considered_contexts minV maxV l1) →
  views_total (considered_contexts minV maxV l1) ≤ 2 ^ 53 →
  perfectWidths imgWidths minV maxV l1 = perfectWidths imgWidths minV maxV l2.
Proof using.
  intros Hp Hwhole1 Hle1.
  assert (considered_contexts minV maxV l1
          ≡ₚ considered_contexts minV maxV l2) as Hinc
    by (unfold considered_contexts; by rewrite Hp).
  pose proof (is_whole_Permutation _ _ Hinc Hwhole1) as Hwhole2.
  pose proof (views_total_Permutation _ _ Hinc) as Htot.
  assert (views_total (considered_contexts minV maxV l2) ≤ 2 ^ 53) as Hle2
    by lia.
  destruct (count_views_fold imgWidths minV maxV l1) as [Ht1 Hk1].
  destruct (count_views_fold imgWidths minV maxV l2) as [Ht2 Hk2].
  unfold perfectWidths. f_equal. f_equal.
  destruct (perfectWidthsTemp_totalViews imgWidths minV maxV l1)
    as [temp1 total1].
  destruct (perfectWidthsTemp_totalViews imgWidths minV maxV l2)
    as [temp2 total2].
  cbn [fst snd] in Ht1, Hk1, Ht2, Hk2. f_equal.
  - apply map_eq. intros k. rewrite Hk1, Hk2.
    rewrite !views_at_whole by done.
    assert (with_perfectWidth imgWidths k (considered_contexts minV maxV l1)
            ≡ₚ with_perfectWidth imgWidths k
                 (considered_contexts minV maxV l2)) as Hf
      by (unfold with_perfectWidth; by rewrite Hinc).
    pose proof (views_total_Permutation _ _ Hf) as Hs.
    destruct (with_perfectWidth imgWidths k _) as [|c1 m1],
             (with_perfectWidth imgWidths k _) as [|c2 m2]; try done.
    + by apply Permutation_nil_cons in Hf.
    + symmetry in Hf. by apply Permutation_nil_cons in Hf.
    + by rewrite Hs.
  - rewrite Ht1, Ht2, !sum_views_whole by done. by rewrite Htot.
Qed.

(** X15.  When the considered contexts have whole numbers of views whose
    total is not zero and is 2^53 at most, every percentage is a number
    from 0 to 1. *)
Theorem percentages_between_0_and_1
  (imgWidths : gmap number number) (minV maxV : number)
  (contexts : list context) :
  let inc := considered_contexts minV maxV contexts in
  Forall (λ c, is_whole (views c)) inc →
  views_total inc ≤ 2 ^ 53 →
  views_total inc ≠ 0 →
  Forall (λ b, num_leb (num 0) (percentage b)
               ∧ num_leb (percentage b) (num 1))
    (perfectWidths imgWidths minV maxV contexts).
Proof using.
  intros inc Hwhole Hle Hnz.
  pose proof (whole_percentages_finite imgWidths minV maxV contexts
                Hwhole Hle Hnz) as Hall.
  eapply Forall_impl; [exact Hall|]. by intros b (_ & H0 & H1).
Qed.
End Script.

(** ** The properties on the example runs *)

(** The script run with the plain reader on the page of the examples. *)
Local Abbreviation run := (main plain_csv_records (host := fluid)).

Local Abbreviation load := (step1 plain_csv_records (Page := number)).

Example parseInt_320 : parseInt " 320px" = num 320.
Proof. by_decide. Qed.

Example parseInt_negative : parseInt "-5" = num (-5).
Proof. by_decide. Qed.

Example parseInt_empty : parseInt "" = NaN.
Proof. reflexivity. Qed.

(** A no-break space, the bytes 194 and 160, is skipped as a space is. *)
Example parseInt_no_break_space :
  parseInt (String "194" (String "160" "320")) = num 320.
Proof. by_decide. Qed.

(** 2^53 + 1 is no double: the digits are rounded to 2^53. *)
Example parseInt_rounds :
  parseInt "9007199254740993" = num 9007199254740992.
Proof. by_decide. Qed.

Example parseFloat_fraction : parseFloat "1.5" = Fin (Q2Qc (3 # 2)).
Proof. by_decide. Qed.

Example parseFloat_exponent : parseFloat "-2.5e-1x" = Fin (Q2Qc (-1 # 4)).
Proof. by_decide. Qed.

Example parseFloat_dot : parseFloat "." = NaN.
Proof. reflexivity. Qed.

(** 1.1 is no double: the nearest one is a little above it. *)
Example parseFloat_rounds :
  parseFloat "1.1" = Fin (Q2Qc (2476979795053773 # 2251799813685248)).
Proof. by_decide. Qed.

Example parseFloat_overflows : parseFloat "1e400" = PInf.
Proof. by_decide. Qed.

(** An image of 400 pixels on a screen of density 1.1 has the perfect
    width 441, the product being a little above 440. *)
Example perfectWidth_rounds :
  perfectWidth (measured 400 1) (Ctx (num 400) (parseFloat "1.1") (num 1))
  = num 441.
Proof. by_decide. Qed.

Example contexts_csv_loaded :
  load an_argv a_world = Ok (three_contexts, num 320, num 330) a_world.
Proof. by_decide. Qed.

Example measured_by_the_run :
  step2 (host := fluid) an_argv (num 320) (num 330) a_world
  = Ok tt
      {| disk := a_disk; read_only := ∅; written := ∅; console := [];
         browser_open := false; page := num 330;
         VIEWPORT := viewport_at 331; imageWidths := measured 320 11 |}.
Proof. by_decide. Qed.

Example perfect_widths_of_the_run :
  perfectWidths (measured 320 11) (num 320) (num 330) three_contexts
  = [ {| width := num 495; percentage := dec 3 5 |};
      {| width := num 648; percentage := dec 3 10 |};
      {| width := num 320; percentage := dec 1 10 |} ].
Proof. by_decide. Qed.

(** *** Step 1 on the examples *)

(** C10, witness: the file with an exponent in a density holds a letter,
    so its first row, a row of data, is not read. *)
Lemma header_row_iff_ascii_letter_witness :
  plain_csv_records exponent_csv
  = Some [("320", "1", "10"); ("324", "2e0", "30")]
  ∧ ((truthy (csvHasHeader exponent_csv) = true
      ↔ has_ascii_letter exponent_csv)
     ∧ (has_ascii_letter exponent_csv →
        contexts_of plain_csv_records exponent_csv a_world
        = Ok (cast_record <$> drop 1 [("320", "1", "10"); ("324", "2e0", "30")])
            a_world)
     ∧ (¬ has_ascii_letter exponent_csv →
        contexts_of plain_csv_records exponent_csv a_world
        = Ok (cast_record <$> [("320", "1", "10"); ("324", "2e0", "30")])
            a_world)).
Proof.
  split; [reflexivity|].
  apply (header_row_iff_ascii_letter plain_csv_records). reflexivity.
Defined.

Example first_row_of_data_is_dropped :
  contexts_of plain_csv_records exponent_csv a_world
  = Ok [Ctx (num 324) (num 2) (num 30)] a_world.
Proof. by_decide. Qed.

(** C5, witness: the three rows of the contexts file are loaded. *)
Lemma contexts_loading_outcome_witness :
  disk a_world !! contextsfile an_argv = Some contexts_csv
  ∧ plain_csv_records contexts_csv
    = Some [("320", "1", "10"); ("324", "2", "30"); ("330", "1.5", "60")]
  ∧ (let rows :=
       if truthy (csvHasHeader contexts_csv)
       then drop 1 [("320", "1", "10"); ("324", "2", "30"); ("330", "1.5", "60")]
       else [("320", "1", "10"); ("324", "2", "30"); ("330", "1.5", "60")] in
     (rows = [] →
      load an_argv a_world
      = Thrown (TypeError "Cannot read property 'viewport' of undefined")
          (said an_argv [Step_banner 1; Imported_lines 0] a_world))
     ∧ (rows ≠ [] →
        ∃ cmin cmax minV maxV,
          load an_argv a_world
          = Ok (cast_record <$> rows, minV, maxV)
              (said an_argv
                 [Step_banner 1; Imported_lines (length rows);
                  Viewports_in_context cmin cmax;
                  Viewports_considered minV maxV] a_world))).
Proof.
  split; [reflexivity|]. split; [reflexivity|].
  apply (contexts_loading_outcome plain_csv_records an_argv a_world);
    reflexivity.
Defined.

(** C5, counterexample: the second row of the file is [-5,0,-3], whose
    viewport and views are negative and whose density is zero; step 1 loads
    it as it loads the first row, and does not fail. *)
Lemma row_of_negative_numbers_is_loaded :
  load negative_argv a_world
  = Ok ([ Ctx (num 320) (num 1) (num 10); Ctx (num (-5)) (num 0) (num (-3)) ],
        num (-5), num 320) a_world.
Proof. by_decide. Qed.

Example empty_file_throws :
  load {| contextsfile := "empty.csv"; minviewport := None;
          maxviewport := None; url := the_url; selector := "img";
          delay := num 0; variationsfile := None; widthsnumber := num 2;
          destfile := None; verbose := true |} a_world
  = Thrown (TypeError "Cannot read property 'viewport' of undefined")
      (set_console (λ _, [Step_banner 1; Imported_lines 0]) a_world).
Proof. by_decide. Qed.

(** *** Step 2 on the examples *)

(** On the page of the examples every resize succeeds, and leaves the
    page as wide as the viewport. *)
Lemma fluid_page_at (argv : Argv) (n : nat) :
  ∀ (p : number) (a : Z),
    page_at (host := fluid) argv p a n = Some (num (a + Z.of_nat n)).
Proof.
  induction n as [|n IH]; intros p a.
  - cbn. by rewrite Z.add_0_r.
  - cbn [page_at]. unfold page_resized. cbn. rewrite IH. do 2 f_equal. lia.
Qed.

(** C8, witness: the range from 320 to 330 on the page of the examples. *)
Lemma profile_covers_range_witness :
  320 ≤ 330 ∧ - 2 ^ 53 ≤ 320 ∧ 330 < 2 ^ 53
  ∧ (verbose an_argv = false ∨ @stdout_isTTY number fluid = true)
  ∧ @puppeteer_launch number fluid = None
  ∧ @browser_newPage number fluid = inr (num 800)
  ∧ @page_goto number fluid (num 800) (url an_argv) = inr (num 800)
  ∧ (∀ z, 320 ≤ z ≤ 330 →
          ∃ q x, page_at (host := fluid) an_argv (num 800) 320
                   (Z.to_nat (z - 320)) = Some q
                 ∧ @page_evaluate_width number fluid q (selector an_argv)
                   = inr x)
  ∧ @browser_close number fluid = None
  ∧ ∃ w',
      step2 (host := fluid) an_argv (num 320) (num 330) a_world = Ok tt w'
      ∧ (∀ k, is_Some (imageWidths w' !! k) ↔ ∃ z, 320 ≤ z ≤ 330 ∧ k = num z)
      ∧ (∀ z, 320 ≤ z ≤ 330 →
              ∃ q x, page_at (host := fluid) an_argv (num 800) 320
                       (Z.to_nat (z - 320)) = Some q
                     ∧ @page_evaluate_width number fluid q (selector an_argv)
                       = inr x
                     ∧ imageWidths w' !! num z = Some x).
Proof.
  assert (∀ z, 320 ≤ z ≤ 330 →
              ∃ q x, page_at (host := fluid) an_argv (num 800) 320
                       (Z.to_nat (z - 320)) = Some q
                     ∧ @page_evaluate_width number fluid q (selector an_argv)
                       = inr x) as Hev.
  { intros z _. rewrite fluid_page_at. eexists. eexists.
    split; reflexivity. }
  split; [lia|]. split; [lia|]. split; [lia|]. split; [by left|].
  split; [reflexivity|]. split; [reflexivity|]. split; [reflexivity|].
  split; [exact Hev|]. split; [reflexivity|].
  apply (profile_covers_range (host := fluid) an_argv 320 330 a_world
           (num 800) (num 800));
    [lia|lia|lia|by left|reflexivity|reflexivity|reflexivity|exact Hev
    |reflexivity].
Defined.

(** C8, counterexample: three ranges whose lower bound is below the upper
    one and which are not measured at every integer width.  Under
    [--verbose], with the output sent to a file or a pipe, the range from
    320 to 330 is measured at 320 only, where the call that clears the
    line throws.  The range from 320.5 to 330 is measured at 320.5, 321.5
    and so on, and at no integer.  And a range that starts at 2^53 is
    never measured to its end, the width staying at 2^53. *)
Lemma ranges_that_are_not_covered :
  step2 (host := piped) verbose_argv (num 320) (num 330) a_world
  = Ok tt piped_end
  ∧ imageWidths piped_end !! num 321 = None
  ∧ step2 (host := fluid) fractional_argv (Fin (Q2Qc (641 # 2))) (num 330)
      a_world
    = Ok tt fractional_end
  ∧ imageWidths fractional_end !! num 321 = None
  ∧ ∀ fuel : nat,
      measure_loop (host := fluid) fuel an_argv (num (2 ^ 53 + 2))
        (set_VIEWPORT (viewport_at (2 ^ 53)) a_world)
      = Hung.
Proof.
  do 4 (split; [by_decide|]).
  intros fuel.
  apply (measure_loop_stuck (host := fluid) an_argv (num (2 ^ 53 + 2))
           (num (2 ^ 53))).
  - by_decide.
  - by_decide.
  - intros p v. eexists. reflexivity.
  - intros p. eexists. reflexivity.
  - by left.
  - reflexivity.
Qed.

(** C2, witness: the page that does not load. *)
Lemma failed_profiling_is_reported_and_run_goes_on_witness :
  load unreachable_argv a_world = Ok (three_contexts, num 320, num 330) a_world
  ∧ prepare (host := fluid) unreachable_argv (num 320) a_world
    = Ok tt (prepared unreachable_argv (num 320) (num 800) a_world)
  ∧ profiling (host := fluid) unreachable_argv (num 320) (num 330)
      (prepared unreachable_argv (num 320) (num 800) a_world)
    = Thrown (LibraryError "net::ERR_NAME_NOT_RESOLVED")
        (prepared unreachable_argv (num 320) (num 800) a_world)
  ∧ @browser_close number fluid = None
  ∧ ∃ w',
      run unreachable_argv a_world = Ok tt w'
      ∧ browser_open w' = false
      ∧ Couldnt_load_page (url unreachable_argv)
          (LibraryError "net::ERR_NAME_NOT_RESOLVED") ∈ console w'
      ∧ Dir_perfectWidths
          (perfectWidths
             (imageWidths
                (prepared unreachable_argv (num 320) (num 800) a_world))
             (num 320) (num 330) three_contexts) ∈ console w'
      ∧ ∀ f, given (destfile unreachable_argv) = Some f →
             f ∉ read_only a_world →
             written w'
             = <[f := SrcsetTxt (url unreachable_argv)
                        (selector unreachable_argv) []]> (written a_world).
Proof.
  assert (load unreachable_argv a_world
          = Ok (three_contexts, num 320, num 330) a_world) as H1 by by_decide.
  assert (prepare (host := fluid) unreachable_argv (num 320) a_world
          = Ok tt (prepared unreachable_argv (num 320) (num 800) a_world))
    as H2 by by_decide.
  assert (profiling (host := fluid) unreachable_argv (num 320) (num 330)
            (prepared unreachable_argv (num 320) (num 800) a_world)
          = Thrown (LibraryError "net::ERR_NAME_NOT_RESOLVED")
              (prepared unreachable_argv (num 320) (num 800) a_world)) as H3
    by by_decide.
  split; [exact H1|]. split; [exact H2|]. split; [exact H3|].
  split; [reflexivity|].
  exact (failed_profiling_is_reported_and_run_goes_on plain_csv_records
           (host := fluid) unreachable_argv a_world a_world
           (prepared unreachable_argv (num 320) (num 800) a_world)
           (prepared unreachable_argv (num 320) (num 800) a_world)
           three_contexts (num 320) (num 330)
           (LibraryError "net::ERR_NAME_NOT_RESOLVED") H1 H2 H3 eq_refl).
Defined.

(** C2, counterexample: on a page that does not load, and on a page where
    the selector matches nothing, the run does not stop with an error: it
    ends normally, and the final file is written, with no width in it.
    On a page where the image is gone from 325 pixels on, the widths
    recorded up to 324 pixels stay in [imageWidths], the perfect widths are
    computed from them, and the final file is written as well. *)
Lemma failed_profiling_still_writes_the_file :
  run unreachable_argv a_world = Ok tt unreachable_end
  ∧ written unreachable_end !! "srcset-widths.txt"
    = Some (SrcsetTxt "https://example.invalid/" "img" [])
  ∧ run no_match_argv a_world = Ok tt no_match_end
  ∧ written no_match_end !! "srcset-widths.txt"
    = Some (SrcsetTxt the_url "picture" [])
  ∧ profiling (host := vanishing) an_argv (num 320) (num 330)
      (prepared an_argv (num 320) (num 800) a_world)
    = Thrown (TypeError "Cannot read property 'width' of null")
        (set_page (num 325)
           (set_VIEWPORT (viewport_at 325)
              (set_imageWidths (λ _, measured 320 5)
                 (prepared an_argv (num 320) (num 800) a_world))))
  ∧ main plain_csv_records (host := vanishing) an_argv a_world
    = Ok tt vanishing_end
  ∧ written vanishing_end !! "srcset-widths.txt"
    = Some (SrcsetTxt the_url "img" []).
Proof. repeat split; by_decide. Qed.

(** *** Step 3 on the examples *)

(** C4, witness: with the range limited to 325 pixels, the context at 330
    pixels is not considered. *)
Lemma unconsidered_context_is_skipped_witness :
  considered (num 320) (num 325) (Ctx (num 330) (Fin (Q2Qc (3 # 2))) (num 60))
  = false
  ∧ (perfectWidthsTemp_totalViews (imageWidths limited_end) (num 320) (num 325)
       ([ Ctx (num 320) (num 1) (num 10); Ctx (num 324) (num 2) (num 30) ]
        ++ Ctx (num 330) (Fin (Q2Qc (3 # 2))) (num 60) :: [])
     = perfectWidthsTemp_totalViews (imageWidths limited_end)
         (num 320) (num 325)
         ([ Ctx (num 320) (num 1) (num 10); Ctx (num 324) (num 2) (num 30) ]
          ++ [])
     ∧ ∃ w',
         step3 limited_argv
           ([ Ctx (num 320) (num 1) (num 10); Ctx (num 324) (num 2) (num 30) ]
            ++ Ctx (num 330) (Fin (Q2Qc (3 # 2))) (num 60) :: [])
           (num 320) (num 325) limited_end = Ok tt w'
         ∧ step3 limited_argv
             ([ Ctx (num 320) (num 1) (num 10); Ctx (num 324) (num 2) (num 30) ]
              ++ [])
             (num 320) (num 325) limited_end = Ok tt w').
Proof.
  split; [reflexivity|].
  apply (unconsidered_context_is_skipped (Page := number)). reflexivity.
Defined.

(** C4, counterexample: the run limited to 325 pixels measures the widths
    from 320 to 325 pixels only; the context at 330 pixels is outside what
    was measured, and the run ends normally, with the perfect widths of the
    two other contexts.  No input at all makes step 3 throw. *)
Lemma context_outside_the_profile_raises_nothing :
  load limited_argv a_world = Ok (three_contexts, num 320, num 325) a_world
  ∧ run limited_argv a_world = Ok tt limited_end
  ∧ Ctx (num 330) (Fin (Q2Qc (3 # 2))) (num 60) ∈ three_contexts
  ∧ imageWidths limited_end !! num 330 = None
  ∧ ∀ (argv : Argv) (contexts : list context) (minV maxV : number)
      (w w' : world number) (e : error),
      step3 argv contexts minV maxV w ≠ Thrown e w'.
Proof.
  do 4 (split; [by_decide|]).
  intros argv contexts minV maxV w w' e.
  destruct (step3_Ok argv contexts minV maxV w) as [w'' ->]. done.
Qed.

(** C3, witness: the three contexts of the example file. *)
Lemma perfect_widths_sorted_by_percentage_witness :
  Forall (λ b, is_finite (percentage b))
    (perfectWidths (measured 320 11) (num 320) (num 330) three_contexts)
  ∧ (perfectWidths (measured 320 11) (num 320) (num 330) three_contexts
     ≡ₚ perfectWidths_unsorted
          (perfectWidthsTemp_totalViews (measured 320 11) (num 320) (num 330)
             three_contexts)
     ∧ StronglySorted width_le
         (perfectWidths_unsorted
            (perfectWidthsTemp_totalViews (measured 320 11) (num 320)
               (num 330) three_contexts))
     ∧ StronglySorted percentage_ge
         (perfectWidths (measured 320 11) (num 320) (num 330) three_contexts)).
Proof.
  assert (Forall (λ b, is_finite (percentage b))
            (perfectWidths (measured 320 11) (num 320) (num 330)
               three_contexts)) as H1
    by by_decide.
  split; [exact H1|].
  exact (perfect_widths_sorted_by_percentage (measured 320 11) (num 320)
           (num 330) three_contexts H1).
Defined.

(** C3, counterexample: the perfect widths of the example come out as 495,
    648 and 320 pixels, which is not an increasing order of width. *)
Lemma perfect_widths_not_sorted_by_width :
  width <$> perfectWidths (measured 320 11) (num 320) (num 330) three_contexts
  = [num 495; num 648; num 320]
  ∧ ¬ Sorted width_le
        (perfectWidths (measured 320 11) (num 320) (num 330) three_contexts).
Proof. split; by_decide. Qed.

(** Two contexts with 10^308 views each at one width: their sum is
    infinite, and so is the total, and the percentage of the one bucket,
    infinity over infinity, is NaN. *)
Example percentage_of_huge_views :
  sum_views huge_contexts = PInf
  ∧ perfectWidths (measured 320 1) (num 320) (num 320) huge_contexts
    = [ {| width := num 320; percentage := NaN |} ].
Proof. split; by_decide. Qed.

(** C6, witness: the three contexts of the example file. *)
Lemma percentages_sum_to_one_witness :
  Forall (λ c, is_whole (views c))
    (considered_contexts (num 320) (num 330) three_contexts)
  ∧ views_total (considered_contexts (num 320) (num 330) three_contexts)
    ≤ 2 ^ 53
  ∧ views_total (considered_contexts (num 320) (num 330) three_contexts) ≠ 0
  ∧ Forall (λ c, is_array_index (perfectWidth (measured 320 11) c))
      (considered_contexts (num 320) (num 330) three_contexts)
  ∧ (Forall (λ p, is_finite p)
       (percentage
          <$> perfectWidths (measured 320 11) (num 320) (num 330)
                three_contexts)
     ∧ (Qabs
          (qsum
             (fin_part
                <$> (percentage
                       <$> perfectWidths (measured 320 11) (num 320) (num 330)
                             three_contexts)) - 1)
        <= 2 ^ (-53))%Q).
Proof.
  assert (Forall (λ c, is_whole (views c))
            (considered_contexts (num 320) (num 330) three_contexts)) as H1
    by by_decide.
  assert (views_total (considered_contexts (num 320) (num 330) three_contexts)
          ≤ 2 ^ 53) as H2 by by_decide.
  assert (views_total (considered_contexts (num 320) (num 330) three_contexts)
          ≠ 0) as H3 by by_decide.
  assert (Forall (λ c, is_array_index (perfectWidth (measured 320 11) c))
            (considered_contexts (num 320) (num 330) three_contexts)) as H4
    by by_decide.
  split; [exact H1|]. split; [exact H2|]. split; [exact H3|].
  split; [exact H4|].
  exact (percentages_sum_to_one (measured 320 11) (num 320) (num 330)
           three_contexts H1 H2 H3 H4).
Defined.

(** The three percentages of the example, 0.6, 0.3 and 0.1 as doubles,
    added up as doubles in the order of the list, give the double just
    below 1. *)
Example percentages_added_as_doubles :
  sum_percentages
    (perfectWidths (measured 320 11) (num 320) (num 330) three_contexts)
  = Fin (Q2Qc (9007199254740991 # 9007199254740992)).
Proof. by_decide. Qed.

(** C6, counterexample: the file has two well-formed rows, with 0 and 30
    views, and the run is limited to the viewport of the first one, which is
    measured.  The only considered context has no views, the total is zero,
    and the one bucket gets 0 / 0: the percentages add up to NaN, not 1.
    And a perfect width of 32 000 000 000 pixels is not an array index: its
    views are in the total and in no bucket, and the sum is 0. *)
Lemma percentages_that_do_not_sum_to_one :
  load idle_argv a_world = Ok (idle_contexts, num 320, num 320) a_world
  ∧ run idle_argv a_world = Ok tt idle_end
  ∧ perfectWidths (imageWidths idle_end) (num 320) (num 320) idle_contexts
    = [ {| width := num 320; percentage := NaN |} ]
  ∧ sum_percentages
      (perfectWidths (imageWidths idle_end) (num 320) (num 320) idle_contexts)
    = NaN
  ∧ NaN ≠ num 1
  ∧ perfectWidth (measured 320 1) (Ctx (num 320) (num 100000000) (num 10))
    = num 32000000000
  ∧ perfectWidths (measured 320 1) (num 320) (num 320) dense_contexts = []
  ∧ sum_percentages
      (perfectWidths (measured 320 1) (num 320) (num 320) dense_contexts)
    = num 0
  ∧ num 0 ≠ num 1.
Proof. repeat split; by_decide. Qed.

(** C9, counterexample: the first of the two contexts has no views, and its
    perfect width, 320 pixels, is a bucket all the same, for which 0 views
    were counted and whose percentage is 0. *)
Lemma bucket_without_views_is_kept :
  (perfectWidthsTemp_totalViews (measured 320 5) (num 320) (num 324)
     idle_contexts).1 !! num 320 = Some (num 0)
  ∧ {| width := num 320; percentage := num 0 |}
    ∈ perfectWidths (measured 320 5) (num 320) (num 324) idle_contexts
  ∧ perfectWidths (measured 320 5) (num 320) (num 324) idle_contexts
    = [ {| width := num 648; percentage := num 1 |};
        {| width := num 320; percentage := num 0 |} ].
Proof. repeat split; by_decide. Qed.

(** *** The range, the checks and the whole run on the examples *)

(** X2, witness: the three contexts of the examples, from 320 to 330. *)
Lemma context_range_is_tight_witness :
  num 320 ≠ NaN
  ∧ contextMinViewport three_contexts (num 320) ∈ viewport <$> three_contexts
  ∧ contextMaxViewport three_contexts (num 320) ∈ viewport <$> three_contexts
  ∧ Forall (λ c, viewport c ≠ NaN →
                 considered (contextMinViewport three_contexts (num 320))
                   (contextMaxViewport three_contexts (num 320)) c)
      three_contexts.
Proof.
  split; [done|].
  apply (context_range_is_tight (Ctx (num 320) (num 1) (num 10))
           [ Ctx (num 324) (num 2) (num 30);
             Ctx (num 330) (Fin (Q2Qc (3 # 2))) (num 60) ]).
  done.
Defined.

(** X3, witness: a first row without a viewport before the second row of
    the examples, with the measurements of the example run. *)
Lemma first_viewport_NaN_empties_the_range_witness :
  parseInt "" = NaN
  ∧ minViewport an_argv
      (contextMinViewport
         [Ctx NaN (num 1) (num 10); Ctx (num 324) (num 2) (num 30)] NaN)
    = NaN
  ∧ maxViewport an_argv
      (contextMaxViewport
         [Ctx NaN (num 1) (num 10); Ctx (num 324) (num 2) (num 30)] NaN)
    = NaN
  ∧ perfectWidths (measured 320 11)
      (minViewport an_argv
         (contextMinViewport
            [Ctx NaN (num 1) (num 10); Ctx (num 324) (num 2) (num 30)] NaN))
      (maxViewport an_argv
         (contextMaxViewport
            [Ctx NaN (num 1) (num 10); Ctx (num 324) (num 2) (num 30)] NaN))
      [Ctx NaN (num 1) (num 10); Ctx (num 324) (num 2) (num 30)]
    = [].
Proof.
  split; [reflexivity|].
  apply (first_viewport_NaN_empties_the_range an_argv
           (Ctx NaN (num 1) (num 10)) [Ctx (num 324) (num 2) (num 30)]
           (measured 320 11)).
  reflexivity.
Defined.

(** X4, witness: on a machine where Chrome does not start, the run
    throws what the launch rejects with. *)
Lemma main_throws_only_uncaught_errors_witness :
  main plain_csv_records (host := no_browser) an_argv a_world
  = Thrown (LibraryError "Failed to launch chrome!")
      (set_VIEWPORT (viewport_at 320) a_world)
  ∧ (load an_argv a_world
     = Thrown (LibraryError "Failed to launch chrome!")
         (set_VIEWPORT (viewport_at 320) a_world)
     ∧ (∃ ls, set_VIEWPORT (viewport_at 320) a_world = said an_argv ls a_world)
     ∧ (LibraryError "Failed to launch chrome!" = LibraryError "ENOENT"
        ∨ LibraryError "Failed to launch chrome!" = LibraryError "csv-parse"
        ∨ LibraryError "Failed to launch chrome!"
          = TypeError "Cannot read property 'viewport' of undefined")
     ∨ (∃ r w1, load an_argv a_world = Ok r w1)
       ∧ (@puppeteer_launch number no_browser
          = Some (LibraryError "Failed to launch chrome!")
          ∨ @browser_newPage number no_browser
            = inl (LibraryError "Failed to launch chrome!")
          ∨ @browser_close number no_browser
            = Some (LibraryError "Failed to launch chrome!"))).
Proof.
  assert (main plain_csv_records (host := no_browser) an_argv a_world
          = Thrown (LibraryError "Failed to launch chrome!")
              (set_VIEWPORT (viewport_at 320) a_world)) as Hrun by by_decide.
  split; [exact Hrun|].
  exact (main_throws_only_uncaught_errors plain_csv_records
           (host := no_browser) an_argv a_world _ _ Hrun).
Defined.

Example run_on_the_empty_file_throws :
  run empty_argv a_world
  = Thrown (TypeError "Cannot read property 'viewport' of undefined") a_world.
Proof. by_decide. Qed.

(** X5, witness: the run of the examples, from 320 to 330. *)
Lemma main_never_hangs_witness :
  load an_argv a_world = Ok (three_contexts, num 320, num 330) a_world
  ∧ (num 320 = NaN ∨ num 330 = NaN
     ∨ ∃ a b, num 320 = num a ∧ num 330 = num b ∧ - 2 ^ 53 ≤ a ∧ b < 2 ^ 53)
  ∧ run an_argv a_world ≠ Hung.
Proof.
  assert (load an_argv a_world
          = Ok (three_contexts, num 320, num 330) a_world) as H1 by by_decide.
  assert (num 320 = NaN ∨ num 330 = NaN
          ∨ ∃ a b, num 320 = num a ∧ num 330 = num b
                   ∧ - 2 ^ 53 ≤ a ∧ b < 2 ^ 53) as H2.
  { right. right. exists 320, 330. repeat split; lia. }
  split; [exact H1|]. split; [exact H2|].
  exact (main_never_hangs plain_csv_records (host := fluid) an_argv a_world
           a_world three_contexts (num 320) (num 330) H1 H2).
Defined.

(** X6, witness: the run limited to 325 pixels. *)
Lemma main_frame_witness :
  run limited_argv a_world = Ok tt limited_end
  ∧ browser_open limited_end = false
  ∧ disk limited_end = disk a_world
  ∧ read_only limited_end = read_only a_world
  ∧ (∃ l, console limited_end = console a_world ++ l)
  ∧ ∀ p, given (variationsfile limited_argv) ≠ Some p →
         given (destfile limited_argv) ≠ Some p →
         written limited_end !! p = written a_world !! p.
Proof.
  assert (run limited_argv a_world = Ok tt limited_end) as Hrun by by_decide.
  split; [exact Hrun|].
  exact (main_frame plain_csv_records (host := fluid) limited_argv a_world
           limited_end Hrun).
Defined.

(** X7, witness: the page that does not load. *)
Lemma failed_profiling_writes_no_variations_witness :
  @puppeteer_launch number fluid = None
  ∧ @browser_newPage number fluid = inr (num 800)
  ∧ @browser_close number fluid = None
  ∧ profiling (host := fluid) unreachable_argv (num 320) (num 330)
      (prepared unreachable_argv (num 320) (num 800) a_world)
    = Thrown (LibraryError "net::ERR_NAME_NOT_RESOLVED")
        (prepared unreachable_argv (num 320) (num 800) a_world)
  ∧ ∃ w',
      step2 (host := fluid) unreachable_argv (num 320) (num 330) a_world
      = Ok tt w'
      ∧ written w' = written a_world
      ∧ (∃ ls, console w'
               = console a_world ++ ls
                 ++ [Couldnt_load_page (url unreachable_argv)
                       (LibraryError "net::ERR_NAME_NOT_RESOLVED")]
               ∧ progress_lines unreachable_argv ls)
      ∧ imageWidths w'
        = imageWidths (prepared unreachable_argv (num 320) (num 800) a_world).
Proof.
  assert (profiling (host := fluid) unreachable_argv (num 320) (num 330)
            (prepared unreachable_argv (num 320) (num 800) a_world)
          = Thrown (LibraryError "net::ERR_NAME_NOT_RESOLVED")
              (prepared unreachable_argv (num 320) (num 800) a_world)) as Hp
    by by_decide.
  split; [reflexivity|]. split; [reflexivity|]. split; [reflexivity|].
  split; [exact Hp|].
  exact (failed_profiling_writes_no_variations (host := fluid)
           unreachable_argv (num 320) (num 330) (num 800) a_world _ _
           eq_refl eq_refl eq_refl Hp).
Defined.

(** X9, witness: the run limited to 325 pixels passes the checks, and the
    file of the contexts, which exists, is as it was at the end. *)
Lemma script_overwrites_no_file_witness :
  script plain_csv_records (host := fluid) limited_argv a_world
  = inr (Ok tt limited_end)
  ∧ existsSync "contexts.csv" a_world = true
  ∧ disk limited_end !! "contexts.csv" = disk a_world !! "contexts.csv"
  ∧ written limited_end !! "contexts.csv"
    = written a_world !! "contexts.csv".
Proof.
  assert (script plain_csv_records (host := fluid) limited_argv a_world
          = inr (Ok tt limited_end)) as Hrun by by_decide.
  assert (existsSync "contexts.csv" a_world = true) as Hex by reflexivity.
  split; [exact Hrun|]. split; [exact Hex|].
  exact (script_overwrites_no_file plain_csv_records (host := fluid)
           limited_argv a_world limited_end Hrun "contexts.csv" Hex).
Defined.

(** X10, witness: the run that saves the variations, on the page of the
    examples: the file holds the eleven rows, from 320 to 330. *)
Lemma variations_file_or_an_error_line_witness :
  step2 (host := fluid) variations_argv (num 320) (num 330) a_world
  = Ok tt variations_end
  ∧ given (variationsfile variations_argv) = Some "variations.csv"
  ∧ written a_world !! "variations.csv" = None
  ∧ (written variations_end !! "variations.csv"
     = Some (VariationsCsv (Array_entries (imageWidths variations_end)))
     ∧ (∃ ls, console variations_end = console a_world ++ ls
              ∧ progress_lines variations_argv ls)
     ∨ written variations_end !! "variations.csv" = None
       ∧ ∃ e ls ls',
           progress_lines variations_argv ls
           ∧ progress_lines variations_argv ls'
           ∧ (console variations_end
              = console a_world ++ ls
                ++ [Couldnt_load_page (url variations_argv) e]
              ∨ console variations_end
                = console a_world ++ ls
                  ++ [Couldnt_save_variations "variations.csv" e] ++ ls')).
Proof.
  assert (step2 (host := fluid) variations_argv (num 320) (num 330) a_world
          = Ok tt variations_end) as Hs2 by by_decide.
  split; [exact Hs2|]. split; [reflexivity|]. split; [reflexivity|].
  exact (variations_file_or_an_error_line (host := fluid) variations_argv
           (num 320) (num 330) a_world variations_end "variations.csv"
           Hs2 eq_refl eq_refl).
Defined.

(** X11, witness: the page on which the image is gone from 325 pixels on:
    step 2 ends with the widths from 320 to 324 recorded. *)
Lemma recorded_widths_form_an_initial_segment_witness :
  step2 (host := vanishing) an_argv (num 320) (num 330) a_world
  = Ok tt gone_end
  ∧ ∃ n : nat,
      (∀ i : nat, (i < n)%nat → num_leb (width_after (num 320) i) (num 330))
      ∧ ∀ k, is_Some (imageWidths gone_end !! k)
             ↔ ∃ i : nat, (i < n)%nat ∧ k = width_after (num 320) i.
Proof.
  assert (step2 (host := vanishing) an_argv (num 320) (num 330) a_world
          = Ok tt gone_end) as Hs2 by by_decide.
  split; [exact Hs2|].
  exact (recorded_widths_form_an_initial_segment (host := vanishing) an_argv
           (num 320) (num 330) a_world gone_end Hs2).
Defined.

(** X12, witness: the run from 320.5 pixels on records the widths at
    320.5, 321.5, ... 329.5 pixels, and none of the three contexts finds
    its viewport among them. *)
Lemma fractional_minviewport_gives_no_width_witness :
  minviewport fractional_argv = Some (Fin (Q2Qc (641 # 2)))
  ∧ Z.odd 641 = true
  ∧ - 2 ^ 53 < 641
  ∧ num_ltb (num 320) (Fin (Q2Qc (641 # 2)))
  ∧ num_leb (num 330) (num (2 ^ 52 - 1))
  ∧ Forall (λ c, viewport c = NaN ∨ is_integer (viewport c)) three_contexts
  ∧ step2 (host := fluid) fractional_argv
      (minViewport fractional_argv (num 320)) (num 330) a_world
    = Ok tt fractional_end
  ∧ perfectWidths (imageWidths fractional_end)
      (minViewport fractional_argv (num 320)) (num 330) three_contexts
    = [].
Proof.
  assert (Forall (λ c, viewport c = NaN ∨ is_integer (viewport c))
            three_contexts) as Hint.
  { unfold three_contexts.
    repeat (apply Forall_cons; split; [right; eexists; reflexivity|]).
    apply Forall_nil_2. }
  assert (step2 (host := fluid) fractional_argv
            (minViewport fractional_argv (num 320)) (num 330) a_world
          = Ok tt fractional_end) as Hs2
    by by_decide.
  assert (num_ltb (num 320) (Fin (Q2Qc (641 # 2)))) as Hlt by by_decide.
  assert (num_leb (num 330) (num (2 ^ 52 - 1))) as Hle by by_decide.
  split; [reflexivity|]. split; [reflexivity|]. split; [lia|].
  split; [exact Hlt|]. split; [exact Hle|].
  split; [exact Hint|]. split; [exact Hs2|].
  exact (fractional_minviewport_gives_no_width (host := fluid)
           fractional_argv 641 (num 320) (num 330)
           three_contexts a_world fractional_end eq_refl eq_refl
           ltac:(lia) Hlt Hle Hint Hs2).
Defined.

(** X13, witness: the run from 400 pixels on, when the widest viewport of
    the file is 330 pixels. *)
Lemma empty_range_measures_nothing_witness :
  load beyond_argv a_world = Ok (three_contexts, num 400, num 330) a_world
  ∧ num_leb (num 400) (num 330) = false
  ∧ @puppeteer_launch number fluid = None
  ∧ @browser_newPage number fluid = inr (num 800)
  ∧ @browser_close number fluid = None
  ∧ ∃ w', run beyond_argv a_world = Ok tt w'
          ∧ imageWidths w' = ∅
          ∧ Dir_perfectWidths [] ∈ console w'.
Proof.
  assert (load beyond_argv a_world
          = Ok (three_contexts, num 400, num 330) a_world) as H1
    by by_decide.
  split; [exact H1|]. split; [reflexivity|]. split; [reflexivity|].
  split; [reflexivity|]. split; [reflexivity|].
  exact (empty_range_measures_nothing plain_csv_records (host := fluid)
           beyond_argv a_world a_world three_contexts (num 400) (num 330)
           (num 800) H1 eq_refl eq_refl eq_refl eq_refl).
Defined.

(** X14, witness: the first two contexts of the examples in the other
    order. *)
Lemma perfect_widths_do_not_depend_on_the_order_witness :
  [ Ctx (num 324) (num 2) (num 30); Ctx (num 320) (num 1) (num 10);
    Ctx (num 330) (Fin (Q2Qc (3 # 2))) (num 60) ]
  ≡ₚ three_contexts
  ∧ Forall (λ c, is_whole (views c))
      (considered_contexts (num 320) (num 330)
         [ Ctx (num 324) (num 2) (num 30); Ctx (num 320) (num 1) (num 10);
           Ctx (num 330) (Fin (Q2Qc (3 # 2))) (num 60) ])
  ∧ views_total
      (considered_contexts (num 320) (num 330)
         [ Ctx (num 324) (num 2) (num 30); Ctx (num 320) (num 1) (num 10);
           Ctx (num 330) (Fin (Q2Qc (3 # 2))) (num 60) ])
    ≤ 2 ^ 53
  ∧ perfectWidths (measured 320 11) (num 320) (num 330)
      [ Ctx (num 324) (num 2) (num 30); Ctx (num 320) (num 1) (num 10);
        Ctx (num 330) (Fin (Q2Qc (3 # 2))) (num 60) ]
    = perfectWidths (measured 320 11) (num 320) (num 330) three_contexts.
Proof.
  assert ([ Ctx (num 324) (num 2) (num 30); Ctx (num 320) (num 1) (num 10);
            Ctx (num 330) (Fin (Q2Qc (3 # 2))) (num 60) ]
          ≡ₚ three_contexts) as Hp by apply perm_swap.
  assert (Forall (λ c, is_whole (views c))
            (considered_contexts (num 320) (num 330)
               [ Ctx (num 324) (num 2) (num 30);
                 Ctx (num 320) (num 1) (num 10);
                 Ctx (num 330) (Fin (Q2Qc (3 # 2))) (num 60) ])) as Hw
    by by_decide.
  assert (views_total
            (considered_contexts (num 320) (num 330)
               [ Ctx (num 324) (num 2) (num 30);
                 Ctx (num 320) (num 1) (num 10);
                 Ctx (num 330) (Fin (Q2Qc (3 # 2))) (num 60) ])
          ≤ 2 ^ 53) as Hle by by_decide.
  split; [exact Hp|]. split; [exact Hw|]. split; [exact Hle|].
  exact (perfect_widths_do_not_depend_on_the_order (measured 320 11)
           (num 320) (num 330) _ _ Hp Hw Hle).
Defined.

(** Above 2^53 the order counts: 2^53 views, then 1 and 1, add up to
    2^53, and 1 and 1, then 2^53, to 2^53 + 2. *)
Example sum_of_views_depends_on_the_order :
  sum_views [ Ctx (num 320) (num 1) (num (2 ^ 53));
              Ctx (num 320) (num 1) (num 1); Ctx (num 320) (num 1) (num 1) ]
  = num (2 ^ 53)
  ∧ sum_views [ Ctx (num 320) (num 1) (num 1); Ctx (num 320) (num 1) (num 1);
                Ctx (num 320) (num 1) (num (2 ^ 53)) ]
    = num (2 ^ 53 + 2).
Proof. split; by_decide. Qed.

(** X15, witness: the percentages of the example run, 3/5, 3/10 and
    1/10. *)
Lemma percentages_between_0_and_1_witness :
  Forall (λ c, is_whole (views c))
    (considered_contexts (num 320) (num 330) three_contexts)
  ∧ views_total (considered_contexts (num 320) (num 330) three_contexts)
    ≤ 2 ^ 53
  ∧ views_total (considered_contexts (num 320) (num 330) three_contexts) ≠ 0
  ∧ Forall (λ b, num_leb (num 0) (percentage b)
                 ∧ num_leb (percentage b) (num 1))
      (perfectWidths (measured 320 11) (num 320) (num 330) three_contexts).
Proof.
  assert (Forall (λ c, is_whole (views c))
            (considered_contexts (num 320) (num 330) three_contexts)) as H1
    by by_decide.
  assert (views_total (considered_contexts (num 320) (num 330) three_contexts)
          ≤ 2 ^ 53) as H2 by by_decide.
  assert (views_total (considered_contexts (num 320) (num 330) three_contexts)
          ≠ 0) as H3 by by_decide.
  split; [exact H1|]. split; [exact H2|]. split; [exact H3|].
  exact (percentages_between_0_and_1 (measured 320 11) (num 320) (num 330)
           three_contexts H1 H2 H3).
Defined.

(** X16, witness: the page of the examples, from 2^53 to 2^53 + 2. *)
Lemma loop_from_2_53_never_ends_witness :
  num_leb (num (2 ^ 53)) (num (2 ^ 53 + 2))
  ∧ @puppeteer_launch number fluid = None
  ∧ @browser_newPage number fluid = inr (num 800)
  ∧ @page_goto number fluid (num 800) (url an_argv) = inr (num 800)
  ∧ (∀ q v, ∃ q', @page_setViewport number fluid q v = inr q')
  ∧ (∀ q, ∃ y, @page_evaluate_width number fluid q (selector an_argv) = inr y)
  ∧ (verbose an_argv = false ∨ @stdout_isTTY number fluid = true)
  ∧ ((∀ (fuel : nat) (w0 : world number),
        vp_width (VIEWPORT w0) = num (2 ^ 53) →
        measure_loop (host := fluid) fuel an_argv (num (2 ^ 53 + 2)) w0 = Hung)
     ∧ step2 (host := fluid) an_argv (num (2 ^ 53)) (num (2 ^ 53 + 2)) a_world
       = Hung).
Proof.
  assert (num_leb (num (2 ^ 53)) (num (2 ^ 53 + 2))) as Hle by by_decide.
  assert (∀ q v, ∃ q', @page_setViewport number fluid q v = inr q') as Hsv
    by (intros q v; eexists; reflexivity).
  assert (∀ q, ∃ y, @page_evaluate_width number fluid q (selector an_argv)
                    = inr y) as Hev
    by (intros q; eexists; reflexivity).
  split; [exact Hle|]. split; [reflexivity|]. split; [reflexivity|].
  split; [reflexivity|]. split; [exact Hsv|]. split; [exact Hev|].
  split; [by left|].
  exact (loop_from_2_53_never_ends (host := fluid) an_argv (num (2 ^ 53 + 2))
           (num 800) (num 800) a_world Hle eq_refl eq_refl eq_refl Hsv Hev
           (or_introl eq_refl)).
Defined.

(** X17, witness: the run that tells what it does, to a file or a pipe. *)
Lemma verbose_without_terminal_records_one_width_witness :
  verbose verbose_argv = true
  ∧ @stdout_isTTY number piped = false
  ∧ num_leb (num 320) (num 330)
  ∧ @puppeteer_launch number piped = None
  ∧ @browser_newPage number piped = inr (num 800)
  ∧ @page_goto number piped (num 800) (url verbose_argv) = inr (num 800)
  ∧ @page_setViewport number piped (num 800)
      {| vp_width := num 320; vp_height := num 2000;
         deviceScaleFactor := num 1 |}
    = inr (num 320)
  ∧ @page_evaluate_width number piped
      (@page_sleep number piped (num 320) (delay verbose_argv))
      (selector verbose_argv)
    = inr (num 320)
  ∧ @browser_close number piped = None
  ∧ ∃ w',
      step2 (host := piped) verbose_argv (num 320) (num 330) a_world
      = Ok tt w'
      ∧ imageWidths w' = {[ num 320 := num 320 ]}
      ∧ errors (console w')
        = errors (console a_world)
          ++ [Couldnt_load_page (url verbose_argv)
                (TypeError "process.stdout.clearLine is not a function")]
      ∧ written w' = written a_world.
Proof.
  assert (num_leb (num 320) (num 330)) as Hle by by_decide.
  assert (@page_evaluate_width number piped
            (@page_sleep number piped (num 320) (delay verbose_argv))
            (selector verbose_argv)
          = inr (num 320)) as Hev by by_decide.
  split; [reflexivity|]. split; [reflexivity|]. split; [exact Hle|].
  split; [reflexivity|]. split; [reflexivity|]. split; [reflexivity|].
  split; [reflexivity|]. split; [exact Hev|]. split; [reflexivity|].
  exact (verbose_without_terminal_records_one_width (host := piped)
           verbose_argv (num 320) (num 330) (num 320) (num 800) (num 800)
           (num 320) a_world eq_refl eq_refl Hle eq_refl eq_refl eq_refl
           eq_refl Hev eq_refl).
Defined.
